(** * Batched MultiGet coordination: MultiGetContext, Range, Iterator and
      AsyncFileReader

    A shallow embedding of the batch context of [MultiGetContext] (with its
    nested [Range] and [Range::Iterator]) and of [AsyncFileReader]
    ([util/async_file_reader.cc]), followed by the properties the
    specification states about them, proved or refuted on the embedding.
    Further parts cover the rest of the two classes' interfaces and
    [MultiScanIterator] ([include/rocksdb/multi_scan_iterator.h]).

    Conventions of the embedding:
    - [uint64_t] and [size_t] values are integers in [Z]; wrap-around and the
      width of a shift are written out ([wrap64], [shl64]);
    - objects reached through pointers ([MultiGetContext], [Range],
      [ReadAwaiter]) live in a store indexed by address, so that two views of
      one object really alias;
    - functions run in a small state-and-outcome monad: a call either
      returns, trips an [assert], runs into C++ undefined behaviour, or does
      not finish within the fuel of a loop. *)

From stdpp Require Import base option list sorting gmap.
From Stdlib Require Import ZArith Lia Bool.

Local Open Scope Z_scope.

(** ** Outcomes and the state monad *)

Module Run.

(** The ways in which the C++ code leaves defined behaviour. *)
Inductive ub : Type :=
| ShiftTooWide (amount : Z)     (* [x << n] with [n >= 64] on a 64-bit operand *)
| BufferOverrun (slot : Z)      (* placement past the end of a fixed buffer *)
| BadPointer                    (* dereference of null or of a dead object *)
| IndexOutOfRange (i : Z).      (* [v[i]] with [i >= v.size()] *)

Inductive outcome (A : Type) : Type :=
| Returns (a : A)
| AssertFails
| Undefined (u : ub)
| OutOfFuel.

Arguments Returns {A} a.
Arguments AssertFails {A}.
Arguments Undefined {A} u.
Arguments OutOfFuel {A}.

Definition M (S A : Type) : Type := S -> outcome (A * S).

Definition ret {S A} (a : A) : M S A := fun s => Returns (a, s).

Definition bind {S A B} (c : M S A) (k : A -> M S B) : M S B :=
  fun s =>
    match c s with
    | Returns (a, s') => k a s'
    | AssertFails => AssertFails
    | Undefined u => Undefined u
    | OutOfFuel => OutOfFuel
    end.

Definition get {S} : M S S := fun s => Returns (s, s).
Definition undefined {S A} (u : ub) : M S A := fun _ => Undefined u.
Definition out_of_fuel {S A} : M S A := fun _ => OutOfFuel.

(** [assert(b)] of <cassert>. *)
Definition assert {S} (b : bool) : M S unit :=
  fun s => if b then Returns (tt, s) else AssertFails.

(** A pure computation that may fail, lifted into the monad. *)
Definition lift {S A} (o : outcome A) : M S A :=
  fun s =>
    match o with
    | Returns a => Returns (a, s)
    | AssertFails => AssertFails
    | Undefined u => Undefined u
    | OutOfFuel => OutOfFuel
    end.

Definition is_returns {A} (o : outcome A) : Prop := exists a, o = Returns a.

(** The value a computation returns, without the final state. *)
Definition value_of {S A} (o : outcome (A * S)) : outcome A :=
  match o with
  | Returns (a, _) => Returns a
  | AssertFails => AssertFails
  | Undefined u => Undefined u
  | OutOfFuel => OutOfFuel
  end.

(** An explicit rejection: an [assert] of the source fired. *)
Definition rejected {A} (o : outcome A) : Prop := o = AssertFails.

End Run.

Import Run.

Declare Scope run_scope.
Delimit Scope run_scope with run.
Notation "'let*' x := c 'in' k" := (bind c (fun x => k))
  (at level 10, x pattern, c at level 100, k at level 200,
   format "'[v' 'let*'  x  :=  c  'in' '/' k ']'") : run_scope.
Local Open Scope run_scope.

(** ** 64-bit unsigned arithmetic *)

Module U64.

Definition width : Z := 64.
Definition modulus : Z := 2 ^ width.

Definition wrap64 (z : Z) : Z := z mod modulus.

(** [x << n] on [uint64_t], for an unsigned amount [n]: undefined as soon as
    [n] reaches the width. *)
Definition shl64 (x n : Z) : outcome Z :=
  if (0 <=? n) && (n <? width)
  then Returns (wrap64 (Z.shiftl x n))
  else Undefined (ShiftTooWide n).

(** [~x] on [uint64_t]. *)
Definition not64 (x : Z) : Z := wrap64 (Z.lnot x).

(** [x - 1] on [uint64_t]. *)
Definition pred64 (x : Z) : Z := wrap64 (x - 1).

(** [++i] on [size_t]. *)
Definition succ64 (i : Z) : Z := wrap64 (i + 1).

(** Conversion of an integer to [bool]. *)
Definition to_bool (x : Z) : bool := negb (x =? 0).

End U64.

Import U64.

(** ** The batch context ([MultiGetContext], [Range], [Range::Iterator]) *)

Module MultiGet.

Abbreviation addr := positive.

Definition Slice : Type := list Byte.byte.
Definition SequenceNumber : Type := Z.

(** Modelled from the spec: class [LookupKey] is declared in
    [db/lookup_key.h], which is not among the sources.  The spec says that a
    key's internal lookup form is derived from the target key and the read
    point, and that a user-key view and an internal-key view are taken from
    it; the model keeps those two ingredients and nothing else. *)
Record LookupKey : Type := mkLookupKey {
  lk_user_key : Slice;
  lk_snapshot : SequenceNumber }.

Definition LookupKey_new (user_key : Slice) (snapshot : SequenceNumber) : LookupKey :=
  mkLookupKey user_key snapshot.
Definition user_key (lk : LookupKey) : Slice := lk_user_key lk.
Definition internal_key (lk : LookupKey) : Slice * SequenceNumber :=
  (lk_user_key lk, lk_snapshot lk).

(** Where [lookup_key_ptr_] points: at the member array [lookup_key_buf], or
    at a block obtained from the heap. *)
Inductive lkey_region : Type :=
| InlineBuf
| HeapBuf (block : addr).

(** [struct KeyContext], restricted to the fields the constructor of the
    context reads or writes.  [lkey] is a pointer: a region and a slot. *)
Record KeyContext : Type := mkKeyContext {
  key : Slice;
  lkey : option (lkey_region * Z);
  ukey : Slice;
  ikey : option (Slice * SequenceNumber) }.

(** [KeyContext(user_key, col_family, val, stat)]. *)
Definition KeyContext_new (k : Slice) : KeyContext := mkKeyContext k None [] None.

Definition MAX_KEYS_ON_STACK : Z := 32.

(** [class MultiGetContext].  [lookup_key_buf] is the raw member array of
    [MAX_KEYS_ON_STACK] slots; [sorted_keys_] is the caller's array, kept
    here by value. *)
Record MultiGetContext : Type := mkMultiGetContext {
  lookup_key_buf : list (option LookupKey);
  sorted_keys_ : list KeyContext;
  num_keys_ : Z;
  value_mask_ : Z;
  lookup_key_ptr_ : lkey_region }.

Definition set_value_mask (c : MultiGetContext) (v : Z) : MultiGetContext :=
  mkMultiGetContext (lookup_key_buf c) (sorted_keys_ c) (num_keys_ c) v (lookup_key_ptr_ c).

(** [new (&lookup_key_ptr_[index]) LookupKey(...)]: the object is built in
    slot [index] of the region [lookup_key_ptr_] points at.  The only region
    the class ever sets up is the inline buffer. *)
Definition place_lookup_key (c : MultiGetContext) (index : Z) (lk : LookupKey)
  : outcome (list (option LookupKey)) :=
  match lookup_key_ptr_ c with
  | InlineBuf =>
      if (0 <=? index) && (index <? MAX_KEYS_ON_STACK)
      then Returns (<[Z.to_nat index := Some lk]> (lookup_key_buf c))
      else Undefined (BufferOverrun index)
  | HeapBuf _ => Undefined BadPointer
  end.

(** The body of the constructor's [for] loop, from [iter] on. *)
Fixpoint ctor_loop (fuel : nat) (snapshot : SequenceNumber) (iter index : Z)
    (c : MultiGetContext) : outcome MultiGetContext :=
  if iter =? num_keys_ c then Returns c
  else
    match fuel with
    | O => OutOfFuel
    | S fuel' =>
        match sorted_keys_ c !! Z.to_nat iter with
        | None => Undefined BadPointer
        | Some kc =>
            let lk := LookupKey_new (key kc) snapshot in
            match place_lookup_key c index lk with
            | Returns buf =>
                let kc' := mkKeyContext (key kc) (Some (lookup_key_ptr_ c, index))
                                        (user_key lk) (Some (internal_key lk)) in
                ctor_loop fuel' snapshot (succ64 iter) (index + 1)
                  (mkMultiGetContext buf (<[Z.to_nat iter := kc']> (sorted_keys_ c))
                     (num_keys_ c) (value_mask_ c) (lookup_key_ptr_ c))
            | AssertFails => AssertFails
            | Undefined u => Undefined u
            | OutOfFuel => OutOfFuel
            end
        end
    end.

(** What the constructor's loop leaves in the caller's array at position
    [i]: the entry with its lookup key in slot [i] of the inline buffer. *)
Definition derived (snapshot : SequenceNumber) (i : Z) (kc : KeyContext) : KeyContext :=
  mkKeyContext (key kc) (Some (InlineBuf, i))
    (user_key (LookupKey_new (key kc) snapshot))
    (Some (internal_key (LookupKey_new (key kc) snapshot))).

(** [MultiGetContext::MultiGetContext(sorted_keys, num_keys, snapshot)]. *)
Definition MultiGetContext_ctor (sorted_keys : list KeyContext) (num_keys : Z)
    (snapshot : SequenceNumber) : outcome MultiGetContext :=
  ctor_loop (Z.to_nat num_keys) snapshot 0 0
    (mkMultiGetContext (replicate (Z.to_nat MAX_KEYS_ON_STACK) None)
       sorted_keys num_keys 0 InlineBuf).

(** [MultiGetContext::~MultiGetContext()]: the heap blocks handed to
    [delete[]]. *)
Definition MultiGetContext_dtor (c : MultiGetContext) : list addr :=
  match lookup_key_ptr_ c with
  | InlineBuf => []
  | HeapBuf b => [b]
  end.

(** [class Range] and [class Range::Iterator]. *)
Record Range : Type := mkRange {
  ctx_ : addr;
  start_ : Z;
  end_ : Z;
  skip_mask_ : Z }.

Record Iterator : Type := mkIterator {
  range_ : addr;
  it_ctx_ : addr;       (* [Iterator::ctx_] *)
  index_ : Z }.

(** The store: contexts and ranges, by address. *)
Record memory : Type := mkMemory {
  contexts : gmap addr MultiGetContext;
  ranges : gmap addr Range }.

Definition load_ctx (p : addr) : M memory MultiGetContext :=
  fun m => match contexts m !! p with
           | Some c => Returns (c, m)
           | None => Undefined BadPointer
           end.

Definition load_range (p : addr) : M memory Range :=
  fun m => match ranges m !! p with
           | Some r => Returns (r, m)
           | None => Undefined BadPointer
           end.

Definition store_ctx (p : addr) (c : MultiGetContext) : M memory unit :=
  fun m => Returns (tt, mkMemory (<[p := c]> (contexts m)) (ranges m)).

Definition store_range (p : addr) (r : Range) : M memory unit :=
  fun m => Returns (tt, mkMemory (contexts m) (<[p := r]> (ranges m))).

(** The loop condition shared by the iterator's constructor and increment:
    [index_ < range_->end_ &&
     (1ull << index_) & (range_->ctx_->value_mask_ | range_->skip_mask_)].
    The second operand is evaluated only when the first holds. *)
Definition must_skip (range : addr) (index : Z) : M memory bool :=
  let* r := load_range range in
  if index <? end_ r then
    let* c := load_ctx (ctx_ r) in
    let* bit := lift (shl64 1 index) in
    ret (to_bool (Z.land bit (Z.lor (value_mask_ c) (skip_mask_ r))))
  else ret false.

(** [while (cond(index_)) index_++;]  The loop runs while [index_] is below
    [end_], so [end_] turns are always enough. *)
Fixpoint ctor_scan (fuel : nat) (range : addr) (index : Z) : M memory Z :=
  let* b := must_skip range index in
  if b then
    match fuel with
    | O => out_of_fuel
    | S fuel' => ctor_scan fuel' range (succ64 index)
    end
  else ret index.

(** [while (cond(++index_)) ;] *)
Fixpoint incr_scan (fuel : nat) (range : addr) (index : Z) : M memory Z :=
  let index' := succ64 index in
  let* b := must_skip range index' in
  if b then
    match fuel with
    | O => out_of_fuel
    | S fuel' => incr_scan fuel' range index'
    end
  else ret index'.

(** [Iterator::Iterator(const Range* range, size_t index)]. *)
Definition Iterator_ctor (range : addr) (index : Z) : M memory Iterator :=
  let* r := load_range range in
  let* i := ctor_scan (Z.to_nat (end_ r)) range index in
  ret (mkIterator range (ctx_ r) i).

(** [Iterator& Iterator::operator++()]; the iterator is a value, the updated
    one is returned. *)
Definition Iterator_incr (it : Iterator) : M memory Iterator :=
  let* r := load_range (range_ it) in
  let* i := incr_scan (Z.to_nat (end_ r)) (range_ it) (index_ it) in
  ret (mkIterator (range_ it) (it_ctx_ it) i).

(** [bool Iterator::operator==(Iterator other) const]. *)
Definition Iterator_eq (it other : Iterator) : M memory bool :=
  let* r := load_range (range_ it) in
  let* ro := load_range (range_ other) in
  let* _ := assert (bool_decide (ctx_ r = ctx_ ro)) in
  ret (index_ it =? index_ other).

(** [bool Iterator::operator!=(Iterator other) const]. *)
Definition Iterator_ne (it other : Iterator) : M memory bool :=
  let* r := load_range (range_ it) in
  let* ro := load_range (range_ other) in
  let* _ := assert (bool_decide (ctx_ r = ctx_ ro)) in
  ret (negb (index_ it =? index_ other)).

(** [KeyContext& Iterator::operator*()]. *)
Definition Iterator_deref (it : Iterator) : M memory KeyContext :=
  let* r := load_range (range_ it) in
  let* _ := assert ((index_ it <? end_ r) && (start_ r <=? index_ it)) in
  let* c := load_ctx (it_ctx_ it) in
  match sorted_keys_ c !! Z.to_nat (index_ it) with
  | Some kc => ret kc
  | None => undefined (IndexOutOfRange (index_ it))
  end.

(** [Range::Range(const Range& mget_range, const Iterator& first,
                  const Iterator& last)], building the object at [this]. *)
Definition Range_sub (this mget_range : addr) (first last : Iterator) : M memory unit :=
  let* p := load_range mget_range in
  store_range this (mkRange (ctx_ p) (index_ first) (index_ last) (skip_mask_ p)).

(** [Range::Range(MultiGetContext* ctx, size_t num_keys)] (private). *)
Definition Range_ctor (this ctx : addr) (num_keys : Z) : M memory unit :=
  store_range this (mkRange ctx 0 num_keys 0).

(** [Range MultiGetContext::GetMultiGetRange()]; the returned object is
    placed at [dst]. *)
Definition GetMultiGetRange (this dst : addr) : M memory unit :=
  let* c := load_ctx this in
  Range_ctor dst this (num_keys_ c).

(** [Iterator Range::begin() const] and [Iterator Range::end() const]. *)
Definition Range_begin (this : addr) : M memory Iterator :=
  let* r := load_range this in
  Iterator_ctor this (start_ r).

Definition Range_end (this : addr) : M memory Iterator :=
  let* r := load_range this in
  Iterator_ctor this (end_ r).

(** [bool Range::empty()]. *)
Definition Range_empty (this : addr) : M memory bool :=
  let* r := load_range this in
  let* hi := lift (shl64 1 (end_ r)) in
  let* lo := lift (shl64 1 (start_ r)) in
  let* c := load_ctx (ctx_ r) in
  ret (Z.land (Z.land (Z.land (pred64 hi) (not64 (pred64 lo)))
                      (not64 (value_mask_ c)))
              (not64 (skip_mask_ r)) =? 0).

(** [void Range::SkipKey(const Iterator& iter)]. *)
Definition SkipKey (this : addr) (iter : Iterator) : M memory unit :=
  let* r := load_range this in
  let* bit := lift (shl64 1 (index_ iter)) in
  store_range this (mkRange (ctx_ r) (start_ r) (end_ r) (Z.lor (skip_mask_ r) bit)).

(** [void Range::MarkKeyDone(Iterator& iter)]. *)
Definition MarkKeyDone (this : addr) (iter : Iterator) : M memory unit :=
  let* r := load_range this in
  let* c := load_ctx (ctx_ r) in
  let* bit := lift (shl64 1 (index_ iter)) in
  store_ctx (ctx_ r) (set_value_mask c (Z.lor (value_mask_ c) bit)).

(** [bool Range::CheckKeyDone(Iterator& iter)]. *)
Definition CheckKeyDone (this : addr) (iter : Iterator) : M memory bool :=
  let* r := load_range this in
  let* c := load_ctx (ctx_ r) in
  let* bit := lift (shl64 1 (index_ iter)) in
  ret (to_bool (Z.land (value_mask_ c) bit)).

(** The loop [for (auto it = r.begin(); it != r.end(); ++it) body(it);]
    over the range at [this], from the iterator [it] on.  The positions at
    which [body] ran are returned, in the order of the visits. *)
Fixpoint for_each (fuel : nat) (this : addr) (body : Iterator -> M memory unit)
    (it : Iterator) : M memory (list Z) :=
  let* e := Range_end this in
  let* go := Iterator_ne it e in
  if go then
    match fuel with
    | O => out_of_fuel
    | S fuel' =>
        let* _ := body it in
        let* it' := Iterator_incr it in
        let* rest := for_each fuel' this body it' in
        ret (index_ it :: rest)
    end
  else ret [].

Definition iterate (this : addr) (body : Iterator -> M memory unit) : M memory (list Z) :=
  let* r := load_range this in
  let* b := Range_begin this in
  for_each (Z.to_nat (end_ r - start_ r)) this body b.

(** A loop body that only looks. *)
Definition no_body : Iterator -> M memory unit := fun _ => ret tt.

(** *** Vocabulary of the specification *)

(** Position [i] is out of play for the range [r] over the context [c]: its
    bit is set in [value_mask_ | skip_mask_]. *)
Definition blocked (c : MultiGetContext) (r : Range) (i : Z) : bool :=
  Z.testbit (Z.lor (value_mask_ c) (skip_mask_ r)) i.

(** The specification's reading of a traversal: go through the positions one
    by one, look at the two masks as they are when the position is reached,
    and run the body on the positions whose bit is clear. *)
Fixpoint spec_iterate (positions : list Z) (this : addr)
    (body : Iterator -> M memory unit) : M memory (list Z) :=
  match positions with
  | [] => ret []
  | p :: ps =>
      let* r := load_range this in
      let* c := load_ctx (ctx_ r) in
      if blocked c r p then spec_iterate ps this body
      else
        let* _ := body (mkIterator this (ctx_ r) p) in
        let* rest := spec_iterate ps this body in
        ret (p :: rest)
  end.

(** The store still holds, at [this], a range over the context and with the
    bounds of [r]; only masks may have moved. *)
Definition same_window (this : addr) (r : Range) (m : memory) : Prop :=
  exists r' c',
    ranges m !! this = Some r' /\ ctx_ r' = ctx_ r /\
    start_ r' = start_ r /\ end_ r' = end_ r /\
    contexts m !! ctx_ r = Some c'.

Definition keeps_window (this : addr) (r : Range)
    (body : Iterator -> M memory unit) : Prop :=
  forall it m m',
    same_window this r m -> body it m = Returns (tt, m') -> same_window this r m'.

(** The calls a client can make on contexts, ranges and iterators. *)
Inductive call : Type :=
| CallGetMultiGetRange (ctx dst : addr)
| CallRangeSub (this mget_range : addr) (first last : Iterator)
| CallBegin (this : addr)
| CallEnd (this : addr)
| CallEmpty (this : addr)
| CallSkipKey (this : addr) (iter : Iterator)
| CallMarkKeyDone (this : addr) (iter : Iterator)
| CallCheckKeyDone (this : addr) (iter : Iterator)
| CallIterator (range : addr) (index : Z)
| CallIncr (it : Iterator)
| CallEq (it other : Iterator)
| CallNe (it other : Iterator)
| CallDeref (it : Iterator).

Definition discard {A} (c : M memory A) : M memory unit :=
  let* _ := c in ret tt.

Definition exec (c : call) : M memory unit :=
  match c with
  | CallGetMultiGetRange ctx dst => GetMultiGetRange ctx dst
  | CallRangeSub this p first last => Range_sub this p first last
  | CallBegin this => discard (Range_begin this)
  | CallEnd this => discard (Range_end this)
  | CallEmpty this => discard (Range_empty this)
  | CallSkipKey this iter => SkipKey this iter
  | CallMarkKeyDone this iter => MarkKeyDone this iter
  | CallCheckKeyDone this iter => discard (CheckKeyDone this iter)
  | CallIterator range index => discard (Iterator_ctor range index)
  | CallIncr it => discard (Iterator_incr it)
  | CallEq it other => discard (Iterator_eq it other)
  | CallNe it other => discard (Iterator_ne it other)
  | CallDeref it => discard (Iterator_deref it)
  end.

Fixpoint exec_all (cs : list call) : M memory unit :=
  match cs with
  | [] => ret tt
  | c :: cs' => let* _ := exec c in exec_all cs'
  end.

(** Bits of the resolved mask of the context at [p] that are set in [m] are
    set in [m']. *)
Definition resolved_kept (p : addr) (m m' : memory) : Prop :=
  forall c, contexts m !! p = Some c ->
    exists c', contexts m' !! p = Some c' /\
      forall j, Z.testbit (value_mask_ c) j = true ->
                Z.testbit (value_mask_ c') j = true.

Definition all_resolved_kept (m m' : memory) : Prop := forall p, resolved_kept p m m'.

(** A run of [c] that returns relates the store before to the store after
    by [R]. *)
Definition preserves (R : memory -> memory -> Prop) {A} (c : M memory A) : Prop :=
  forall m a m', c m = Returns (a, m') -> R m m'.

(** Two stores that hold the same contexts and the same range at [b]. *)
Definition agree (b : addr) (m1 m2 : memory) : Prop :=
  contexts m1 = contexts m2 /\ ranges m1 !! b = ranges m2 !! b.

Definition alike (b : addr) {A} (o1 o2 : outcome (A * memory)) : Prop :=
  match o1, o2 with
  | Returns (v1, m1), Returns (v2, m2) => v1 = v2 /\ agree b m1 m2
  | AssertFails, AssertFails => True
  | Undefined u1, Undefined u2 => u1 = u2
  | OutOfFuel, OutOfFuel => True
  | _, _ => False
  end.

(** [c] looks at nothing but the contexts and the range at [b]. *)
Definition agrees (b : addr) {A} (c : M memory A) : Prop :=
  forall m1 m2, agree b m1 m2 -> alike b (c m1) (c m2).

(** Every context of the store respects the documented batch limit. *)
Definition within_stack_bound (m : memory) : Prop :=
  forall p c, contexts m !! p = Some c -> 0 <= num_keys_ c <= MAX_KEYS_ON_STACK.

(** A range is a window [0 <= start <= end <= num_keys] of a live context. *)
Definition range_ok (m : memory) (r : Range) : Prop :=
  exists c, contexts m !! ctx_ r = Some c /\
    0 <= start_ r /\ start_ r <= end_ r /\ end_ r <= num_keys_ c.

Definition ranges_ok (m : memory) : Prop :=
  forall a r, ranges m !! a = Some r -> range_ok m r.

(** An iterator stands at a position of its range, the end included. *)
Definition iter_ok (m : memory) (it : Iterator) : Prop :=
  exists r, ranges m !! range_ it = Some r /\ 0 <= index_ it <= end_ r.

(** [j] is where a scan that starts at [i] stops: everything from [i] up to
    [j] is below [hi] and blocked, and [j] itself is not. *)
Definition stops_at (blk : Z -> bool) (hi i j : Z) : Prop :=
  i <= j /\
  (forall k, i <= k < j -> k < hi /\ blk k = true) /\
  (j < hi -> blk j = false).

(** *** A small batch, used to exercise the statements

    Three keys [a], [b], [c] at read point 7; the context sits at address 1,
    its full range at address 10 and a copy of that range at address 11. *)
Definition example_keys : list KeyContext :=
  map KeyContext_new [ [Byte.x61]; [Byte.x62]; [Byte.x63] ].

Definition example_ctx : MultiGetContext :=
  match MultiGetContext_ctor example_keys 3 7 with
  | Returns c => c
  | _ => mkMultiGetContext [] [] 0 0 InlineBuf
  end.

Definition example_range : Range := mkRange 1 0 3 0.

Definition example_memory : memory :=
  mkMemory {[ 1%positive := example_ctx ]}
           {[ 10%positive := example_range; 11%positive := example_range ]}.

Definition example_iterator : Iterator := mkIterator 10 1 1.

End MultiGet.

(** ** The asynchronous read coordinator ([AsyncFileReader]) *)

Module AsyncReader.

Abbreviation addr := positive.

(** Opaque values handed out by the file system: an I/O handle ([void*]) and
    the function that releases it ([IOHandleDeleter]).  A null pointer or an
    empty function is [None]. *)
Definition io_handle : Type := positive.
Definition deleter : Type := positive.
Definition coroutine : Type := positive.

(** [FSReadRequest], as far as the coordinator looks at it. *)
Record FSReadRequest : Type := mkFSReadRequest {
  offset : Z;
  len : Z }.

(** The file's [ReadAsync], seen from the coordinator: for a request it may
    fill in the handle and the deleter behind the two out-pointers. *)
Definition RandomAccessFileReader : Type :=
  FSReadRequest -> option io_handle * option deleter.

(** Histogram types named by [Wait]. *)
Inductive histogram : Type := POLL_WAIT_MICROS | MULTIGET_IO_BATCH_SIZE.

(** What the coordinator does to the outside world, in order.  The time a
    [StopWatch] measures is not part of the model. *)
Inductive event : Type :=
| EvReadAsync (awaiter : addr) (i : Z) (req : FSReadRequest)
| EvPoll (handles : list io_handle) (n : Z)
| EvDelete (fn : deleter) (h : io_handle)
| EvResume (awaiter : addr) (c : coroutine)
| EvHistogram (ty : histogram) (v : Z).

Module Awaiter.
(** [struct ReadAwaiter]: the fields [async_file_reader.cc] uses. *)
Record ReadAwaiter : Type := mkReadAwaiter {
  file_ : RandomAccessFileReader;
  read_reqs_ : list FSReadRequest;
  num_reqs_ : Z;
  io_handle_ : list (option io_handle);
  del_fn_ : list (option deleter);
  awaiting_coro_ : coroutine;
  next_ : option addr }.
End Awaiter.
Import Awaiter.
Abbreviation ReadAwaiter := Awaiter.ReadAwaiter.

(** Modelled from the spec: the constructor of [ReadAwaiter] lives in
    [util/async_file_reader.h], which is not among the sources.  A waiter
    starts with the requests it was given, no handle, no cleanup function
    and no successor. *)
Definition ReadAwaiter_new (file : RandomAccessFileReader) (reqs : list FSReadRequest)
    (num_reqs : Z) (coro : coroutine) : ReadAwaiter :=
  mkReadAwaiter file reqs num_reqs [] [] coro None.

(** [class AsyncFileReader]: the list ends and the request counter. *)
Record AsyncFileReader : Type := mkAsyncFileReader {
  head_ : option addr;
  tail_ : option addr;
  num_reqs_ : Z }.

(** Modelled from the spec: the constructor of [AsyncFileReader] lives in
    [util/async_file_reader.h], which is not among the sources.  The spec
    says the coordinator starts empty. *)
Definition AsyncFileReader_new : AsyncFileReader := mkAsyncFileReader None None 0.

Record world : Type := mkWorld {
  awaiters : gmap addr ReadAwaiter;
  reader : AsyncFileReader;
  trace : list event }.

Definition load (p : addr) : M world ReadAwaiter :=
  fun w => match awaiters w !! p with
           | Some a => Returns (a, w)
           | None => Undefined BadPointer
           end.

Definition store (p : addr) (a : ReadAwaiter) : M world unit :=
  fun w => Returns (tt, mkWorld (<[p := a]> (awaiters w)) (reader w) (trace w)).

Definition this_reader : M world AsyncFileReader :=
  fun w => Returns (reader w, w).

Definition set_reader (r : AsyncFileReader) : M world unit :=
  fun w => Returns (tt, mkWorld (awaiters w) r (trace w)).

Definition emit (e : event) : M world unit :=
  fun w => Returns (tt, mkWorld (awaiters w) (reader w) (trace w ++ [e])).

(** [std::vector]: [v.resize(n)], [v.push_back(x)], [v[i]] and [v[i] = x]. *)
Definition resize {A} (n : Z) (l : list (option A)) : list (option A) :=
  take (Z.to_nat n) l ++ replicate (Z.to_nat n - length l)%nat None.

Definition push_back {A} (l : list A) (x : A) : list A := l ++ [x].

Definition at_index {S A} (l : list A) (i : Z) : M S A :=
  match l !! Z.to_nat i with
  | Some x => ret x
  | None => undefined (IndexOutOfRange i)
  end.

Definition set_index {S A} (l : list A) (i : Z) (x : A) : M S (list A) :=
  if (Z.to_nat i <? length l)%nat then ret (<[Z.to_nat i := x]> l)
  else undefined (IndexOutOfRange i).

(** [for (size_t i = from; i < from + n; ++i) body(i);] for a body that
    leaves the bounds alone. *)
Fixpoint for_loop {S} (n : nat) (i : Z) (body : Z -> M S unit) : M S unit :=
  match n with
  | O => ret tt
  | S n' => let* _ := body i in for_loop n' (i + 1) body
  end.

(** What [ReadAsync] leaves behind an out-pointer: the value if it produced
    one, else the slot as it was. *)
Definition write_back {S A} (l : list (option A)) (i : Z) (x : option A)
  : M S (list (option A)) :=
  match x with
  | Some _ => set_index l i x
  | None => let* _ := at_index l i in ret l
  end.

(** One turn of the loop of [MultiReadAsyncImpl].  The status [ReadAsync]
    returns is dropped, as in the source.  The completion callback, which
    copies status and result into the request once the file has served it,
    runs on the file's side and is not part of the model. *)
Definition submit_request (awaiter : addr) (i : Z) : M world unit :=
  let* a := load awaiter in
  let* _ := store awaiter
    (mkReadAwaiter (file_ a) (read_reqs_ a) (Awaiter.num_reqs_ a)
       (push_back (io_handle_ a) None) (del_fn_ a) (awaiting_coro_ a) (next_ a)) in
  let* a := load awaiter in
  let* _ := store awaiter
    (mkReadAwaiter (file_ a) (read_reqs_ a) (Awaiter.num_reqs_ a)
       (io_handle_ a) (push_back (del_fn_ a) None) (awaiting_coro_ a) (next_ a)) in
  let* a := load awaiter in
  let* req := at_index (read_reqs_ a) i in
  let* _ := emit (EvReadAsync awaiter i req) in
  let* hs := write_back (io_handle_ a) i (fst (file_ a req)) in
  let* ds := write_back (del_fn_ a) i (snd (file_ a req)) in
  store awaiter
    (mkReadAwaiter (file_ a) (read_reqs_ a) (Awaiter.num_reqs_ a)
       hs ds (awaiting_coro_ a) (next_ a)).

(** [bool AsyncFileReader::MultiReadAsyncImpl(ReadAwaiter* awaiter)]. *)
Definition MultiReadAsyncImpl (awaiter : addr) : M world bool :=
  let* rd := this_reader in
  let* _ := match tail_ rd with
            | Some t =>
                let* ta := load t in
                store t (mkReadAwaiter (file_ ta) (read_reqs_ ta) (Awaiter.num_reqs_ ta)
                           (io_handle_ ta) (del_fn_ ta) (awaiting_coro_ ta) (Some awaiter))
            | None => ret tt
            end in
  let* _ := set_reader (mkAsyncFileReader (head_ rd) (Some awaiter) (num_reqs_ rd)) in
  let* rd := this_reader in
  let* _ := match head_ rd with
            | None => set_reader (mkAsyncFileReader (Some awaiter) (tail_ rd) (num_reqs_ rd))
            | Some _ => ret tt
            end in
  let* a := load awaiter in
  let* rd := this_reader in
  let* _ := set_reader (mkAsyncFileReader (head_ rd) (tail_ rd)
                          (wrap64 (num_reqs_ rd + Awaiter.num_reqs_ a))) in
  let* _ := store awaiter
    (mkReadAwaiter (file_ a) (read_reqs_ a) (Awaiter.num_reqs_ a)
       (resize (Awaiter.num_reqs_ a) (io_handle_ a)) (del_fn_ a)
       (awaiting_coro_ a) (next_ a)) in
  let* a := load awaiter in
  let* _ := store awaiter
    (mkReadAwaiter (file_ a) (read_reqs_ a) (Awaiter.num_reqs_ a)
       (io_handle_ a) (resize (Awaiter.num_reqs_ a) (del_fn_ a))
       (awaiting_coro_ a) (next_ a)) in
  let* _ := for_loop (Z.to_nat (Awaiter.num_reqs_ a)) 0 (submit_request awaiter) in
  ret true.

(** The inner loop of the first half of [Wait]: the non-null handles of one
    waiter, appended to [acc]. *)
Fixpoint gather_handles (n : nat) (i : Z) (a : ReadAwaiter) (acc : list io_handle)
  : M world (list io_handle) :=
  match n with
  | O => ret acc
  | S n' =>
      let* h := at_index (io_handle_ a) i in
      gather_handles n' (i + 1) a
        (match h with Some x => push_back acc x | None => acc end)
  end.

(** [do { ... } while (waiter != tail_ && (waiter = waiter->next_));] *)
Fixpoint collect_loop (fuel : nat) (waiter : addr) (io_handles : list io_handle)
  : M world (list io_handle) :=
  let* a := load waiter in
  let* io_handles := gather_handles (Z.to_nat (Awaiter.num_reqs_ a)) 0 a io_handles in
  let* rd := this_reader in
  if bool_decide (Some waiter <> tail_ rd) then
    match next_ a with
    | Some n =>
        match fuel with
        | O => out_of_fuel
        | S fuel' => collect_loop fuel' n io_handles
        end
    | None => ret io_handles
    end
  else ret io_handles.

(** The cleanup of one request:
    [if (io_handle_[i] && del_fn_[i]) del_fn_[i](io_handle_[i]);] *)
Definition cleanup_request (a : ReadAwaiter) (i : Z) : M world unit :=
  let* h := at_index (io_handle_ a) i in
  match h with
  | Some x =>
      let* d := at_index (del_fn_ a) i in
      match d with
      | Some f => emit (EvDelete f x)
      | None => ret tt
      end
  | None => ret tt
  end.

(** [do { waiter = head_; head_ = waiter->next_; ...; resume } while
    (waiter != tail_);]  Resuming a flow is recorded as an event: under the
    cooperative contract the resumed flow does not call back into the
    coordinator before [Wait] is over. *)
Fixpoint resume_loop (fuel : nat) : M world unit :=
  let* rd := this_reader in
  match head_ rd with
  | None => undefined BadPointer
  | Some waiter =>
      let* a := load waiter in
      let* _ := set_reader (mkAsyncFileReader (next_ a) (tail_ rd) (num_reqs_ rd)) in
      let* _ := for_loop (Z.to_nat (Awaiter.num_reqs_ a)) 0 (cleanup_request a) in
      let* _ := emit (EvResume waiter (awaiting_coro_ a)) in
      let* rd := this_reader in
      if bool_decide (Some waiter <> tail_ rd) then
        match fuel with
        | O => out_of_fuel
        | S fuel' => resume_loop fuel'
        end
      else ret tt
  end.

(** [void AsyncFileReader::Wait()].  Each of the two loops visits a waiter
    per turn; the store bounds the number of turns of a list that ends. *)
Definition Wait : M world unit :=
  let* rd := this_reader in
  match head_ rd with
  | None => ret tt
  | Some h =>
      let* w := get in
      let fuel := size (awaiters w) in
      let* io_handles := collect_loop fuel h [] in
      let* _ := if (0 <? length io_handles)%nat
                then emit (EvPoll io_handles (Z.of_nat (length io_handles)))
                else ret tt in
      let* _ := resume_loop fuel in
      let* rd := this_reader in
      let* _ := set_reader (mkAsyncFileReader None None (num_reqs_ rd)) in
      let* rd := this_reader in
      let* _ := emit (EvHistogram MULTIGET_IO_BATCH_SIZE (num_reqs_ rd)) in
      let* rd := this_reader in
      set_reader (mkAsyncFileReader (head_ rd) (tail_ rd) 0)
  end.

(** *** Vocabulary of the specification *)

(** The addresses [l], in order, are the list that starts at the first of
    them, follows the [next_] links and ends at [t]; [t] is met only at the
    end. *)
Fixpoint linked (ws : gmap addr ReadAwaiter) (l : list addr) (t : addr) : Prop :=
  match l with
  | [] => False
  | a :: l' =>
      match l' with
      | [] => t = a /\ is_Some (ws !! a)
      | b :: _ =>
          a <> t /\ (exists aw, ws !! a = Some aw /\ next_ aw = Some b) /\
          linked ws l' t
      end
  end.

(** A waiter has a handle slot and a cleanup slot for each of its requests. *)
Definition slots_ok (aw : ReadAwaiter) : Prop :=
  0 <= Awaiter.num_reqs_ aw /\
  (Z.to_nat (Awaiter.num_reqs_ aw) <= length (io_handle_ aw))%nat /\
  (Z.to_nat (Awaiter.num_reqs_ aw) <= length (del_fn_ aw))%nat.

Definition reqs_at (ws : gmap addr ReadAwaiter) (a : addr) : Z :=
  match ws !! a with
  | Some aw => Awaiter.num_reqs_ aw
  | None => 0
  end.

Definition total_reqs (ws : gmap addr ReadAwaiter) (l : list addr) : Z :=
  foldr (fun a acc => reqs_at ws a + acc) 0 l.

(** The coordinator holds exactly the waiters [l], oldest first. *)
Definition pending (w : world) (l : list addr) : Prop :=
  match l with
  | [] => head_ (reader w) = None /\ tail_ (reader w) = None
  | a :: _ =>
      head_ (reader w) = Some a /\
      exists t, tail_ (reader w) = Some t /\ linked (awaiters w) l t
  end /\
  NoDup l /\
  (forall a, a ∈ l -> exists aw, awaiters w !! a = Some aw /\ slots_ok aw) /\
  num_reqs_ (reader w) = wrap64 (total_reqs (awaiters w) l).

(** The non-null handles among the first [num_reqs_] slots of a waiter. *)
Definition handles_of (aw : ReadAwaiter) : list io_handle :=
  omap id (take (Z.to_nat (Awaiter.num_reqs_ aw)) (io_handle_ aw)).

Definition cleanup_event (hd : option io_handle * option deleter) : option event :=
  match hd with
  | (Some x, Some f) => Some (EvDelete f x)
  | _ => None
  end.

(** The cleanup calls of a waiter: one per request that has both a handle
    and a cleanup function, in the order of the requests. *)
Definition cleanup_of (aw : ReadAwaiter) : list event :=
  omap cleanup_event
    (zip (take (Z.to_nat (Awaiter.num_reqs_ aw)) (io_handle_ aw))
         (take (Z.to_nat (Awaiter.num_reqs_ aw)) (del_fn_ aw))).

Definition handles_at (ws : gmap addr ReadAwaiter) (a : addr) : list io_handle :=
  match ws !! a with
  | Some aw => handles_of aw
  | None => []
  end.

Definition resumed_at (ws : gmap addr ReadAwaiter) (a : addr) : list event :=
  match ws !! a with
  | Some aw => cleanup_of aw ++ [EvResume a (awaiting_coro_ aw)]
  | None => []
  end.

(** The combined poll: one call over all handles, or none when there is no
    handle. *)
Definition poll_of (hs : list io_handle) : list event :=
  if (0 <? length hs)%nat then [EvPoll hs (Z.of_nat (length hs))] else [].

(** Everything a drain of the waiters [l] does, in order. *)
Definition drained (ws : gmap addr ReadAwaiter) (l : list addr) (total : Z) : list event :=
  poll_of (concat (map (handles_at ws) l)) ++
  concat (map (resumed_at ws) l) ++
  [EvHistogram MULTIGET_IO_BATCH_SIZE total].

Definition is_poll (e : event) : bool :=
  match e with
  | EvPoll _ _ => true
  | _ => false
  end.

Definition poll_count (tr : list event) : nat := length (List.filter is_poll tr).

(** What [push_back(nullptr)] followed by a [ReadAsync] that answers [x]
    behind slot [i] makes of a vector, and [n] such turns from slot [i] on,
    the answer for slot [j] being [x j]. *)
Definition written {A} (l : list (option A)) (i : nat) (x : option A) : list (option A) :=
  match x with
  | Some _ => <[i := x]> l
  | None => l
  end.

Fixpoint fill {A} (x : nat -> option A) (l : list (option A)) (i n : nat)
  : list (option A) :=
  match n with
  | O => l
  | S n' => fill x (written (l ++ [None]) i (x i)) (S i) n'
  end.

Definition handle_from (aw : ReadAwaiter) (j : nat) : option io_handle :=
  match read_reqs_ aw !! j with
  | Some req => fst (file_ aw req)
  | None => None
  end.

Definition deleter_from (aw : ReadAwaiter) (j : nat) : option deleter :=
  match read_reqs_ aw !! j with
  | Some req => snd (file_ aw req)
  | None => None
  end.

Definition submissions (p : addr) (aw : ReadAwaiter) (i : Z) (n : nat) : list event :=
  omap (fun j => match read_reqs_ aw !! Z.to_nat j with
                 | Some req => Some (EvReadAsync p j req)
                 | None => None
                 end) (seqZ i (Z.of_nat n)).

(** The waiter at [p] as [MultiReadAsyncImpl] leaves it. *)
Definition enqueued (aw : ReadAwaiter) : ReadAwaiter :=
  let k := Z.to_nat (Awaiter.num_reqs_ aw) in
  mkReadAwaiter (file_ aw) (read_reqs_ aw) (Awaiter.num_reqs_ aw)
    (fill (handle_from aw) (resize (Awaiter.num_reqs_ aw) (io_handle_ aw)) 0 k)
    (fill (deleter_from aw) (resize (Awaiter.num_reqs_ aw) (del_fn_ aw)) 0 k)
    (awaiting_coro_ aw) (next_ aw).

Definition with_next (aw : ReadAwaiter) (n : option addr) : ReadAwaiter :=
  mkReadAwaiter (file_ aw) (read_reqs_ aw) (Awaiter.num_reqs_ aw)
    (io_handle_ aw) (del_fn_ aw) (awaiting_coro_ aw) n.

Definition with_slots (aw : ReadAwaiter) (hs : list (option io_handle))
    (ds : list (option deleter)) : ReadAwaiter :=
  mkReadAwaiter (file_ aw) (read_reqs_ aw) (Awaiter.num_reqs_ aw) hs ds
    (awaiting_coro_ aw) (next_ aw).

(** The store once the old tail, if there is one, points at [p]. *)
Definition relinked (ws : gmap addr ReadAwaiter) (rd : AsyncFileReader) (p : addr)
  : gmap addr ReadAwaiter :=
  match tail_ rd with
  | Some t =>
      match ws !! t with
      | Some ta => <[t := with_next ta (Some p)]> ws
      | None => ws
      end
  | None => ws
  end.

(** The world [MultiReadAsyncImpl(p)] leads to, [aw] being the waiter at
    [p] before the call. *)
Definition after_enqueue (w : world) (p : addr) (aw : ReadAwaiter) : world :=
  mkWorld
    (<[p := enqueued aw]> (relinked (awaiters w) (reader w) p))
    (mkAsyncFileReader
       (match head_ (reader w) with Some h => Some h | None => Some p end)
       (Some p)
       (wrap64 (num_reqs_ (reader w) + Awaiter.num_reqs_ aw)))
    (trace w ++ submissions p aw 0 (Z.to_nat (Awaiter.num_reqs_ aw))).

(** *** Two small runs, used to exercise the statements

    Flow A (address 1) reads two blocks, flow B (address 2) three; the file
    hands out the offset as handle and 7 as cleanup function.  The silent
    file hands out nothing. *)
Definition example_file : RandomAccessFileReader :=
  fun req => (Some (Z.to_pos (offset req)), Some 7%positive).

Definition silent_file : RandomAccessFileReader := fun _ => (None, None).

Definition example_start : world :=
  mkWorld
    {[ 1%positive := ReadAwaiter_new example_file
                       [mkFSReadRequest 10 1; mkFSReadRequest 11 1] 2 100%positive;
       2%positive := ReadAwaiter_new example_file
                       [mkFSReadRequest 20 1; mkFSReadRequest 21 1; mkFSReadRequest 22 1]
                       3 200%positive ]}
    AsyncFileReader_new [].

Definition final_world {A} (o : outcome (A * world)) (otherwise : world) : world :=
  match o with
  | Returns (_, w) => w
  | _ => otherwise
  end.

(** Both flows enqueued. *)
Definition example_enqueued : world :=
  final_world
    ((let* _ := MultiReadAsyncImpl 1 in MultiReadAsyncImpl 2) example_start)
    example_start.

Definition silent_start : world :=
  mkWorld
    {[ 1%positive := ReadAwaiter_new silent_file [mkFSReadRequest 10 1] 1 100%positive ]}
    AsyncFileReader_new [].

Definition silent_enqueued : world :=
  final_world (MultiReadAsyncImpl 1 silent_start) silent_start.

End AsyncReader.

(** ** More of the batch context: dereferencing, the wrapper, usage patterns *)

Module MultiGetUse.
Import MultiGet.

(** [IteratorWrapper<T>::operator*()] and [operator->()]: the entry of the
    shadowed vector at the iterator's position, [vector_[iter_.index_]]. *)
Definition IteratorWrapper_deref {T} (iter : Iterator) (vector : list T) : M memory T :=
  match vector !! Z.to_nat (index_ iter) with
  | Some x => ret x
  | None => undefined (IndexOutOfRange (index_ iter))
  end.

(** [KeyContext* Iterator::operator->()]: same assertion and same entry as
    [operator*()]. *)
Definition Iterator_arrow (it : Iterator) : M memory KeyContext :=
  let* r := load_range (range_ it) in
  let* _ := assert ((index_ it <? end_ r) && (start_ r <=? index_ it)) in
  let* c := load_ctx (it_ctx_ it) in
  match sorted_keys_ c !! Z.to_nat (index_ it) with
  | Some kc => ret kc
  | None => undefined (IndexOutOfRange (index_ it))
  end.

(** Loop bodies of the kind the lookup stages run: look at the key, look at
    an auxiliary vector through the wrapper, mark the key done. *)
Definition deref_body : Iterator -> M memory unit :=
  fun it => discard (Iterator_deref it).

Definition wrapper_body {T} (vector : list T) : Iterator -> M memory unit :=
  fun it => discard (IteratorWrapper_deref it vector).

Definition mark_body (this : addr) : Iterator -> M memory unit :=
  fun it => MarkKeyDone this it.

(** The resolved mask once the positions [l] have been marked, in turn. *)
Definition mark_all (mask : Z) (l : list Z) : Z :=
  foldl (fun v p => Z.lor v (2 ^ p)) mask l.

(** The call builds a range object at address [a]. *)
Definition builds_at (a : addr) (c : call) : bool :=
  match c with
  | CallGetMultiGetRange _ dst => bool_decide (dst = a)
  | CallRangeSub this _ _ _ => bool_decide (this = a)
  | _ => false
  end.

(** The range at [a] is still there, over the same context and with the same
    bounds, and has lost no bit of its skip mask. *)
Definition range_kept (a : addr) (m m' : memory) : Prop :=
  forall r, ranges m !! a = Some r ->
    exists r', ranges m' !! a = Some r' /\
      ctx_ r' = ctx_ r /\ start_ r' = start_ r /\ end_ r' = end_ r /\
      forall j, Z.testbit (skip_mask_ r) j = true ->
                Z.testbit (skip_mask_ r') j = true.

(** A position lies in the window [lo, hi). *)
Definition in_window (lo hi p : Z) : Prop := lo <= p < hi.

#[global] Instance in_window_dec lo hi p : Decision (in_window lo hi p).
Proof. unfold in_window. apply _. Defined.

End MultiGetUse.

(** ** More of the coordinator: several flows, then one [Wait] *)

Module AsyncUse.
Import AsyncReader.Awaiter.
Import AsyncReader.

(** The flows at [ps] enqueue their requests, one after the other. *)
Fixpoint enqueue_all (ps : list addr) : M world unit :=
  match ps with
  | [] => ret tt
  | p :: ps' => let* _ := MultiReadAsyncImpl p in enqueue_all ps'
  end.

(** The first [num_reqs_] requests of a waiter: the ones it submits. *)
Definition requests_of (aw : ReadAwaiter) : list FSReadRequest :=
  take (Z.to_nat (Awaiter.num_reqs_ aw)) (read_reqs_ aw).

(** The submissions of a waiter, in the order of its requests. *)
Definition submitted (p : addr) (aw : ReadAwaiter) : list event :=
  zip_with (fun i req => EvReadAsync p i req)
    (seqZ 0 (Awaiter.num_reqs_ aw)) (requests_of aw).

(** The handles the file gave out for the requests of a waiter, and the
    cleanup calls they entail. *)
Definition issued (aw : ReadAwaiter) : list io_handle :=
  omap (fun req => fst (file_ aw req)) (requests_of aw).

Definition issued_cleanups (aw : ReadAwaiter) : list event :=
  omap (fun req => cleanup_event (file_ aw req)) (requests_of aw).

(** A waiter as its constructor leaves it, with requests to match its count. *)
Definition fresh (aw : ReadAwaiter) : Prop :=
  io_handle_ aw = [] /\ del_fn_ aw = [] /\
  0 <= Awaiter.num_reqs_ aw /\
  (Z.to_nat (Awaiter.num_reqs_ aw) <= length (read_reqs_ aw))%nat.

(** Two records of a waiter that differ at most in the [next_] link. *)
Definition same_slots (aw aw' : ReadAwaiter) : Prop :=
  Awaiter.num_reqs_ aw' = Awaiter.num_reqs_ aw /\
  io_handle_ aw' = io_handle_ aw /\ del_fn_ aw' = del_fn_ aw /\
  awaiting_coro_ aw' = awaiting_coro_ aw /\
  file_ aw' = file_ aw /\ read_reqs_ aw' = read_reqs_ aw.

Definition lookup_or (ws : gmap addr ReadAwaiter) (p : addr)
    (f : ReadAwaiter -> list event) : list event :=
  match ws !! p with
  | Some aw => f aw
  | None => []
  end.

(** Everything that happens when the fresh flows [ps] of the store [ws]
    enqueue and the coordinator then waits. *)
Definition round_trip (ws : gmap addr ReadAwaiter) (ps : list addr) : list event :=
  concat (map (fun p => lookup_or ws p (submitted p)) ps) ++
  match ps with
  | [] => []
  | _ :: _ =>
      poll_of (concat (map (fun p => match ws !! p with
                                     | Some aw => issued aw
                                     | None => []
                                     end) ps)) ++
      concat (map (fun p => lookup_or ws p
                              (fun aw => issued_cleanups aw ++
                                         [EvResume p (awaiting_coro_ aw)])) ps) ++
      [EvHistogram MULTIGET_IO_BATCH_SIZE (wrap64 (total_reqs ws ps))]
  end.

End AsyncUse.

(** ** MultiScanIterator: scans over several ranges through one database
       iterator ([include/rocksdb/multi_scan_iterator.h])

    The class under [#if 0] is dead code and is not modelled.  The live
    class hands out a [ScanIterator] over the scan descriptors; each
    position of it is a [Scan], whose [SingleIterator] walks the database
    iterator.  All of them hold a plain pointer to the one database
    iterator, which is therefore the state of the model.  The C++ code
    reports errors by [throw]; an outcome records what was thrown and the
    state of the database iterator at that moment. *)

Module MultiScan.

Definition Slice : Type := MultiGet.Slice.

(** What the code asks of [Status]: the default constructor, [ok()], and the
    factory [Status::InvalidArgument(msg)]. *)
Class StatusOps (Status : Type) : Type := {
  OK : Status;
  ok : Status -> bool;
  InvalidArgument : String.string -> Status }.

(** The abstract class [Iterator], as far as the code calls it: [Seek] and
    [Next] move the iterator, the others read it. *)
Class IteratorOps (Status D : Type) : Type := {
  Seek : Slice -> D -> D;
  Next : D -> D;
  Valid : D -> bool;
  key : D -> Slice;
  value : D -> Slice;
  status : D -> Status }.

(** What the code reads of a [ScanDesc]: [range.start], which it
    dereferences with [*]; [None] is a start that holds nothing. *)
Class ScanDescOps (ScanDesc : Type) : Type := {
  range_start : ScanDesc -> option Slice }.

(** [Iterator* db_iter_]: null, or the database iterator. *)
Inductive pointer : Type :=
| nullptr
| db_iterator.

(** The ways of leaving defined behaviour. *)
Inductive fault : Type :=
| NoSuchScan (i : Z)      (* [scans_[i]] with [i >= scans_.size()] *)
| NoStart (i : Z)         (* [*scans_[i].range.start] on a start that holds nothing *)
| NullIterator.           (* a call through a null [db_iter_] *)

Inductive answer (Status D A : Type) : Type :=
| Done (a : A) (d : D)
| Thrown (s : Status) (d : D)
| Fault (f : fault)
| NoFuel.

Arguments Done {Status D A} a d.
Arguments Thrown {Status D A} s d.
Arguments Fault {Status D A} f.
Arguments NoFuel {Status D A}.

Definition X (Status D A : Type) : Type := D -> answer Status D A.

Definition unit_ {Status D A} (a : A) : X Status D A := fun d => Done a d.

Definition then_ {Status D A B} (c : X Status D A) (k : A -> X Status D B)
  : X Status D B :=
  fun d =>
    match c d with
    | Done a d' => k a d'
    | Thrown s d' => Thrown s d'
    | Fault f => Fault f
    | NoFuel => NoFuel
    end.

Definition throw {Status D A} (s : Status) : X Status D A := fun d => Thrown s d.
Definition faulty {Status D A} (f : fault) : X Status D A := fun _ => Fault f.
Definition no_fuel {Status D A} : X Status D A := fun _ => NoFuel.

Notation "'do*' x := c 'in' k" := (then_ c (fun x => k))
  (at level 10, x name, c at level 10, k at level 10, right associativity,
   only parsing).
Notation "'do*' ' p := c 'in' k" := (then_ c (fun x => match x with p => k end))
  (at level 10, p pattern, c at level 10, k at level 10, right associativity,
   only parsing).

(** [db_iter->f()] for an [f] that moves the iterator, and for one that
    reads it. *)
Definition call {Status D} (p : pointer) (f : D -> D) : X Status D unit :=
  match p with
  | nullptr => faulty NullIterator
  | db_iterator => fun d => Done tt (f d)
  end.

Definition read {Status D A} (p : pointer) (f : D -> A) : X Status D A :=
  match p with
  | nullptr => faulty NullIterator
  | db_iterator => fun d => Done (f d) d
  end.

Module Single.
Record SingleIterator (Status : Type) : Type := mkSingleIterator {
  db_iter_ : pointer;
  valid_ : bool;
  status_ : Status;
  result_ : Slice * Slice }.
Arguments mkSingleIterator {Status} _ _ _ _.
Arguments db_iter_ {Status} _.
Arguments valid_ {Status} _.
Arguments status_ {Status} _.
Arguments result_ {Status} _.
End Single.
Import Single.

Module Scans.
Record Scan : Type := mkScan { db_iter_ : pointer }.
End Scans.

Record ScanIterator (Status ScanDesc : Type) : Type := mkScanIterator {
  scans_ : list ScanDesc;
  idx_ : Z;
  db_iter_ : pointer;
  status_ : Status;
  scan_ : Scans.Scan }.
Arguments mkScanIterator {Status ScanDesc} _ _ _ _ _.
Arguments scans_ {Status ScanDesc} _.
Arguments idx_ {Status ScanDesc} _.
Arguments db_iter_ {Status ScanDesc} _.
Arguments status_ {Status ScanDesc} _.
Arguments scan_ {Status ScanDesc} _.

Import String.

Section Model.
Context {Status D ScanDesc : Type}.
Context `{!StatusOps Status} `{!IteratorOps Status D} `{!ScanDescOps ScanDesc}.

(** *** [Scan::SingleIterator] *)

(** [result_] is default-constructed: two empty slices. *)
Definition no_result : Slice * Slice := ([], []).

(** [SingleIterator(Iterator* db_iter)]. *)
Definition SingleIterator_new (db_iter : pointer) : X Status D (SingleIterator Status) :=
  do* valid := read db_iter Valid in
  if valid : bool then
    do* k := read db_iter key in
    do* v := read db_iter value in
    unit_ (mkSingleIterator db_iter valid OK (k, v))
  else unit_ (mkSingleIterator db_iter valid OK no_result).

(** [SingleIterator()]. *)
Definition SingleIterator_default : SingleIterator Status :=
  mkSingleIterator nullptr false OK no_result.

(** [SingleIterator& operator++()].  When it throws, the iterator object
    it ran on is not followed any further. *)
Definition SingleIterator_incr (it : SingleIterator Status) : X Status D (SingleIterator Status) :=
  if negb (valid_ it) then
    throw (InvalidArgument "Trying to advance invalid iterator"%string)
  else
    do* _ := call (Single.db_iter_ it) Next in
    do* st := read (Single.db_iter_ it) status in
    if negb (ok st) then throw st
    else
      do* valid := read (Single.db_iter_ it) Valid in
      if valid : bool then
        do* k := read (Single.db_iter_ it) key in
        do* v := read (Single.db_iter_ it) value in
        unit_ (mkSingleIterator (Single.db_iter_ it) valid st (k, v))
      else unit_ (mkSingleIterator (Single.db_iter_ it) valid st (result_ it)).

(** [operator==] and [operator!=]: only [valid_] is compared. *)
Definition SingleIterator_eq (a b : SingleIterator Status) : bool :=
  Bool.eqb (valid_ a) (valid_ b).

Definition SingleIterator_ne (a b : SingleIterator Status) : bool :=
  negb (Bool.eqb (valid_ a) (valid_ b)).

(** [operator*()] and [operator->()]. *)
Definition SingleIterator_deref (it : SingleIterator Status) : X Status D (Slice * Slice) :=
  if negb (valid_ it) then
    throw (InvalidArgument "Trying to deref invalid iterator"%string)
  else unit_ (result_ it).

Definition SingleIterator_arrow (it : SingleIterator Status) : X Status D (Slice * Slice) :=
  if negb (valid_ it) then
    throw (InvalidArgument "Trying to deref invalid iterator"%string)
  else unit_ (result_ it).

(** *** [ScanIterator::Scan] *)

Definition Scan_new (db_iter : pointer) : Scans.Scan := Scans.mkScan db_iter.

Definition Scan_begin (sc : Scans.Scan) : X Status D (SingleIterator Status) :=
  SingleIterator_new (Scans.db_iter_ sc).

Definition Scan_end (sc : Scans.Scan) : SingleIterator Status := SingleIterator_default.

(** *** [ScanIterator] *)

(** The seek of [operator++] and of the constructor: [Seek] to the start of
    [scans_[idx]], dereferenced with [*], then [status_ = db_iter_->status()];
    the status read is returned. *)
Definition seek_scan (scans : list ScanDesc) (idx : Z) (db_iter : pointer) : X Status D Status :=
  match scans !! Z.to_nat idx with
  | None => faulty (NoSuchScan idx)
  | Some sd =>
      match range_start sd with
      | None => faulty (NoStart idx)
      | Some start =>
          do* _ := call db_iter (Seek start) in
          read db_iter status
      end
  end.

(** [ScanIterator(const std::vector<ScanDesc>& scans, Iterator* db_iter)]. *)
Definition ScanIterator_new (scans : list ScanDesc) (db_iter : pointer)
  : X Status D (ScanIterator Status ScanDesc) :=
  do* st := seek_scan scans 0 db_iter in
  if negb (ok st) then throw st
  else unit_ (mkScanIterator scans 0 db_iter st (Scan_new db_iter)).

(** [ScanIterator(const std::vector<ScanDesc>& scans)]. *)
Definition ScanIterator_last (scans : list ScanDesc) : ScanIterator Status ScanDesc :=
  mkScanIterator scans (Z.of_nat (List.length scans)) nullptr OK (Scan_new nullptr).

(** [ScanIterator& operator++()].  [idx_] is below [scans_.size()] when it
    is incremented, so the increment does not wrap. *)
Definition ScanIterator_incr (it : ScanIterator Status ScanDesc)
  : X Status D (ScanIterator Status ScanDesc) :=
  if Z.of_nat (List.length (scans_ it)) <=? idx_ it then
    throw (InvalidArgument "Index out of range"%string)
  else
    let idx := idx_ it + 1 in
    if idx <? Z.of_nat (List.length (scans_ it)) then
      do* st := seek_scan (scans_ it) idx (db_iter_ it) in
      if negb (ok st) then throw st
      else unit_ (mkScanIterator (scans_ it) idx (db_iter_ it) st (scan_ it))
    else unit_ (mkScanIterator (scans_ it) idx (db_iter_ it) (status_ it) (scan_ it)).

Definition ScanIterator_eq (a b : ScanIterator Status ScanDesc) : bool :=
  idx_ a =? idx_ b.

Definition ScanIterator_ne (a b : ScanIterator Status ScanDesc) : bool :=
  negb (idx_ a =? idx_ b).

(** [operator*()] and [operator->()]. *)
Definition ScanIterator_deref (it : ScanIterator Status ScanDesc) : Scans.Scan := scan_ it.
Definition ScanIterator_arrow (it : ScanIterator Status ScanDesc) : Scans.Scan := scan_ it.

(** *** [MultiScanIterator]

    The object owns the database iterator and the descriptors; [begin()]
    passes [db_iter_.get()], the pointer to the iterator it owns. *)
Definition begin (scans : list ScanDesc) : X Status D (ScanIterator Status ScanDesc) :=
  ScanIterator_new scans db_iterator.

Definition end_ (scans : list ScanDesc) : ScanIterator Status ScanDesc :=
  ScanIterator_last scans.

(** *** The loops of the usage comment

    [for (auto kv = scan.begin(); kv != scan.end(); ++kv) { ... *kv ... }],
    collecting the pairs seen, and around it
    [for (auto scan = iter.begin(); scan != iter.end(); ++scan)],
    collecting the pairs of each scan. *)
Fixpoint kv_loop (fuel : nat) (sc : Scans.Scan) (kv : SingleIterator Status)
    (seen : list (Slice * Slice)) : X Status D (list (Slice * Slice)) :=
  match fuel with
  | O => no_fuel
  | S fuel' =>
      if SingleIterator_ne kv (Scan_end sc) then
        do* kvpair := SingleIterator_deref kv in
        do* kv' := SingleIterator_incr kv in
        kv_loop fuel' sc kv' (seen ++ [kvpair])
      else unit_ seen
  end.

Definition for_each_kv (fuel : nat) (sc : Scans.Scan) : X Status D (list (Slice * Slice)) :=
  do* kv := Scan_begin sc in
  kv_loop fuel sc kv [].

Fixpoint scan_loop (turns fuel : nat) (scans : list ScanDesc)
    (scan : ScanIterator Status ScanDesc) (seen : list (list (Slice * Slice)))
  : X Status D (list (list (Slice * Slice))) :=
  match turns with
  | O => no_fuel
  | S turns' =>
      if ScanIterator_ne scan (end_ scans) then
        do* kvs := for_each_kv fuel (ScanIterator_deref scan) in
        do* scan' := ScanIterator_incr scan in
        scan_loop turns' fuel scans scan' (seen ++ [kvs])
      else unit_ seen
  end.

Definition for_each_scan (turns fuel : nat) (scans : list ScanDesc)
  : X Status D (list (list (Slice * Slice))) :=
  do* scan := begin scans in
  scan_loop turns fuel scans scan [].

(** *** Vocabulary of the statements *)

(** The pairs a walk of at most [n] steps sees from the database iterator
    at [d], the iterator it leaves behind, whether it ends within [n] steps
    with every status good, and the iterator at the first bad status. *)
Fixpoint rows (n : nat) (d : D) : list (Slice * Slice) :=
  if Valid d then
    (key d, value d) :: match n with
                        | O => []
                        | S n' => rows n' (Next d)
                        end
  else [].

Fixpoint run_out (n : nat) (d : D) : D :=
  if Valid d then
    match n with
    | O => d
    | S n' => run_out n' (Next d)
    end
  else d.

Fixpoint settles (n : nat) (d : D) : bool :=
  if Valid d then
    match n with
    | O => false
    | S n' => ok (status (Next d)) && settles n' (Next d)
    end
  else true.

Fixpoint breaks (n : nat) (d : D) : option D :=
  if Valid d then
    match n with
    | O => None
    | S n' => if ok (status (Next d)) then breaks n' (Next d) else Some (Next d)
    end
  else None.

(** The same for scans taken one after the other from [d]: each seeks its
    start and walks to the end of the iterator. *)
Fixpoint all_settle (n : nat) (scans : list ScanDesc) (d : D) : bool :=
  match scans with
  | [] => true
  | sd :: rest =>
      match range_start sd with
      | None => false
      | Some start =>
          ok (status (Seek start d)) && settles n (Seek start d) &&
          all_settle n rest (run_out n (Seek start d))
      end
  end.

Fixpoint all_rows (n : nat) (scans : list ScanDesc) (d : D)
  : list (list (Slice * Slice)) :=
  match scans with
  | [] => []
  | sd :: rest =>
      match range_start sd with
      | None => []
      | Some start =>
          rows n (Seek start d) :: all_rows n rest (run_out n (Seek start d))
      end
  end.

Fixpoint all_out (n : nat) (scans : list ScanDesc) (d : D) : D :=
  match scans with
  | [] => d
  | sd :: rest =>
      match range_start sd with
      | None => d
      | Some start => all_out n rest (run_out n (Seek start d))
      end
  end.

(** Two iterators taken from one scan, each advanced once, and what each
    then shows. *)
Definition two_walkers (sc : Scans.Scan) : X Status D ((Slice * Slice) * (Slice * Slice)) :=
  do* a := Scan_begin sc in
  do* b := Scan_begin sc in
  do* a' := SingleIterator_incr a in
  do* b' := SingleIterator_incr b in
  do* ra := SingleIterator_deref a' in
  do* rb := SingleIterator_deref b' in
  unit_ (ra, rb).

End Model.

(** *** A small database, used to exercise the statements

    A table of rows in key order with a cursor; [Seek] goes to the first
    row at or after the target, and the iterator reports corruption when it
    stands on the row [torn], if there is one. *)
Inductive ExStatus : Type :=
| StOK
| StInvalidArgument (msg : String.string)
| StCorruption.

#[global] Instance ExStatus_ops : StatusOps ExStatus := {
  OK := StOK;
  ok := fun s => match s with StOK => true | _ => false end;
  InvalidArgument := StInvalidArgument }.

Record Cursor : Type := mkCursor {
  table : list (Slice * Slice);
  torn : option nat;
  pos : nat }.

Fixpoint slice_ltb (a b : Slice) : bool :=
  match a, b with
  | _, [] => false
  | [], _ :: _ => true
  | x :: a', y :: b' =>
      (Byte.to_N x <? Byte.to_N y)%N ||
      ((Byte.to_N x =? Byte.to_N y)%N && slice_ltb a' b')
  end.

Fixpoint first_at_or_after (target : Slice) (l : list (Slice * Slice)) : nat :=
  match l with
  | [] => O
  | (k, _) :: l' => if slice_ltb k target then S (first_at_or_after target l') else O
  end.

Definition Cursor_status (c : Cursor) : ExStatus :=
  match torn c with
  | Some i => if (i =? pos c)%nat then StCorruption else StOK
  | None => StOK
  end.

#[global] Instance Cursor_ops : IteratorOps ExStatus Cursor := {
  Seek := fun target c => mkCursor (table c) (torn c) (first_at_or_after target (table c));
  Next := fun c => mkCursor (table c) (torn c) (S (pos c));
  Valid := fun c => (pos c <? List.length (table c))%nat && ok (Cursor_status c);
  key := fun c => match table c !! pos c with Some (k, _) => k | None => [] end;
  value := fun c => match table c !! pos c with Some (_, v) => v | None => [] end;
  status := Cursor_status }.

Record ExScan : Type := mkExScan { ex_start : option Slice }.

#[global] Instance ExScan_ops : ScanDescOps ExScan := { range_start := ex_start }.

Definition example_table : list (Slice * Slice) :=
  [([Byte.x61], [Byte.x31]); ([Byte.x62], [Byte.x32]); ([Byte.x63], [Byte.x33])].

Definition example_db : Cursor := mkCursor example_table None O.

Definition torn_db : Cursor := mkCursor example_table (Some 2%nat) O.

Definition example_scans : list ExScan :=
  [mkExScan (Some [Byte.x61]); mkExScan (Some [Byte.x63])].

End MultiScan.

(** ** Basic facts about the monad and about 64-bit masks *)

Section RunFacts.
Context {S A B : Type}.

Lemma bind_returns (c : M S A) (k : A -> M S B) s a s' :
  c s = Returns (a, s') -> bind c k s = k a s'.
Proof. intros H. unfold bind. now rewrite H. Qed.

Lemma bind_inv (c : M S A) (k : A -> M S B) s b s'' :
  bind c k s = Returns (b, s'') ->
  exists a s', c s = Returns (a, s') /\ k a s' = Returns (b, s'').
Proof.
  unfold bind. destruct (c s) as [[a s']| | |]; try discriminate.
  intros H. now exists a, s'.
Qed.

Lemma lift_returns (o : outcome A) (a : A) (s : S) :
  o = Returns a -> lift o s = Returns (a, s).
Proof. now intros ->. Qed.
End RunFacts.

Section MaskFacts.

Lemma modulus_eq : modulus = 2 ^ 64.
Proof. reflexivity. Qed.

Lemma pow2_in_range i : 0 <= i < 64 -> 0 < 2 ^ i < modulus.
Proof.
  intros Hi. rewrite modulus_eq. split.
  - apply Z.pow_pos_nonneg; lia.
  - apply Z.pow_lt_mono_r; lia.
Qed.

Lemma shl64_one i : 0 <= i < 64 -> shl64 1 i = Returns (2 ^ i).
Proof.
  intros Hi. unfold shl64, width.
  destruct (Z.leb_spec 0 i); [|lia]. destruct (Z.ltb_spec i 64) as [_|]; [|lia].
  cbn [andb]. rewrite Z.shiftl_1_l. unfold wrap64.
  rewrite Z.mod_small; [reflexivity|]. pose proof (pow2_in_range i Hi). lia.
Qed.

Lemma shl64_wide x n : 64 <= n -> shl64 x n = Undefined (ShiftTooWide n).
Proof.
  intros Hn. unfold shl64, width. destruct (Z.ltb_spec n 64); [lia|].
  now rewrite andb_false_r.
Qed.

(** A shift is defined exactly when its amount is below the width. *)
Lemma shl64_defined_iff x n : is_returns (shl64 x n) <-> 0 <= n < 64.
Proof.
  unfold shl64, width, is_returns.
  destruct (Z.leb_spec 0 n), (Z.ltb_spec n 64); cbn [andb]; split; intros H';
    try lia; try (now eauto); destruct H' as [a Ha]; discriminate.
Qed.

Lemma land_pow2 m i :
  0 <= i -> Z.land (2 ^ i) m = if Z.testbit m i then 2 ^ i else 0.
Proof.
  intros Hi. apply Z.bits_inj'. intros k Hk.
  rewrite Z.land_spec, Z.pow2_bits_eqb by assumption.
  destruct (Z.eqb_spec i k) as [->|Hne].
  - destruct (Z.testbit m k); [now rewrite Z.pow2_bits_true|now rewrite Z.bits_0].
  - destruct (Z.testbit m i); [|now rewrite Z.bits_0].
    rewrite Z.pow2_bits_false by assumption. reflexivity.
Qed.

Lemma to_bool_land_pow2 m i : 0 <= i -> to_bool (Z.land (2 ^ i) m) = Z.testbit m i.
Proof.
  intros Hi. rewrite land_pow2 by assumption. unfold to_bool.
  destruct (Z.testbit m i); [|reflexivity].
  assert (0 < 2 ^ i) by (apply Z.pow_pos_nonneg; lia).
  destruct (Z.eqb_spec (2 ^ i) 0); [lia|reflexivity].
Qed.

Lemma to_bool_land_pow2_r m i : 0 <= i -> to_bool (Z.land m (2 ^ i)) = Z.testbit m i.
Proof. intros Hi. rewrite Z.land_comm. now apply to_bool_land_pow2. Qed.

Lemma lor_pow2_bit m i k :
  0 <= i -> 0 <= k ->
  Z.testbit (Z.lor m (2 ^ i)) k = Z.testbit m k || (i =? k).
Proof. intros Hi Hk. now rewrite Z.lor_spec, Z.pow2_bits_eqb. Qed.

Lemma not64_bit x k :
  0 <= k -> Z.testbit (not64 x) k = (k <? 64) && negb (Z.testbit x k).
Proof.
  intros Hk. unfold not64, wrap64. rewrite modulus_eq.
  destruct (Z.ltb_spec k 64).
  - rewrite Z.mod_pow2_bits_low by lia. now rewrite Z.lnot_spec.
  - rewrite Z.mod_pow2_bits_high by lia. reflexivity.
Qed.

Lemma pred64_pow2 i : 0 <= i < 64 -> pred64 (2 ^ i) = Z.ones i.
Proof.
  intros Hi. unfold pred64, wrap64. rewrite Z.ones_equiv, <- Z.sub_1_r.
  apply Z.mod_small. pose proof (pow2_in_range i Hi). lia.
Qed.

Lemma succ64_small i : 0 <= i < 64 -> succ64 i = i + 1.
Proof.
  intros Hi. unfold succ64, wrap64. apply Z.mod_small. rewrite modulus_eq. lia.
Qed.

End MaskFacts.

(** ** Properties of the batch context *)

Module MultiGetFacts.
Import MultiGet.

Lemma load_range_some m a r :
  ranges m !! a = Some r -> load_range a m = Returns (r, m).
Proof. intros H. unfold load_range. now rewrite H. Qed.

Lemma load_ctx_some m p c :
  contexts m !! p = Some c -> load_ctx p m = Returns (c, m).
Proof. intros H. unfold load_ctx. now rewrite H. Qed.

(** Unfold one [bind] whose first computation is known. *)
Ltac step_with H := rewrite (bind_returns _ _ _ _ _ H); cbn beta iota.

Ltac load_steps :=
  repeat match goal with
  | H : ranges ?m !! ?a = Some ?r |- context [bind (load_range ?a) _ ?m] =>
      rewrite (bind_returns _ _ _ _ _ (load_range_some m a r H)); cbn beta iota
  | H : contexts ?m !! ?p = Some ?c |- context [bind (load_ctx ?p) _ ?m] =>
      rewrite (bind_returns _ _ _ _ _ (load_ctx_some m p c H)); cbn beta iota
  end.

(** *** The loop condition and the two scans *)

Lemma must_skip_spec m a r c i :
  ranges m !! a = Some r -> contexts m !! ctx_ r = Some c ->
  0 <= i -> end_ r <= 64 ->
  must_skip a i m = Returns ((i <? end_ r) && blocked c r i, m).
Proof.
  intros Hr Hc Hi He. unfold must_skip. load_steps.
  destruct (Z.ltb_spec i (end_ r)) as [Hlt|Hge]; [|reflexivity].
  load_steps.
  rewrite (bind_returns _ _ _ _ _ (lift_returns _ _ m (shl64_one i ltac:(lia)))).
  unfold ret, blocked. cbn. now rewrite to_bool_land_pow2.
Qed.

Lemma ctor_scan_spec m a r c :
  ranges m !! a = Some r -> contexts m !! ctx_ r = Some c -> end_ r <= 64 ->
  forall fuel i, 0 <= i -> (Z.to_nat (end_ r - i) <= fuel)%nat ->
  exists j, ctor_scan fuel a i m = Returns (j, m) /\
            stops_at (blocked c r) (end_ r) i j.
Proof.
  intros Hr Hc He. induction fuel as [|fuel IH]; intros i Hi Hfuel.
  - exists i. cbn [ctor_scan].
    rewrite (bind_returns _ _ _ _ _ (must_skip_spec m a r c i Hr Hc Hi He)).
    destruct (Z.ltb_spec i (end_ r)); [lia|]. cbn. split; [reflexivity|].
    repeat split; try lia.
  - cbn [ctor_scan].
    rewrite (bind_returns _ _ _ _ _ (must_skip_spec m a r c i Hr Hc Hi He)).
    destruct (Z.ltb_spec i (end_ r)) as [Hlt|Hge]; cbn [andb].
    + destruct (blocked c r i) eqn:Hb.
      * rewrite succ64_small by lia.
        destruct (IH (i + 1)) as (j & Hj & Hle & Hall & Hstop); [lia|lia|].
        exists j. split; [exact Hj|]. repeat split; try lia.
        -- destruct (Z.eq_dec k i) as [->|]; [assumption|]. apply Hall. lia.
        -- destruct (Z.eq_dec k i) as [->|]; [assumption|]. apply Hall. lia.
        -- assumption.
      * exists i. split; [reflexivity|]. repeat split; try lia. now intros _.
    + exists i. split; [reflexivity|]. repeat split; try lia.
Qed.

Lemma incr_scan_spec m a r c :
  ranges m !! a = Some r -> contexts m !! ctx_ r = Some c -> end_ r <= 64 ->
  forall fuel i, 0 <= i < 64 -> (Z.to_nat (end_ r - (i + 1)) <= fuel)%nat ->
  exists j, incr_scan fuel a i m = Returns (j, m) /\
            stops_at (blocked c r) (end_ r) (i + 1) j.
Proof.
  intros Hr Hc He. induction fuel as [|fuel IH]; intros i Hi Hfuel.
  - exists (i + 1). cbn [incr_scan]. rewrite succ64_small by lia.
    rewrite (bind_returns _ _ _ _ _ (must_skip_spec m a r c (i + 1) Hr Hc ltac:(lia) He)).
    destruct (Z.ltb_spec (i + 1) (end_ r)); [lia|]. cbn. split; [reflexivity|].
    repeat split; try lia.
  - cbn [incr_scan]. rewrite succ64_small by lia.
    rewrite (bind_returns _ _ _ _ _ (must_skip_spec m a r c (i + 1) Hr Hc ltac:(lia) He)).
    destruct (Z.ltb_spec (i + 1) (end_ r)) as [Hlt|Hge]; cbn [andb].
    + destruct (blocked c r (i + 1)) eqn:Hb.
      * destruct (IH (i + 1)) as (j & Hj & Hle & Hall & Hstop); [lia|lia|].
        exists j. split; [exact Hj|]. repeat split; try lia.
        -- destruct (Z.eq_dec k (i + 1)) as [->|]; [assumption|]. apply Hall. lia.
        -- destruct (Z.eq_dec k (i + 1)) as [->|]; [assumption|]. apply Hall. lia.
        -- assumption.
      * exists (i + 1). split; [reflexivity|]. repeat split; try lia. now intros _.
    + exists (i + 1). split; [reflexivity|]. repeat split; try lia.
Qed.

Lemma stops_at_le blk hi i j : stops_at blk hi i j -> i <= hi -> j <= hi.
Proof.
  intros (Hle & Hall & _) Hi.
  destruct (Z.le_gt_cases j hi) as [|Hgt]; [assumption|].
  destruct (Hall hi); lia.
Qed.

Lemma stops_at_unique blk hi i j j' :
  stops_at blk hi i j -> stops_at blk hi i j' -> i <= hi -> j = j'.
Proof.
  intros H1 H2 Hi.
  pose proof (stops_at_le _ _ _ _ H1 Hi). pose proof (stops_at_le _ _ _ _ H2 Hi).
  destruct H1 as (L1 & A1 & S1), H2 as (L2 & A2 & S2).
  destruct (Z.lt_trichotomy j j') as [Hlt|[Heq|Hgt]]; [|assumption|].
  - destruct (A2 j) as [Hjh Hjb]; [lia|]. rewrite S1 in Hjb by assumption. discriminate.
  - destruct (A1 j') as [Hjh Hjb]; [lia|]. rewrite S2 in Hjb by assumption. discriminate.
Qed.

Lemma Iterator_ctor_spec m a r c i :
  ranges m !! a = Some r -> contexts m !! ctx_ r = Some c ->
  0 <= i -> end_ r <= 64 ->
  exists j, Iterator_ctor a i m = Returns (mkIterator a (ctx_ r) j, m) /\
            stops_at (blocked c r) (end_ r) i j.
Proof.
  intros Hr Hc Hi He. unfold Iterator_ctor. load_steps.
  destruct (ctor_scan_spec m a r c Hr Hc He (Z.to_nat (end_ r)) i Hi) as (j & Hj & Hs); [lia|].
  exists j. rewrite (bind_returns _ _ _ _ _ Hj). now split.
Qed.

Lemma Iterator_incr_spec m it r c :
  ranges m !! range_ it = Some r -> contexts m !! ctx_ r = Some c ->
  0 <= index_ it < 64 -> end_ r <= 64 ->
  exists j, Iterator_incr it m = Returns (mkIterator (range_ it) (it_ctx_ it) j, m) /\
            stops_at (blocked c r) (end_ r) (index_ it + 1) j.
Proof.
  intros Hr Hc Hi He. unfold Iterator_incr. load_steps.
  destruct (incr_scan_spec m (range_ it) r c Hr Hc He (Z.to_nat (end_ r)) (index_ it) Hi)
    as (j & Hj & Hs); [lia|].
  exists j. rewrite (bind_returns _ _ _ _ _ Hj). now split.
Qed.

Lemma Range_end_spec m a r c :
  ranges m !! a = Some r -> contexts m !! ctx_ r = Some c ->
  0 <= end_ r <= 64 ->
  Range_end a m = Returns (mkIterator a (ctx_ r) (end_ r), m).
Proof.
  intros Hr Hc He. unfold Range_end. load_steps.
  destruct (Iterator_ctor_spec m a r c (end_ r) Hr Hc) as (j & Hj & Hle & Hall & _); [lia|lia|].
  rewrite Hj. f_equal. f_equal. f_equal.
  destruct (Z.eq_dec j (end_ r)) as [|Hne]; [assumption|].
  destruct (Hall (end_ r)); lia.
Qed.

Lemma Range_begin_spec m a r c :
  ranges m !! a = Some r -> contexts m !! ctx_ r = Some c ->
  0 <= start_ r -> end_ r <= 64 ->
  exists j, Range_begin a m = Returns (mkIterator a (ctx_ r) j, m) /\
            stops_at (blocked c r) (end_ r) (start_ r) j.
Proof.
  intros Hr Hc Hs He. unfold Range_begin. load_steps.
  now apply Iterator_ctor_spec.
Qed.


(** *** The traversal against its specification *)

Lemma seqZ_step i hi : i < hi -> seqZ i (hi - i) = i :: seqZ (i + 1) (hi - (i + 1)).
Proof.
  intros H. rewrite seqZ_cons by lia. f_equal. f_equal; lia.
Qed.

Lemma Iterator_ne_same m a r x y i j :
  ranges m !! a = Some r ->
  Iterator_ne (mkIterator a x i) (mkIterator a y j) m = Returns (negb (i =? j), m).
Proof.
  intros Hr. unfold Iterator_ne. cbn [range_ index_]. load_steps.
  unfold assert, bind. now rewrite bool_decide_eq_true_2.
Qed.

(** Blocked positions in front of the stopping point contribute nothing. *)
Lemma spec_iterate_skip m a r c body hi :
  ranges m !! a = Some r -> contexts m !! ctx_ r = Some c ->
  forall n i j, stops_at (blocked c r) hi i j -> j <= hi -> Z.to_nat (j - i) = n ->
  spec_iterate (seqZ i (hi - i)) a body m = spec_iterate (seqZ j (hi - j)) a body m.
Proof.
  intros Hr Hc. induction n as [|n IH]; intros i j (Hle & Hall & Hstop) Hj Hn.
  - assert (i = j) as -> by lia. reflexivity.
  - destruct (Hall i) as [Hi Hb]; [lia|].
    rewrite (seqZ_step i hi) by lia. cbn [spec_iterate]. load_steps.
    rewrite Hb. apply IH; [|lia|lia].
    split; [lia|]. split; [|assumption].
    intros k' Hk'. apply Hall. lia.
Qed.

Lemma for_each_refines a r body :
  keeps_window a r body -> 0 <= start_ r <= end_ r -> end_ r <= 64 ->
  forall n i m,
    same_window a r m -> start_ r <= i <= end_ r ->
    (Z.to_nat (end_ r - i) <= n)%nat ->
    (forall r' c', ranges m !! a = Some r' -> contexts m !! ctx_ r' = Some c' ->
                   i < end_ r -> blocked c' r' i = false) ->
    for_each n a body (mkIterator a (ctx_ r) i) m
    = spec_iterate (seqZ i (end_ r - i)) a body m.
Proof.
  intros Hkeep Hse He. induction n as [|n IH]; intros i m Hwin Hi Hfuel Hlive;
    destruct Hwin as (r' & c' & Hr' & Ectx & Estart & Eend & Hc').
  - assert (i = end_ r) as -> by lia.
    rewrite Z.sub_diag, seqZ_nil by lia. cbn [for_each spec_iterate].
    rewrite <- Ectx in Hc'.
    rewrite (bind_returns _ _ _ _ _ (Range_end_spec m a r' c' Hr' Hc' ltac:(lia))).
    rewrite (bind_returns _ _ _ _ _ (Iterator_ne_same m a r' _ _ _ _ Hr')).
    rewrite Eend, Z.eqb_refl. reflexivity.
  - cbn [for_each].
    pose proof Hc' as Hc''. rewrite <- Ectx in Hc''.
    rewrite (bind_returns _ _ _ _ _ (Range_end_spec m a r' c' Hr' Hc'' ltac:(lia))).
    rewrite (bind_returns _ _ _ _ _ (Iterator_ne_same m a r' _ _ _ _ Hr')).
    rewrite Eend.
    destruct (Z.eqb_spec i (end_ r)) as [->|Hne]; cbn [negb].
    + rewrite Z.sub_diag, seqZ_nil by lia. reflexivity.
    + rewrite (seqZ_step i (end_ r)) by lia. cbn [spec_iterate]. load_steps.
      rewrite (Hlive r' c' Hr' Hc'') by lia. rewrite Ectx.
      unfold bind at 1. unfold bind at 3.
      destruct (body (mkIterator a (ctx_ r) i) m) as [[[] m1]| | |] eqn:Hbody;
        try reflexivity.
      destruct (Hkeep _ _ _ (ex_intro _ r' (ex_intro _ c'
                  (conj Hr' (conj Ectx (conj Estart (conj Eend Hc')))))) Hbody)
        as (r1 & c1 & Hr1 & Ectx1 & Estart1 & Eend1 & Hc1).
      pose proof Hc1 as Hc1'. rewrite <- Ectx1 in Hc1'.
      destruct (Iterator_incr_spec m1 (mkIterator a (ctx_ r) i) r1 c1 Hr1 Hc1'
                  ltac:(cbn; lia) ltac:(lia)) as (j & Hincr & Hstop).
      cbn [range_ it_ctx_ index_] in Hincr, Hstop.
      rewrite (bind_returns _ _ _ _ _ Hincr).
      rewrite Eend1 in Hstop.
      pose proof (stops_at_le _ _ _ _ Hstop ltac:(lia)) as Hjle.
      cbn [index_]. unfold bind.
      rewrite (spec_iterate_skip m1 a r1 c1 body (end_ r) Hr1 Hc1'
                 (Z.to_nat (j - (i + 1))) (i + 1) j Hstop Hjle eq_refl).
      rewrite IH; [reflexivity| | | |].
      * exists r1, c1. auto.
      * destruct Hstop as (? & _). lia.
      * destruct Hstop as (? & _). lia.
      * intros r2 c2 Hr2 Hc2 Hjlt. rewrite Hr1 in Hr2. injection Hr2 as <-.
        rewrite Hc1' in Hc2. injection Hc2 as <-.
        destruct Hstop as (_ & _ & Hs). now apply Hs.
Qed.

(** The traversal of a range is the position-by-position reading of the
    specification, for every loop body that leaves the window in place. *)
Lemma iterate_refines m a r c body :
  ranges m !! a = Some r -> contexts m !! ctx_ r = Some c ->
  0 <= start_ r <= end_ r -> end_ r <= 64 ->
  keeps_window a r body ->
  iterate a body m = spec_iterate (seqZ (start_ r) (end_ r - start_ r)) a body m.
Proof.
  intros Hr Hc Hse He Hkeep. unfold iterate. load_steps.
  destruct (Range_begin_spec m a r c Hr Hc ltac:(lia) He) as (j & Hb & Hstop).
  rewrite (bind_returns _ _ _ _ _ Hb).
  pose proof (stops_at_le _ _ _ _ Hstop ltac:(lia)) as Hjle.
  rewrite (spec_iterate_skip m a r c body (end_ r) Hr Hc
             (Z.to_nat (j - start_ r)) (start_ r) j Hstop Hjle eq_refl).
  apply for_each_refines; try assumption.
  - exists r, c. auto.
  - destruct Hstop as (? & _). lia.
  - destruct Hstop as (? & _). lia.
  - intros r2 c2 Hr2 Hc2 Hjlt. rewrite Hr in Hr2. injection Hr2 as <-.
    rewrite Hc in Hc2. injection Hc2 as <-.
    destruct Hstop as (_ & _ & Hs). now apply Hs.
Qed.

(** With a body that only looks, the specification's traversal is a filter. *)
Lemma spec_iterate_no_body m a r c positions :
  ranges m !! a = Some r -> contexts m !! ctx_ r = Some c ->
  spec_iterate positions a no_body m
  = Returns (filter (fun p => blocked c r p = false) positions, m).
Proof.
  intros Hr Hc. induction positions as [|p ps IH]; [reflexivity|].
  cbn [spec_iterate]. load_steps. rewrite filter_cons.
  destruct (blocked c r p) eqn:Hb.
  - rewrite IH. destruct (decide (true = false)); [discriminate|reflexivity].
  - unfold no_body at 1. unfold bind at 1, ret at 1.
    rewrite (bind_returns _ _ _ _ _ IH).
    destruct (decide (false = false)); [reflexivity|congruence].
Qed.

Lemma keeps_window_no_body a r : keeps_window a r no_body.
Proof. intros it m m' Hw H. unfold no_body, ret in H. now injection H as <-. Qed.

Lemma iterate_no_body m a r c :
  ranges m !! a = Some r -> contexts m !! ctx_ r = Some c ->
  0 <= start_ r <= end_ r -> end_ r <= 64 ->
  iterate a no_body m
  = Returns (filter (fun p => blocked c r p = false)
               (seqZ (start_ r) (end_ r - start_ r)), m).
Proof.
  intros Hr Hc Hse He.
  rewrite (iterate_refines m a r c no_body Hr Hc Hse He (keeps_window_no_body a r)).
  now apply spec_iterate_no_body.
Qed.


(** *** Two ways of composing facts about monadic code

    [preserves R c]: a run of [c] that returns relates the store before to
    the store after by [R].  [agrees b c]: two runs of [c] from stores that
    coincide on the contexts and on the range at [b] behave alike. *)

Section Preserves.
Variable R : memory -> memory -> Prop.
Hypothesis R_refl : forall m, R m m.
Hypothesis R_trans : forall m1 m2 m3, R m1 m2 -> R m2 m3 -> R m1 m3.

Lemma preserves_ret {A} (a : A) : preserves R (ret a).
Proof. intros m a' m' H. unfold ret in H. injection H as _ <-. apply R_refl. Qed.

Lemma preserves_bind {A B} (c : M memory A) (k : A -> M memory B) :
  preserves R c -> (forall a, preserves R (k a)) -> preserves R (bind c k).
Proof.
  intros Hc Hk m b m'' H. apply bind_inv in H as (a & m' & H1 & H2).
  eapply R_trans; [eapply Hc|eapply Hk]; eassumption.
Qed.

Lemma preserves_load_range p : preserves R (load_range p).
Proof.
  intros m a m' H. unfold load_range in H. destruct (ranges m !! p); [|discriminate].
  injection H as _ <-. apply R_refl.
Qed.

Lemma preserves_load_ctx p : preserves R (load_ctx p).
Proof.
  intros m a m' H. unfold load_ctx in H. destruct (contexts m !! p); [|discriminate].
  injection H as _ <-. apply R_refl.
Qed.

Lemma preserves_lift {A} (o : outcome A) : preserves R (lift o).
Proof.
  intros m a m' H. unfold lift in H. destruct o; try discriminate.
  injection H as _ <-. apply R_refl.
Qed.

Lemma preserves_assert b : preserves R (assert b).
Proof.
  intros m a m' H. unfold assert in H. destruct b; [|discriminate].
  injection H as _ <-. apply R_refl.
Qed.

Lemma preserves_undefined {A} u : preserves R (@undefined memory A u).
Proof. intros m a m' H. discriminate. Qed.

Lemma preserves_out_of_fuel {A} : preserves R (@out_of_fuel memory A).
Proof. intros m a m' H. discriminate. Qed.

Ltac preserve :=
  repeat first
    [ apply preserves_ret | apply preserves_load_range | apply preserves_load_ctx
    | apply preserves_lift | apply preserves_assert | apply preserves_undefined
    | apply preserves_out_of_fuel
    | apply preserves_bind; [|intros ?]
    | match goal with
      | |- preserves _ (if ?b then _ else _) => destruct b
      | |- preserves _ (match ?x with _ => _ end) => destruct x
      end ].

Lemma preserves_must_skip a i : preserves R (must_skip a i).
Proof. unfold must_skip. preserve. Qed.

Lemma preserves_ctor_scan fuel a : forall i, preserves R (ctor_scan fuel a i).
Proof.
  induction fuel as [|fuel IH]; intros i; cbn [ctor_scan];
    (apply preserves_bind; [apply preserves_must_skip|intros []]); preserve.
  apply IH.
Qed.

Lemma preserves_incr_scan fuel a : forall i, preserves R (incr_scan fuel a i).
Proof.
  induction fuel as [|fuel IH]; intros i; cbn [incr_scan];
    (apply preserves_bind; [apply preserves_must_skip|intros []]); preserve.
  apply IH.
Qed.

Lemma preserves_Iterator_ctor a i : preserves R (Iterator_ctor a i).
Proof.
  unfold Iterator_ctor. apply preserves_bind; [preserve|intros r].
  apply preserves_bind; [apply preserves_ctor_scan|intros j]. preserve.
Qed.

Lemma preserves_Iterator_incr it : preserves R (Iterator_incr it).
Proof.
  unfold Iterator_incr. apply preserves_bind; [preserve|intros r].
  apply preserves_bind; [apply preserves_incr_scan|intros j]. preserve.
Qed.

Lemma preserves_Iterator_eq it other : preserves R (Iterator_eq it other).
Proof. unfold Iterator_eq. preserve. Qed.

Lemma preserves_Iterator_ne it other : preserves R (Iterator_ne it other).
Proof. unfold Iterator_ne. preserve. Qed.

Lemma preserves_Iterator_deref it : preserves R (Iterator_deref it).
Proof. unfold Iterator_deref. preserve. Qed.

Lemma preserves_Range_begin a : preserves R (Range_begin a).
Proof.
  unfold Range_begin. apply preserves_bind; [preserve|intros r].
  apply preserves_Iterator_ctor.
Qed.

Lemma preserves_Range_end a : preserves R (Range_end a).
Proof.
  unfold Range_end. apply preserves_bind; [preserve|intros r].
  apply preserves_Iterator_ctor.
Qed.

Lemma preserves_Range_empty a : preserves R (Range_empty a).
Proof. unfold Range_empty. preserve. Qed.

Lemma preserves_CheckKeyDone a it : preserves R (CheckKeyDone a it).
Proof. unfold CheckKeyDone. preserve. Qed.

Lemma preserves_discard {A} (c : M memory A) : preserves R c -> preserves R (discard c).
Proof. intros H. unfold discard. apply preserves_bind; [exact H|intros ?; apply preserves_ret]. Qed.

(** The calls that write: what [R] has to tolerate. *)
Hypothesis R_store_range :
  forall m p r, R m (mkMemory (contexts m) (<[p := r]> (ranges m))).
Hypothesis R_mark :
  forall m p c bit, contexts m !! p = Some c ->
    R m (mkMemory (<[p := set_value_mask c (Z.lor (value_mask_ c) bit)]> (contexts m))
           (ranges m)).

Lemma preserves_store_range p r : preserves R (store_range p r).
Proof. intros m a m' H. unfold store_range in H. injection H as _ <-. apply R_store_range. Qed.

Lemma preserves_MarkKeyDone a it : preserves R (MarkKeyDone a it).
Proof.
  intros m u m' H. unfold MarkKeyDone, bind, load_range, load_ctx, lift, store_ctx in H.
  destruct (ranges m !! a) as [r|]; [|discriminate].
  destruct (contexts m !! ctx_ r) as [c|] eqn:Hc; [|discriminate].
  destruct (shl64 1 (index_ it)) as [bit| | |]; try discriminate.
  injection H as _ <-. now apply R_mark.
Qed.

Lemma preserves_exec c : preserves R (exec c).
Proof.
  destruct c; cbn [exec].
  - unfold GetMultiGetRange, Range_ctor.
    apply preserves_bind; [apply preserves_load_ctx|intros ?; apply preserves_store_range].
  - unfold Range_sub.
    apply preserves_bind; [apply preserves_load_range|intros ?; apply preserves_store_range].
  - apply preserves_discard, preserves_Range_begin.
  - apply preserves_discard, preserves_Range_end.
  - apply preserves_discard, preserves_Range_empty.
  - unfold SkipKey.
    apply preserves_bind; [apply preserves_load_range|intros ?].
    apply preserves_bind; [apply preserves_lift|intros ?]. apply preserves_store_range.
  - apply preserves_MarkKeyDone.
  - apply preserves_discard, preserves_CheckKeyDone.
  - apply preserves_discard, preserves_Iterator_ctor.
  - apply preserves_discard, preserves_Iterator_incr.
  - apply preserves_discard, preserves_Iterator_eq.
  - apply preserves_discard, preserves_Iterator_ne.
  - apply preserves_discard, preserves_Iterator_deref.
Qed.

Lemma preserves_exec_all cs : preserves R (exec_all cs).
Proof.
  induction cs as [|c cs IH]; cbn [exec_all]; [apply preserves_ret|].
  apply preserves_bind; [apply preserves_exec|intros ?; apply IH].
Qed.

End Preserves.


Section Agrees.
Variable b : addr.

Lemma agree_refl m : agree b m m.
Proof. now split. Qed.

Lemma alike_value_of {A} (o1 o2 : outcome (A * memory)) :
  alike b o1 o2 -> value_of o1 = value_of o2.
Proof.
  destruct o1 as [[v1 m1]| | |], o2 as [[v2 m2]| | |]; cbn;
    try tauto; try (now intros [-> _]); try (now intros ->).
Qed.

Lemma agrees_ret {A} (a : A) : agrees b (ret a).
Proof. intros m1 m2 H. cbn. now split. Qed.

Lemma agrees_bind {A B} (c : M memory A) (k : A -> M memory B) :
  agrees b c -> (forall a, agrees b (k a)) -> agrees b (bind c k).
Proof.
  intros Hc Hk m1 m2 H. specialize (Hc m1 m2 H). unfold bind.
  destruct (c m1) as [[v1 m1']| | |], (c m2) as [[v2 m2']| | |]; cbn in Hc |- *;
    try tauto.
  destruct Hc as [-> Hc]. now apply Hk.
Qed.

Lemma agrees_bind_eq {A B} (c : M memory A) (k : A -> M memory B) :
  agrees b c -> (forall a m m', c m = Returns (a, m') -> agrees b (k a)) ->
  agrees b (bind c k).
Proof.
  intros Hc Hk m1 m2 H. specialize (Hc m1 m2 H). unfold bind.
  destruct (c m1) as [[v1 m1']| | |] eqn:E1, (c m2) as [[v2 m2']| | |];
    cbn in Hc |- *; try tauto.
  destruct Hc as [-> Hc]. eapply Hk; eassumption.
Qed.

Lemma agrees_load_range : agrees b (load_range b).
Proof.
  intros m1 m2 H. pose proof H as [_ Hr]. unfold load_range. rewrite Hr.
  destruct (ranges m2 !! b); cbn; auto.
Qed.

Lemma agrees_load_ctx p : agrees b (load_ctx p).
Proof.
  intros m1 m2 H. pose proof H as [Hc _]. unfold load_ctx. rewrite Hc.
  destruct (contexts m2 !! p); cbn; auto.
Qed.

Lemma agrees_lift {A} (o : outcome A) : agrees b (lift o).
Proof. intros m1 m2 H. destruct o; cbn; auto. Qed.

Lemma agrees_assert t : agrees b (assert t).
Proof. intros m1 m2 H. destruct t; cbn; auto. Qed.

Lemma agrees_undefined {A} u : agrees b (@undefined memory A u).
Proof. intros m1 m2 H. reflexivity. Qed.

Lemma agrees_out_of_fuel {A} : agrees b (@out_of_fuel memory A).
Proof. intros m1 m2 H. exact I. Qed.

Ltac agreeing :=
  repeat first
    [ apply agrees_ret | apply agrees_load_range | apply agrees_load_ctx
    | apply agrees_lift | apply agrees_assert | apply agrees_undefined
    | apply agrees_out_of_fuel
    | apply agrees_bind; [|intros ?]
    | match goal with
      | |- agrees _ (if ?t then _ else _) => destruct t
      | |- agrees _ (match ?x with _ => _ end) => destruct x
      end ].

Lemma agrees_must_skip i : agrees b (must_skip b i).
Proof. unfold must_skip. agreeing. Qed.

Lemma agrees_ctor_scan fuel : forall i, agrees b (ctor_scan fuel b i).
Proof.
  induction fuel as [|fuel IH]; intros i; cbn [ctor_scan];
    (apply agrees_bind; [apply agrees_must_skip|intros []]); agreeing.
  apply IH.
Qed.

Lemma agrees_incr_scan fuel : forall i, agrees b (incr_scan fuel b i).
Proof.
  induction fuel as [|fuel IH]; intros i; cbn [incr_scan];
    (apply agrees_bind; [apply agrees_must_skip|intros []]); agreeing.
  apply IH.
Qed.

Lemma agrees_Iterator_ctor i : agrees b (Iterator_ctor b i).
Proof.
  unfold Iterator_ctor. apply agrees_bind; [agreeing|intros r].
  apply agrees_bind; [apply agrees_ctor_scan|intros j]. agreeing.
Qed.

Lemma agrees_Iterator_incr it : range_ it = b -> agrees b (Iterator_incr it).
Proof.
  intros Hb. unfold Iterator_incr. rewrite Hb. apply agrees_bind; [agreeing|intros r].
  apply agrees_bind; [apply agrees_incr_scan|intros j]. agreeing.
Qed.

Lemma agrees_Iterator_ne it other :
  range_ it = b -> range_ other = b -> agrees b (Iterator_ne it other).
Proof. intros Hi Ho. unfold Iterator_ne. rewrite Hi, Ho. agreeing. Qed.

Lemma agrees_Range_begin : agrees b (Range_begin b).
Proof.
  unfold Range_begin. apply agrees_bind; [agreeing|intros r].
  apply agrees_Iterator_ctor.
Qed.

Lemma agrees_Range_end : agrees b (Range_end b).
Proof.
  unfold Range_end. apply agrees_bind; [agreeing|intros r].
  apply agrees_Iterator_ctor.
Qed.

Lemma agrees_Range_empty : agrees b (Range_empty b).
Proof. unfold Range_empty. agreeing. Qed.

Lemma agrees_CheckKeyDone it : agrees b (CheckKeyDone b it).
Proof. unfold CheckKeyDone. agreeing. Qed.

(** Iterators created over [b] keep pointing at [b]. *)
Lemma Iterator_ctor_range i m it m' :
  Iterator_ctor b i m = Returns (it, m') -> range_ it = b.
Proof.
  unfold Iterator_ctor. intros H.
  apply bind_inv in H as (r & m1 & _ & H).
  apply bind_inv in H as (j & m2 & _ & H).
  unfold ret in H. now injection H as <- _.
Qed.

Lemma Iterator_incr_range it m it' m' :
  Iterator_incr it m = Returns (it', m') -> range_ it' = range_ it.
Proof.
  unfold Iterator_incr. intros H.
  apply bind_inv in H as (r & m1 & _ & H).
  apply bind_inv in H as (j & m2 & _ & H).
  unfold ret in H. now injection H as <- _.
Qed.

Lemma Range_end_range m it m' : Range_end b m = Returns (it, m') -> range_ it = b.
Proof.
  unfold Range_end. intros H. apply bind_inv in H as (r & ? & _ & H).
  eapply Iterator_ctor_range; eassumption.
Qed.

Lemma Range_begin_range m it m' : Range_begin b m = Returns (it, m') -> range_ it = b.
Proof.
  unfold Range_begin. intros H. apply bind_inv in H as (r & ? & _ & H).
  eapply Iterator_ctor_range; eassumption.
Qed.

Lemma agrees_for_each body :
  (forall it, agrees b (body it)) ->
  forall fuel it, range_ it = b -> agrees b (for_each fuel b body it).
Proof.
  intros Hbody. induction fuel as [|fuel IH]; intros it Hit; cbn [for_each].
  - apply agrees_bind_eq; [apply agrees_Range_end|intros e m m' He].
    apply agrees_bind; [|intros []; agreeing].
    apply agrees_Iterator_ne; [assumption|]. eapply Range_end_range; eassumption.
  - apply agrees_bind_eq; [apply agrees_Range_end|intros e m m' He].
    apply agrees_bind; [|intros []; [|apply agrees_ret]].
    { apply agrees_Iterator_ne; [assumption|]. eapply Range_end_range; eassumption. }
    apply agrees_bind; [apply Hbody|intros _].
    apply agrees_bind_eq; [now apply agrees_Iterator_incr|intros it' n n' Hi].
    apply agrees_bind; [|intros ?; apply agrees_ret].
    apply IH. rewrite (Iterator_incr_range _ _ _ _ Hi). exact Hit.
Qed.

Lemma agrees_iterate body :
  (forall it, agrees b (body it)) -> agrees b (iterate b body).
Proof.
  intros Hbody. unfold iterate. apply agrees_bind; [apply agrees_load_range|intros r].
  apply agrees_bind_eq; [apply agrees_Range_begin|intros it m m' Hb].
  apply agrees_for_each; [assumption|]. eapply Range_begin_range; eassumption.
Qed.

Lemma agrees_no_body it : agrees b (no_body it).
Proof. apply agrees_ret. Qed.

End Agrees.


(** *** Single calls *)

Lemma MarkKeyDone_spec m a r c it :
  ranges m !! a = Some r -> contexts m !! ctx_ r = Some c -> 0 <= index_ it < 64 ->
  MarkKeyDone a it m
  = Returns (tt, mkMemory
                   (<[ctx_ r := set_value_mask c (Z.lor (value_mask_ c) (2 ^ index_ it))]>
                      (contexts m))
                   (ranges m)).
Proof.
  intros Hr Hc Hi. unfold MarkKeyDone. load_steps.
  rewrite (bind_returns _ _ _ _ _ (lift_returns _ _ m (shl64_one _ Hi))).
  reflexivity.
Qed.

Lemma CheckKeyDone_spec m a r c it :
  ranges m !! a = Some r -> contexts m !! ctx_ r = Some c -> 0 <= index_ it < 64 ->
  CheckKeyDone a it m = Returns (Z.testbit (value_mask_ c) (index_ it), m).
Proof.
  intros Hr Hc Hi. unfold CheckKeyDone. load_steps.
  rewrite (bind_returns _ _ _ _ _ (lift_returns _ _ m (shl64_one _ Hi))).
  unfold ret. now rewrite to_bool_land_pow2_r by lia.
Qed.

Lemma SkipKey_spec m a r it :
  ranges m !! a = Some r -> 0 <= index_ it < 64 ->
  SkipKey a it m
  = Returns (tt, mkMemory (contexts m)
                   (<[a := mkRange (ctx_ r) (start_ r) (end_ r)
                             (Z.lor (skip_mask_ r) (2 ^ index_ it))]> (ranges m))).
Proof.
  intros Hr Hi. unfold SkipKey. load_steps.
  rewrite (bind_returns _ _ _ _ _ (lift_returns _ _ m (shl64_one _ Hi))).
  reflexivity.
Qed.

Lemma empty_mask_bit s e vm sm k :
  0 <= s < 64 -> 0 <= e < 64 -> 0 <= k ->
  Z.testbit (Z.land (Z.land (Z.land (pred64 (2 ^ e)) (not64 (pred64 (2 ^ s))))
                            (not64 vm)) (not64 sm)) k
  = (s <=? k) && (k <? e) && negb (Z.testbit (Z.lor vm sm) k).
Proof.
  intros Hs He Hk.
  rewrite !Z.land_spec, !not64_bit, !pred64_pow2 by lia.
  rewrite !Z.testbit_ones_nonneg by lia. rewrite Z.lor_spec.
  destruct (Z.ltb_spec k e), (Z.ltb_spec k s), (Z.ltb_spec k 64), (Z.leb_spec s k);
    try lia; cbn;
    destruct (Z.testbit vm k), (Z.testbit sm k); reflexivity.
Qed.

Lemma Range_empty_eval m a r c :
  ranges m !! a = Some r -> contexts m !! ctx_ r = Some c ->
  0 <= start_ r < 64 -> 0 <= end_ r < 64 ->
  Range_empty a m
  = Returns (Z.land (Z.land (Z.land (pred64 (2 ^ end_ r))
                                    (not64 (pred64 (2 ^ start_ r))))
                            (not64 (value_mask_ c)))
                    (not64 (skip_mask_ r)) =? 0, m).
Proof.
  intros Hr Hc Hs He. unfold Range_empty. load_steps.
  rewrite (bind_returns _ _ _ _ _ (lift_returns _ _ m (shl64_one _ He))).
  rewrite (bind_returns _ _ _ _ _ (lift_returns _ _ m (shl64_one _ Hs))).
  load_steps. reflexivity.
Qed.

(** *** Monotonicity of the resolved mask *)

Lemma all_resolved_kept_refl m : all_resolved_kept m m.
Proof. intros p c Hc. exists c. auto. Qed.

Lemma all_resolved_kept_trans m1 m2 m3 :
  all_resolved_kept m1 m2 -> all_resolved_kept m2 m3 -> all_resolved_kept m1 m3.
Proof.
  intros H12 H23 p c Hc.
  destruct (H12 p c Hc) as (c2 & Hc2 & Hb2).
  destruct (H23 p c2 Hc2) as (c3 & Hc3 & Hb3).
  exists c3. auto.
Qed.

Lemma all_resolved_kept_store_range m p r :
  all_resolved_kept m (mkMemory (contexts m) (<[p := r]> (ranges m))).
Proof. intros q c Hc. exists c. auto. Qed.

Lemma all_resolved_kept_mark m p c bit :
  contexts m !! p = Some c ->
  all_resolved_kept m
    (mkMemory (<[p := set_value_mask c (Z.lor (value_mask_ c) bit)]> (contexts m))
       (ranges m)).
Proof.
  intros Hc q c0 Hc0. cbn [contexts]. destruct (decide (p = q)) as [->|Hne].
  - rewrite lookup_insert_eq. eexists. split; [reflexivity|].
    rewrite Hc in Hc0. injection Hc0 as <-. cbn [value_mask_ set_value_mask].
    intros j Hj. rewrite Z.lor_spec, Hj. reflexivity.
  - rewrite lookup_insert_ne by assumption. exists c0. auto.
Qed.

Lemma exec_all_resolved_kept cs : preserves all_resolved_kept (exec_all cs).
Proof.
  apply preserves_exec_all.
  - apply all_resolved_kept_refl.
  - apply all_resolved_kept_trans.
  - apply all_resolved_kept_store_range.
  - apply all_resolved_kept_mark.
Qed.


(** *** The properties of the specification *)

Lemma filter_all {A} (P : A -> Prop) `{!forall x, Decision (P x)} (l : list A) :
  (forall x, x ∈ l -> P x) -> filter P l = l.
Proof.
  induction l as [|x l IH]; intros Hall; [reflexivity|].
  rewrite filter_cons_True by (apply Hall; left).
  f_equal. apply IH. intros y Hy. apply Hall. now right.
Qed.

Lemma filter_ext_elem {A} (P Q : A -> Prop)
    `{!forall x, Decision (P x), !forall x, Decision (Q x)} (l : list A) :
  (forall x, x ∈ l -> P x <-> Q x) -> filter P l = filter Q l.
Proof.
  induction l as [|x l IH]; intros Hall; [reflexivity|].
  assert (Hl : filter P l = filter Q l).
  { apply IH. intros y Hy. apply Hall. now right. }
  assert (Hx : P x <-> Q x) by (apply Hall; left).
  destruct (decide (P x)) as [HP|HP].
  - rewrite (filter_cons_True P) by assumption.
    rewrite (filter_cons_True Q) by now apply Hx. now rewrite Hl.
  - rewrite (filter_cons_False P) by assumption.
    rewrite (filter_cons_False Q); [assumption|]. intros HQ. now apply HP, Hx.
Qed.

Lemma filter_seqZ_increasing (P : Z -> Prop) `{!forall x, Decision (P x)} i n :
  StronglySorted Z.lt (filter P (seqZ i n)).
Proof.
  remember (Z.to_nat n) as k eqn:Hk. revert i n Hk.
  induction k as [|k IH]; intros i n Hk.
  - rewrite seqZ_nil by lia. constructor.
  - rewrite seqZ_cons by lia.
    assert (Hrest : StronglySorted Z.lt (filter P (seqZ (Z.succ i) (Z.pred n))))
      by (apply IH; lia).
    destruct (decide (P i)) as [HP|HP].
    + rewrite filter_cons_True by assumption. constructor; [assumption|].
      apply Forall_forall. intros p Hp.
      apply list_elem_of_filter in Hp as [_ Hp]. apply elem_of_seqZ in Hp. lia.
    + now rewrite filter_cons_False by assumption.
Qed.

(** C3.  [MarkKeyDone] through one range sets the bit of the position in the
    resolved mask of the shared context: [CheckKeyDone] through any range
    over that context then answers true, a traversal of any such range no
    longer visits the position, and no sequence of calls ever clears a bit
    of a resolved mask. *)
Theorem MarkKeyDone_shared_and_one_way :
  (forall m a1 a2 r1 r2 c it,
     ranges m !! a1 = Some r1 -> ranges m !! a2 = Some r2 ->
     ctx_ r1 = ctx_ r2 -> contexts m !! ctx_ r1 = Some c ->
     0 <= index_ it < 64 ->
     exists m',
       MarkKeyDone a1 it m = Returns (tt, m') /\
       (forall it2, index_ it2 = index_ it ->
                    CheckKeyDone a2 it2 m' = Returns (true, m')) /\
       (0 <= start_ r2 <= end_ r2 -> end_ r2 <= 64 ->
        exists l, iterate a2 no_body m' = Returns (l, m') /\ index_ it ∉ l)) /\
  (forall cs m m' p, exec_all cs m = Returns (tt, m') -> resolved_kept p m m').
Proof.
  split.
  - intros m a1 a2 r1 r2 c it Hr1 Hr2 Hctx Hc Hi.
    eexists. split; [exact (MarkKeyDone_spec m a1 r1 c it Hr1 Hc Hi)|].
    set (c' := set_value_mask c (Z.lor (value_mask_ c) (2 ^ index_ it))).
    set (m' := mkMemory (<[ctx_ r1 := c']> (contexts m)) (ranges m)).
    assert (Hc' : contexts m' !! ctx_ r2 = Some c').
    { rewrite <- Hctx. apply lookup_insert_eq. }
    assert (Hbit : Z.testbit (value_mask_ c') (index_ it) = true).
    { unfold c'. cbn [value_mask_ set_value_mask].
      rewrite lor_pow2_bit, Z.eqb_refl by lia. apply orb_true_r. }
    split.
    + intros it2 Hit2.
      rewrite (CheckKeyDone_spec m' a2 r2 c' it2 Hr2 Hc') by lia.
      now rewrite Hit2, Hbit.
    + intros Hse He. eexists. split.
      * now apply (iterate_no_body m' a2 r2 c').
      * rewrite list_elem_of_filter. intros [Hb _].
        unfold blocked in Hb. rewrite Z.lor_spec, Hbit in Hb. discriminate.
  - intros cs m m' p H. exact (exec_all_resolved_kept cs m tt m' H p).
Qed.

Lemma MarkKeyDone_shared_and_one_way_witness :
  exists m',
    MarkKeyDone 10 example_iterator example_memory = Returns (tt, m') /\
    (forall it2, index_ it2 = index_ example_iterator ->
                 CheckKeyDone 11 it2 m' = Returns (true, m')) /\
    (0 <= start_ example_range <= end_ example_range -> end_ example_range <= 64 ->
     exists l, iterate 11 no_body m' = Returns (l, m') /\ index_ example_iterator ∉ l).
Proof.
  apply (proj1 MarkKeyDone_shared_and_one_way example_memory 10%positive 11%positive
           example_range example_range example_ctx example_iterator).
  - reflexivity.
  - reflexivity.
  - reflexivity.
  - reflexivity.
  - cbn. lia.
Defined.

(** C4.  A traversal from [begin()] to [end()] runs the body on exactly the
    positions of [start, end) whose bit is clear in the two masks when the
    position is reached, in increasing order.  With the masks at rest these
    are the unblocked positions of the window; with nothing skipped or
    resolved the full range of an [N]-key batch yields [N] positions; and
    marking a position done removes that position and leaves the others in
    their order.  In particular the range [GetMultiGetRange] returns for a
    fresh context of [N] keys yields the [N] positions [0 .. N-1]. *)
Theorem iteration_visits_unblocked_positions m a r c :
  ranges m !! a = Some r -> contexts m !! ctx_ r = Some c ->
  0 <= start_ r <= end_ r -> end_ r <= 64 ->
  (forall body, keeps_window a r body ->
     iterate a body m
     = spec_iterate (seqZ (start_ r) (end_ r - start_ r)) a body m) /\
  (exists l,
     iterate a no_body m = Returns (l, m) /\
     l = filter (fun p => blocked c r p = false)
           (seqZ (start_ r) (end_ r - start_ r)) /\
     StronglySorted Z.lt l /\
     forall p, p ∈ l <-> start_ r <= p < end_ r /\ blocked c r p = false) /\
  (value_mask_ c = 0 -> skip_mask_ r = 0 -> start_ r = 0 ->
     exists l, iterate a no_body m = Returns (l, m) /\
               l = seqZ 0 (end_ r) /\ Z.of_nat (length l) = end_ r) /\
  (forall b rb it l,
     ranges m !! b = Some rb -> ctx_ rb = ctx_ r -> 0 <= index_ it < 64 ->
     iterate a no_body m = Returns (l, m) ->
     exists m', MarkKeyDone b it m = Returns (tt, m') /\
                iterate a no_body m'
                = Returns (filter (fun p => p <> index_ it) l, m')) /\
  (forall p dst c0,
     contexts m !! p = Some c0 -> value_mask_ c0 = 0 -> 0 <= num_keys_ c0 <= 64 ->
     exists m' l,
       GetMultiGetRange p dst m = Returns (tt, m') /\
       iterate dst no_body m' = Returns (l, m') /\
       l = seqZ 0 (num_keys_ c0) /\ Z.of_nat (length l) = num_keys_ c0).
Proof.
  intros Hr Hc Hse He. split; [|split; [|split; [|split]]].
  - intros body Hkeep. now apply (iterate_refines m a r c).
  - eexists. split; [now apply (iterate_no_body m a r c)|].
    split; [reflexivity|]. split.
    + apply filter_seqZ_increasing.
    + intros p. rewrite list_elem_of_filter, elem_of_seqZ. split.
      * intros [Hb Hp]. split; [lia|assumption].
      * intros [Hp Hb]. split; [assumption|lia].
  - intros Hvm Hsm Hs. eexists. split; [now apply (iterate_no_body m a r c)|].
    assert (Hall : filter (fun p => blocked c r p = false)
                     (seqZ (start_ r) (end_ r - start_ r)) = seqZ 0 (end_ r)).
    { rewrite Hs, Z.sub_0_r. apply filter_all. intros p _.
      unfold blocked. now rewrite Hvm, Hsm, Z.lor_0_l, Z.bits_0. }
    rewrite Hall. split; [reflexivity|]. rewrite length_seqZ. lia.
  - intros b rb it l Hrb Hctx Hi Hl.
    rewrite (iterate_no_body m a r c Hr Hc Hse He) in Hl. injection Hl as <-.
    rewrite <- Hctx in Hc.
    eexists. split; [exact (MarkKeyDone_spec m b rb c it Hrb Hc Hi)|].
    set (c' := set_value_mask c (Z.lor (value_mask_ c) (2 ^ index_ it))).
    set (m' := mkMemory (<[ctx_ rb := c']> (contexts m)) (ranges m)).
    assert (Hc' : contexts m' !! ctx_ r = Some c').
    { rewrite <- Hctx. apply lookup_insert_eq. }
    rewrite (iterate_no_body m' a r c' Hr Hc' Hse He).
    f_equal. f_equal. rewrite list_filter_filter.
    apply filter_ext_elem. intros p Hp. apply elem_of_seqZ in Hp.
    unfold blocked, c'. cbn [value_mask_ set_value_mask].
    rewrite !Z.lor_spec, Z.pow2_bits_eqb by lia.
    destruct (Z.eqb_spec (index_ it) p) as [->|Hne];
      destruct (Z.testbit (value_mask_ c) p), (Z.testbit (skip_mask_ r) p); cbn;
      intuition congruence.
  - intros p dst c0 Hc0 Hvm Hn.
    unfold GetMultiGetRange, Range_ctor. load_steps. unfold store_range.
    set (r0 := mkRange p 0 (num_keys_ c0) 0).
    set (m' := mkMemory (contexts m) (<[dst := r0]> (ranges m))).
    exists m'. eexists. split; [reflexivity|].
    assert (Hr0 : ranges m' !! dst = Some r0) by apply lookup_insert_eq.
    split; [apply (iterate_no_body m' dst r0 c0 Hr0 Hc0); cbn; lia|].
    cbn [start_ end_ r0]. rewrite Z.sub_0_r.
    assert (Hall : filter (fun q => blocked c0 r0 q = false) (seqZ 0 (num_keys_ c0))
                   = seqZ 0 (num_keys_ c0)).
    { apply filter_all. intros q _. unfold blocked. cbn [skip_mask_ r0].
      now rewrite Hvm, Z.lor_0_l, Z.bits_0. }
    rewrite Hall. split; [reflexivity|]. rewrite length_seqZ. lia.
Qed.


Lemma iteration_visits_unblocked_positions_witness :
  exists l,
    iterate 10 no_body example_memory = Returns (l, example_memory) /\
    l = [0; 1; 2] /\
    StronglySorted Z.lt l /\
    forall p, p ∈ l <->
              start_ example_range <= p < end_ example_range /\
              blocked example_ctx example_range p = false.
Proof.
  exact (proj1 (proj2 (iteration_visits_unblocked_positions example_memory 10%positive
                         example_range example_ctx eq_refl eq_refl
                         ltac:(cbn; lia) ltac:(cbn; lia)))).
Defined.

(** C5.  [empty()] answers true exactly when every position of
    [start, end) has its bit set in [value_mask_ | skip_mask_]; the answer is
    one masking expression, with no loop over the positions. *)
Theorem Range_empty_iff_all_blocked m a r c :
  ranges m !! a = Some r -> contexts m !! ctx_ r = Some c ->
  0 <= start_ r < 64 -> 0 <= end_ r < 64 ->
  exists b, Range_empty a m = Returns (b, m) /\
            (b = true <-> forall i, start_ r <= i < end_ r -> blocked c r i = true).
Proof.
  intros Hr Hc Hs He. eexists. split; [now apply (Range_empty_eval m a r c)|].
  rewrite Z.eqb_eq. unfold blocked. split.
  - intros H0 i Hi.
    assert (Hbit := empty_mask_bit (start_ r) (end_ r) (value_mask_ c) (skip_mask_ r) i
                      Hs He ltac:(lia)).
    rewrite H0, Z.bits_0 in Hbit.
    destruct (Z.leb_spec (start_ r) i), (Z.ltb_spec i (end_ r)); try lia.
    cbn in Hbit. destruct (Z.testbit _ i); [reflexivity|discriminate].
  - intros Hall. apply Z.bits_inj'. intros k Hk.
    rewrite empty_mask_bit, Z.bits_0 by assumption.
    destruct (Z.leb_spec (start_ r) k), (Z.ltb_spec k (end_ r)); try reflexivity.
    cbn. rewrite Hall by lia. reflexivity.
Qed.

Lemma Range_empty_iff_all_blocked_witness :
  exists b, Range_empty 10 example_memory = Returns (b, example_memory) /\
            (b = true <->
             forall i, start_ example_range <= i < end_ example_range ->
                       blocked example_ctx example_range i = true).
Proof.
  apply (Range_empty_iff_all_blocked example_memory 10%positive example_range example_ctx).
  - reflexivity.
  - reflexivity.
  - cbn. lia.
  - cbn. lia.
Defined.

(** C6.  [SkipKey] on the range at [a] rewrites that range's own
    [skip_mask_] and nothing else: the contexts and every other range of the
    store are as before, so [empty()], [begin()] and a traversal of any
    other range give what they gave before the call. *)
Theorem SkipKey_touches_only_its_own_range m a it m' :
  SkipKey a it m = Returns (tt, m') ->
  contexts m' = contexts m /\
  (exists r bit,
     ranges m !! a = Some r /\ shl64 1 (index_ it) = Returns bit /\
     ranges m' = <[a := mkRange (ctx_ r) (start_ r) (end_ r)
                           (Z.lor (skip_mask_ r) bit)]> (ranges m)) /\
  (forall b, b <> a ->
     ranges m' !! b = ranges m !! b /\
     value_of (Range_empty b m') = value_of (Range_empty b m) /\
     value_of (Range_begin b m') = value_of (Range_begin b m) /\
     value_of (iterate b no_body m') = value_of (iterate b no_body m)).
Proof.
  intros H. unfold SkipKey, bind, load_range, lift, store_range in H.
  destruct (ranges m !! a) as [r|] eqn:Hr; [|discriminate].
  destruct (shl64 1 (index_ it)) as [bit| | |] eqn:Hbit; try discriminate.
  injection H as <-. cbn [contexts ranges]. split; [reflexivity|]. split.
  - exists r, bit. auto.
  - intros b Hb.
    assert (Hag : agree b
              (mkMemory (contexts m)
                 (<[a := mkRange (ctx_ r) (start_ r) (end_ r)
                           (Z.lor (skip_mask_ r) bit)]> (ranges m))) m).
    { split; [reflexivity|]. cbn [ranges]. now apply lookup_insert_ne. }
    split; [now apply lookup_insert_ne|].
    split; [|split]; apply (alike_value_of b).
    + now apply agrees_Range_empty.
    + now apply agrees_Range_begin.
    + apply agrees_iterate; [apply agrees_no_body|assumption].
Qed.

Lemma SkipKey_touches_only_its_own_range_witness :
  value_of (iterate 10 no_body
              (mkMemory (contexts example_memory)
                 (<[11%positive := mkRange 1 0 3 1]> (ranges example_memory))))
  = value_of (iterate 10 no_body example_memory).
Proof.
  exact (proj2 (proj2 (proj2 (proj2 (proj2
           (SkipKey_touches_only_its_own_range example_memory 11%positive
              (mkIterator 11 1 0) _ eq_refl)) 10%positive ltac:(discriminate))))).
Defined.

(** C7.  The range built from a parent and two iterators starts at the
    first iterator's position, ends at the second's, is over the parent's
    context and carries the parent's [skip_mask_] as it is at that moment;
    nothing else in the store changes. *)
Theorem Range_sub_narrows_bounds_only m this parent p first last :
  ranges m !! parent = Some p ->
  exists m',
    Range_sub this parent first last m = Returns (tt, m') /\
    ranges m' !! this
    = Some (mkRange (ctx_ p) (index_ first) (index_ last) (skip_mask_ p)) /\
    contexts m' = contexts m /\
    (forall q, q <> this -> ranges m' !! q = ranges m !! q).
Proof.
  intros Hp. unfold Range_sub. load_steps. unfold store_range.
  eexists. split; [reflexivity|]. cbn [ranges contexts].
  split; [apply lookup_insert_eq|]. split; [reflexivity|].
  intros q Hq. now apply lookup_insert_ne.
Qed.

Lemma Range_sub_narrows_bounds_only_witness :
  exists m',
    Range_sub 12 10 (mkIterator 10 1 1) (mkIterator 10 1 3) example_memory
    = Returns (tt, m') /\
    ranges m' !! 12%positive = Some (mkRange 1 1 3 0) /\
    contexts m' = contexts example_memory /\
    (forall q, q <> 12%positive -> ranges m' !! q = ranges example_memory !! q).
Proof.
  exact (Range_sub_narrows_bounds_only example_memory 12%positive 10%positive
           example_range (mkIterator 10 1 1) (mkIterator 10 1 3) eq_refl).
Defined.


(** *** The constructor and the destructor of the context *)

Lemma place_lookup_key_not_rejected c index lk :
  place_lookup_key c index lk <> AssertFails.
Proof.
  unfold place_lookup_key.
  destruct (lookup_key_ptr_ c); [|discriminate].
  destruct ((0 <=? index) && (index <? MAX_KEYS_ON_STACK)); discriminate.
Qed.

Lemma ctor_loop_not_rejected fuel snapshot :
  forall iter index c, ctor_loop fuel snapshot iter index c <> AssertFails.
Proof.
  induction fuel as [|fuel IH]; intros iter index c; cbn [ctor_loop].
  - destruct (iter =? num_keys_ c); discriminate.
  - destruct (iter =? num_keys_ c); [discriminate|].
    destruct (sorted_keys_ c !! Z.to_nat iter) as [kc|]; [|discriminate].
    destruct (place_lookup_key c index (LookupKey_new (key kc) snapshot)) as [buf| | |] eqn:Hp;
      try discriminate.
    + apply IH.
    + now apply place_lookup_key_not_rejected in Hp.
Qed.

Lemma place_lookup_key_inline c index lk :
  lookup_key_ptr_ c = InlineBuf -> 0 <= index < MAX_KEYS_ON_STACK ->
  place_lookup_key c index lk
  = Returns (<[Z.to_nat index := Some lk]> (lookup_key_buf c)).
Proof.
  intros Hp Hi. unfold place_lookup_key. rewrite Hp.
  destruct (Z.leb_spec 0 index), (Z.ltb_spec index MAX_KEYS_ON_STACK); try lia.
  reflexivity.
Qed.

Lemma place_lookup_key_overrun c index lk :
  lookup_key_ptr_ c = InlineBuf -> MAX_KEYS_ON_STACK <= index ->
  place_lookup_key c index lk = Undefined (BufferOverrun index).
Proof.
  intros Hp Hi. unfold place_lookup_key. rewrite Hp.
  destruct (Z.ltb_spec index MAX_KEYS_ON_STACK); [lia|].
  now rewrite andb_false_r.
Qed.

Lemma ctor_loop_within_capacity snapshot :
  forall fuel k c,
    lookup_key_ptr_ c = InlineBuf ->
    0 <= k <= num_keys_ c -> num_keys_ c <= MAX_KEYS_ON_STACK ->
    (Z.to_nat (num_keys_ c - k) <= fuel)%nat ->
    (Z.to_nat (num_keys_ c) <= length (sorted_keys_ c))%nat ->
    exists c',
      ctor_loop fuel snapshot k k c = Returns c' /\
      num_keys_ c' = num_keys_ c /\ value_mask_ c' = value_mask_ c /\
      lookup_key_ptr_ c' = InlineBuf /\
      (forall i, 0 <= i < k ->
         sorted_keys_ c' !! Z.to_nat i = sorted_keys_ c !! Z.to_nat i) /\
      (forall i, k <= i < num_keys_ c ->
         exists kc, sorted_keys_ c !! Z.to_nat i = Some kc /\
                    sorted_keys_ c' !! Z.to_nat i = Some (derived snapshot i kc)).
Proof.
  unfold MAX_KEYS_ON_STACK.
  induction fuel as [|fuel IH]; intros k c Hp Hk Hn Hfuel Hlen; cbn [ctor_loop].
  - assert (k = num_keys_ c) as -> by lia. rewrite Z.eqb_refl.
    exists c. do 3 (split; [reflexivity|]). split; [assumption|].
    split; intros i Hi; [reflexivity|lia].
  - destruct (Z.eqb_spec k (num_keys_ c)) as [->|Hne].
    + exists c. do 3 (split; [reflexivity|]). split; [assumption|].
      split; intros i Hi; [reflexivity|lia].
    + destruct (sorted_keys_ c !! Z.to_nat k) as [kc|] eqn:Hkc.
      2:{ apply lookup_ge_None in Hkc. lia. }
      rewrite place_lookup_key_inline by (unfold MAX_KEYS_ON_STACK; auto; lia).
      rewrite succ64_small by lia.
      set (c1 := mkMultiGetContext _ _ _ _ _).
      destruct (IH (k + 1) c1) as (c' & Hrun & Hnum & Hvm & Hptr & Hlow & Hkeys);
        subst c1; cbn [lookup_key_ptr_ num_keys_ sorted_keys_ value_mask_] in *;
        try assumption; try lia.
      { rewrite length_insert. exact Hlen. }
      rewrite Hrun. exists c'. split; [reflexivity|].
      do 3 (split; [assumption|]). rewrite Hp in Hlow. split.
      * intros i Hi. rewrite Hlow by lia. apply list_lookup_insert_ne. lia.
      * intros i Hi. destruct (Z.eq_dec i k) as [->|Hik].
        -- exists kc. split; [assumption|].
           rewrite Hlow by lia. apply list_lookup_insert_eq.
           apply lookup_lt_Some in Hkc. exact Hkc.
        -- destruct (Hkeys i) as (kc' & H1 & H2); [lia|].
           rewrite list_lookup_insert_ne in H1 by lia. exists kc'. auto.
Qed.

Lemma ctor_loop_returns_inline snapshot :
  forall fuel k c c',
    ctor_loop fuel snapshot k k c = Returns c' ->
    lookup_key_ptr_ c = InlineBuf -> 0 <= k <= MAX_KEYS_ON_STACK ->
    k <= num_keys_ c <= MAX_KEYS_ON_STACK /\
    num_keys_ c' = num_keys_ c /\ lookup_key_ptr_ c' = InlineBuf.
Proof.
  unfold MAX_KEYS_ON_STACK.
  induction fuel as [|fuel IH]; intros k c c' H Hp Hk; cbn [ctor_loop] in H.
  - destruct (Z.eqb_spec k (num_keys_ c)) as [Heq|]; [|discriminate].
    injection H as <-. repeat split; try assumption; lia.
  - destruct (Z.eqb_spec k (num_keys_ c)) as [Heq|Hne].
    + injection H as <-. repeat split; try assumption; lia.
    + destruct (sorted_keys_ c !! Z.to_nat k) as [kc|]; [|discriminate].
      destruct (Z.eq_dec k 32) as [->|Hk32].
      * rewrite place_lookup_key_overrun in H
          by (unfold MAX_KEYS_ON_STACK; auto; lia). discriminate.
      * rewrite place_lookup_key_inline in H by (unfold MAX_KEYS_ON_STACK; auto; lia).
        rewrite succ64_small in H by lia.
        apply IH in H; cbn [lookup_key_ptr_ num_keys_] in *; [|assumption|lia].
        destruct H as (H1 & H2 & H3). repeat split; try assumption; lia.
Qed.

Lemma ctor_loop_reads_past_array snapshot :
  forall fuel k c,
    0 <= k < num_keys_ c -> num_keys_ c < modulus ->
    (length (sorted_keys_ c) < Z.to_nat (num_keys_ c))%nat ->
    forall c', ctor_loop fuel snapshot k k c <> Returns c'.
Proof.
  induction fuel as [|fuel IH]; intros k c Hk Hmod Hlen c'; cbn [ctor_loop].
  - destruct (Z.eqb_spec k (num_keys_ c)); [lia|discriminate].
  - destruct (Z.eqb_spec k (num_keys_ c)); [lia|].
    destruct (sorted_keys_ c !! Z.to_nat k) as [kc|] eqn:Hkc; [|discriminate].
    destruct (place_lookup_key c k (LookupKey_new (key kc) snapshot)); try discriminate.
    assert (Hs : succ64 k = k + 1).
    { unfold succ64, wrap64. apply Z.mod_small. lia. }
    rewrite Hs.
    destruct (Z.eq_dec (k + 1) (num_keys_ c)) as [Heq|Hne].
    + apply lookup_lt_Some in Hkc. lia.
    + apply IH; cbn [num_keys_ sorted_keys_]; [lia|assumption|].
      now rewrite length_insert.
Qed.

Lemma ctor_reads_past_array keys n snapshot c :
  0 <= n <= MAX_KEYS_ON_STACK -> (length keys < Z.to_nat n)%nat ->
  MultiGetContext_ctor keys n snapshot = Returns c -> False.
Proof.
  unfold MAX_KEYS_ON_STACK. intros Hn Hlen H. unfold MultiGetContext_ctor in H.
  revert H. apply ctor_loop_reads_past_array; cbn [num_keys_ sorted_keys_].
  - lia.
  - rewrite modulus_eq. lia.
  - assumption.
Qed.

Lemma ctor_returns_inline keys n snapshot c :
  MultiGetContext_ctor keys n snapshot = Returns c ->
  0 <= n <= MAX_KEYS_ON_STACK /\ num_keys_ c = n /\
  lookup_key_ptr_ c = InlineBuf /\ MultiGetContext_dtor c = [].
Proof.
  unfold MultiGetContext_ctor. intros H.
  apply ctor_loop_returns_inline in H; [|reflexivity|unfold MAX_KEYS_ON_STACK; lia].
  cbn [num_keys_] in H. destruct H as (H1 & H2 & H3).
  unfold MultiGetContext_dtor. rewrite H3. repeat split; try assumption; lia.
Qed.

Lemma ctor_within_capacity keys n snapshot :
  0 <= n <= MAX_KEYS_ON_STACK -> (Z.to_nat n <= length keys)%nat ->
  exists c,
    MultiGetContext_ctor keys n snapshot = Returns c /\
    num_keys_ c = n /\ value_mask_ c = 0 /\ lookup_key_ptr_ c = InlineBuf /\
    (forall i, 0 <= i < n ->
       exists kc, keys !! Z.to_nat i = Some kc /\
                  sorted_keys_ c !! Z.to_nat i = Some (derived snapshot i kc)).
Proof.
  intros Hn Hlen. unfold MultiGetContext_ctor.
  edestruct (ctor_loop_within_capacity snapshot (Z.to_nat n) 0)
    as (c' & Hrun & Hnum & Hvm & Hptr & _ & Hkeys);
    [| | | | |exists c'; split; [exact Hrun|]];
    cbn [lookup_key_ptr_ num_keys_ sorted_keys_ value_mask_] in *;
    try reflexivity; try lia.
  repeat split; try assumption.
Qed.


(** C1, as the specification words it, fails: a batch of 65 keys, one more
    than the mask has bits, is not turned away.  The constructor has no
    check; its loop writes past the 32 slots of [lookup_key_buf]. *)
Lemma ctor_oversized_batch_not_rejected :
  U64.width < 65 /\
  MultiGetContext_ctor (replicate 65 (KeyContext_new [])) 65 7
  = Undefined (BufferOverrun 32) /\
  ~ rejected (MultiGetContext_ctor (replicate 65 (KeyContext_new [])) 65 7).
Proof.
  split; [reflexivity|].
  assert (H : MultiGetContext_ctor (replicate 65 (KeyContext_new [])) 65 7
              = Undefined (BufferOverrun 32)) by (vm_compute; reflexivity).
  split; [exact H|]. unfold rejected. rewrite H. discriminate.
Qed.

(** C1, amended.  The constructor has no rejecting path for any key count;
    the limit is the caller's to keep.  For every count within
    [MAX_KEYS_ON_STACK], itself below the 64 bits of the mask, and an array
    holding that many keys, the construction completes with that count and
    an all-zero resolved mask. *)
Theorem ctor_relies_on_caller_for_capacity :
  MAX_KEYS_ON_STACK < U64.width /\
  (forall keys n snapshot, ~ rejected (MultiGetContext_ctor keys n snapshot)) /\
  (forall keys n snapshot,
     0 <= n <= MAX_KEYS_ON_STACK -> (Z.to_nat n <= length keys)%nat ->
     exists c, MultiGetContext_ctor keys n snapshot = Returns c /\
               num_keys_ c = n /\ value_mask_ c = 0).
Proof.
  split; [reflexivity|]. split.
  - intros keys n snapshot. unfold rejected, MultiGetContext_ctor.
    apply ctor_loop_not_rejected.
  - intros keys n snapshot Hn Hlen.
    destruct (ctor_within_capacity keys n snapshot Hn Hlen) as (c & H1 & H2 & H3 & _).
    exists c. auto.
Qed.

Lemma ctor_relies_on_caller_for_capacity_witness :
  exists c, MultiGetContext_ctor example_keys 3 7 = Returns c /\
            num_keys_ c = 3 /\ value_mask_ c = 0.
Proof.
  apply (proj2 (proj2 ctor_relies_on_caller_for_capacity) example_keys 3 7).
  - unfold MAX_KEYS_ON_STACK. lia.
  - cbn. lia.
Defined.

(** C8, at the failing input.  With 33 keys, one more than the inline
    buffer holds, the constructor places the 33rd lookup key in slot 32 of
    the inline buffer, past its end; no heap region is set up.  Whenever the
    constructor returns, the count is within the inline capacity, every key
    has its lookup key in its own slot of the inline buffer, and the
    destructor has nothing to release. *)
Theorem ctor_only_ever_uses_inline_buffer :
  MultiGetContext_ctor (replicate 33 (KeyContext_new [])) 33 7
  = Undefined (BufferOverrun 32) /\
  (forall keys n snapshot c,
     MultiGetContext_ctor keys n snapshot = Returns c ->
     0 <= n <= MAX_KEYS_ON_STACK /\
     lookup_key_ptr_ c = InlineBuf /\
     MultiGetContext_dtor c = [] /\
     (Z.to_nat n <= length keys)%nat /\
     forall i, 0 <= i < n ->
       exists kc, keys !! Z.to_nat i = Some kc /\
                  sorted_keys_ c !! Z.to_nat i = Some (derived snapshot i kc)).
Proof.
  split; [vm_compute; reflexivity|].
  intros keys n snapshot c H.
  destruct (ctor_returns_inline keys n snapshot c H) as (Hn & Hnum & Hptr & Hdtor).
  do 3 (split; [assumption|]).
  assert (Hlen : (Z.to_nat n <= length keys)%nat).
  { destruct (Nat.le_gt_cases (Z.to_nat n) (length keys)) as [|Hgt]; [assumption|].
    exfalso. revert H. apply ctor_reads_past_array; [lia|assumption]. }
  split; [assumption|].
  destruct (ctor_within_capacity keys n snapshot Hn Hlen) as (c' & H' & _ & _ & _ & Hkeys).
  rewrite H in H'. injection H' as <-. exact Hkeys.
Qed.

Lemma ctor_only_ever_uses_inline_buffer_witness :
  0 <= 3 <= MAX_KEYS_ON_STACK /\
  lookup_key_ptr_ example_ctx = InlineBuf /\
  MultiGetContext_dtor example_ctx = [] /\
  (Z.to_nat 3 <= length example_keys)%nat /\
  forall i, 0 <= i < 3 ->
    exists kc, example_keys !! Z.to_nat i = Some kc /\
               sorted_keys_ example_ctx !! Z.to_nat i = Some (derived 7 i kc).
Proof.
  exact (proj2 ctor_only_ever_uses_inline_buffer example_keys 3 7 example_ctx eq_refl).
Defined.


(** *** Shift amounts *)

Lemma range_ok_bounds m r :
  within_stack_bound m -> range_ok m r ->
  exists c, contexts m !! ctx_ r = Some c /\
            0 <= start_ r <= end_ r /\ end_ r <= MAX_KEYS_ON_STACK.
Proof.
  intros Hb (c & Hc & H0 & H1 & H2). exists c. split; [assumption|].
  destruct (Hb _ _ Hc). lia.
Qed.

Lemma iter_ok_bounds m it :
  within_stack_bound m -> ranges_ok m -> iter_ok m it ->
  0 <= index_ it <= MAX_KEYS_ON_STACK.
Proof.
  intros Hb Hrs (r & Hr & Hi).
  destruct (range_ok_bounds m r Hb (Hrs _ _ Hr)) as (c & _ & ? & ?). lia.
Qed.

Lemma is_returns_intro {A} (o : outcome A) a : o = Returns a -> is_returns o.
Proof. intros ->. now exists a. Qed.

(** Under the batch limit, none of the calls that shift leaves defined
    behaviour. *)
Lemma calls_defined m a r it :
  within_stack_bound m -> ranges_ok m ->
  ranges m !! a = Some r -> iter_ok m it ->
  is_returns (Range_empty a m) /\
  is_returns (SkipKey a it m) /\
  is_returns (MarkKeyDone a it m) /\
  is_returns (CheckKeyDone a it m) /\
  (forall i, 0 <= i -> is_returns (Iterator_ctor a i m)) /\
  is_returns (Range_begin a m) /\
  is_returns (Range_end a m) /\
  is_returns (Iterator_incr it m).
Proof.
  intros Hb Hrs Hr Hit.
  destruct (range_ok_bounds m r Hb (Hrs _ _ Hr)) as (c & Hc & Hse & He).
  pose proof (iter_ok_bounds m it Hb Hrs Hit) as Hi.
  unfold MAX_KEYS_ON_STACK in *.
  split; [|split; [|split; [|split; [|split; [|split; [|split]]]]]].
  - eapply is_returns_intro, (Range_empty_eval m a r c Hr Hc); lia.
  - eapply is_returns_intro, (SkipKey_spec m a r it Hr). lia.
  - eapply is_returns_intro, (MarkKeyDone_spec m a r c it Hr Hc). lia.
  - eapply is_returns_intro, (CheckKeyDone_spec m a r c it Hr Hc). lia.
  - intros i Hi0.
    destruct (Iterator_ctor_spec m a r c i Hr Hc Hi0) as (j & H & _); [lia|].
    eapply is_returns_intro, H.
  - destruct (Range_begin_spec m a r c Hr Hc) as (j & H & _); [lia|lia|].
    eapply is_returns_intro, H.
  - eapply is_returns_intro, (Range_end_spec m a r c Hr Hc). lia.
  - destruct Hit as (ri & Hri & _).
    destruct (range_ok_bounds m ri Hb (Hrs _ _ Hri)) as (ci & Hci & Hsei & Hei).
    unfold MAX_KEYS_ON_STACK in *.
    destruct (Iterator_incr_spec m it ri ci Hri Hci) as (j & H & _); [lia|lia|].
    eapply is_returns_intro, H.
Qed.

(** The calls hand back states and iterators of the same kind. *)
Lemma GetMultiGetRange_ok m p dst m' :
  within_stack_bound m -> ranges_ok m ->
  GetMultiGetRange p dst m = Returns (tt, m') ->
  within_stack_bound m' /\ ranges_ok m'.
Proof.
  intros Hb Hrs H. unfold GetMultiGetRange, Range_ctor, bind, load_ctx, store_range in H.
  destruct (contexts m !! p) as [c|] eqn:Hc; [|discriminate].
  injection H as <-. split; [exact Hb|].
  intros a r. cbn [ranges]. rewrite lookup_insert. case_decide.
  - intros [= <-]. exists c. cbn [ctx_ start_ end_ contexts].
    destruct (Hb _ _ Hc). repeat split; try assumption; lia.
  - intros Hr. exact (Hrs _ _ Hr).
Qed.

Lemma Range_sub_ok m this parent first last m' :
  within_stack_bound m -> ranges_ok m ->
  range_ first = parent -> range_ last = parent ->
  iter_ok m first -> iter_ok m last -> index_ first <= index_ last ->
  Range_sub this parent first last m = Returns (tt, m') ->
  within_stack_bound m' /\ ranges_ok m'.
Proof.
  intros Hb Hrs Hf Hl (rf & Hrf & Hif) (rl & Hrl & Hil) Hle H.
  unfold Range_sub, bind, load_range, store_range in H.
  rewrite Hf in Hrf. rewrite Hl in Hrl.
  destruct (ranges m !! parent) as [p|] eqn:Hp; [|discriminate].
  injection Hrf as <-. injection Hrl as <-.
  injection H as <-. split; [exact Hb|].
  intros a r. cbn [ranges]. rewrite lookup_insert. case_decide.
  - intros [= <-]. destruct (Hrs _ _ Hp) as (c & Hc & H0 & H1 & H2).
    exists c. cbn [ctx_ start_ end_ contexts]. repeat split; try assumption; lia.
  - intros Hr. exact (Hrs _ _ Hr).
Qed.

Lemma SkipKey_ok m a it m' :
  within_stack_bound m -> ranges_ok m ->
  SkipKey a it m = Returns (tt, m') ->
  within_stack_bound m' /\ ranges_ok m' /\
  (forall it', iter_ok m it' -> iter_ok m' it').
Proof.
  intros Hb Hrs H. unfold SkipKey, bind, load_range, lift, store_range in H.
  destruct (ranges m !! a) as [r0|] eqn:Hr0; [|discriminate].
  destruct (shl64 1 (index_ it)) as [bit| | |]; try discriminate.
  injection H as <-. split; [exact Hb|]. split.
  - intros b r. cbn [ranges]. rewrite lookup_insert. case_decide.
    + intros [= <-]. destruct (Hrs _ _ Hr0) as (c & Hc & H0 & H1 & H2).
      exists c. cbn [ctx_ start_ end_ contexts]. auto.
    + intros Hr. exact (Hrs _ _ Hr).
  - intros it' (r & Hr & Hi). unfold iter_ok. cbn [ranges].
    rewrite lookup_insert. case_decide as Heq.
    + eexists. split; [reflexivity|]. cbn [end_].
      rewrite <- Heq, Hr0 in Hr. injection Hr as <-. exact Hi.
    + exists r. auto.
Qed.

Lemma MarkKeyDone_ok m a it m' :
  within_stack_bound m -> ranges_ok m ->
  MarkKeyDone a it m = Returns (tt, m') ->
  within_stack_bound m' /\ ranges_ok m' /\
  (forall it', iter_ok m it' -> iter_ok m' it').
Proof.
  intros Hb Hrs H. unfold MarkKeyDone, bind, load_range, load_ctx, lift, store_ctx in H.
  destruct (ranges m !! a) as [r0|] eqn:Hr0; [|discriminate].
  destruct (contexts m !! ctx_ r0) as [c0|] eqn:Hc0; [|discriminate].
  destruct (shl64 1 (index_ it)) as [bit| | |]; try discriminate.
  injection H as <-. split; [|split].
  - intros p c. cbn [contexts]. rewrite lookup_insert. case_decide.
    + intros [= <-]. cbn [num_keys_ set_value_mask]. exact (Hb _ _ Hc0).
    + intros Hc. exact (Hb _ _ Hc).
  - intros b r Hr. cbn [ranges] in Hr.
    destruct (Hrs _ _ Hr) as (c & Hc & H0 & H1 & H2).
    unfold range_ok. cbn [contexts]. rewrite lookup_insert. case_decide as Heq.
    + eexists. split; [reflexivity|]. cbn [num_keys_ set_value_mask].
      rewrite Heq, Hc in Hc0. injection Hc0 as <-. auto.
    + exists c. auto.
  - intros it' Hit'. exact Hit'.
Qed.

Lemma stepped_iterators_ok m a r c it :
  ranges m !! a = Some r -> contexts m !! ctx_ r = Some c ->
  0 <= start_ r <= end_ r -> end_ r <= 64 ->
  (forall b m', Range_begin a m = Returns (b, m') -> m' = m /\ iter_ok m b) /\
  (forall e m', Range_end a m = Returns (e, m') -> m' = m /\ iter_ok m e) /\
  (range_ it = a -> 0 <= index_ it < end_ r ->
   forall it' m', Iterator_incr it m = Returns (it', m') -> m' = m /\ iter_ok m it').
Proof.
  intros Hr Hc Hse He. split; [|split].
  - intros b m' H.
    destruct (Range_begin_spec m a r c Hr Hc ltac:(lia) He) as (j & Hj & Hstop).
    rewrite Hj in H. injection H as <- <-. split; [reflexivity|].
    exists r. cbn [range_ index_]. split; [assumption|].
    pose proof (stops_at_le _ _ _ _ Hstop ltac:(lia)). destruct Hstop as (? & _). lia.
  - intros e m' H. rewrite (Range_end_spec m a r c Hr Hc ltac:(lia)) in H.
    injection H as <- <-. split; [reflexivity|]. exists r. cbn [range_ index_].
    split; [assumption|lia].
  - intros Ha Hi it' m' H. rewrite <- Ha in Hr.
    destruct (Iterator_incr_spec m it r c Hr Hc ltac:(lia) He) as (j & Hj & Hstop).
    rewrite Hj in H. injection H as <- <-. split; [reflexivity|].
    exists r. cbn [range_ index_]. split; [assumption|].
    pose proof (stops_at_le _ _ _ _ Hstop ltac:(lia)). destruct Hstop as (? & _). lia.
Qed.

(** C10.  In a store whose contexts keep to [MAX_KEYS_ON_STACK] keys, with
    ranges that are windows of their context and iterators that stand at a
    position of their range, [empty()], [SkipKey], [MarkKeyDone],
    [CheckKeyDone], the construction of an iterator and its increment all
    return: no shift of theirs is by 64 or more, which is the only way a
    64-bit shift is undefined.  The contexts the constructor returns keep to
    that limit, and the calls lead to stores, ranges and iterators of the
    same kind. *)
Theorem shift_amounts_stay_below_width :
  (forall x n, is_returns (shl64 x n) <-> 0 <= n < 64) /\
  (forall keys n snapshot c,
     MultiGetContext_ctor keys n snapshot = Returns c ->
     0 <= num_keys_ c <= MAX_KEYS_ON_STACK) /\
  (forall m a r it,
     within_stack_bound m -> ranges_ok m ->
     ranges m !! a = Some r -> iter_ok m it ->
     is_returns (Range_empty a m) /\
     is_returns (SkipKey a it m) /\
     is_returns (MarkKeyDone a it m) /\
     is_returns (CheckKeyDone a it m) /\
     (forall i, 0 <= i -> is_returns (Iterator_ctor a i m)) /\
     is_returns (Range_begin a m) /\
     is_returns (Range_end a m) /\
     is_returns (Iterator_incr it m)) /\
  (forall m m',
     within_stack_bound m -> ranges_ok m ->
     (forall p dst, GetMultiGetRange p dst m = Returns (tt, m') ->
                    within_stack_bound m' /\ ranges_ok m') /\
     (forall this parent first last,
        range_ first = parent -> range_ last = parent ->
        iter_ok m first -> iter_ok m last -> index_ first <= index_ last ->
        Range_sub this parent first last m = Returns (tt, m') ->
        within_stack_bound m' /\ ranges_ok m') /\
     (forall a it, SkipKey a it m = Returns (tt, m') ->
                   within_stack_bound m' /\ ranges_ok m' /\
                   forall it', iter_ok m it' -> iter_ok m' it') /\
     (forall a it, MarkKeyDone a it m = Returns (tt, m') ->
                   within_stack_bound m' /\ ranges_ok m' /\
                   forall it', iter_ok m it' -> iter_ok m' it') /\
     (forall a it, Range_begin a m = Returns (it, m') -> m' = m /\ iter_ok m it) /\
     (forall a it, Range_end a m = Returns (it, m') -> m' = m /\ iter_ok m it) /\
     (forall it r it',
        ranges m !! range_ it = Some r -> 0 <= index_ it < end_ r ->
        Iterator_incr it m = Returns (it', m') -> m' = m /\ iter_ok m it')).
Proof.
  split; [exact shl64_defined_iff|]. split; [|split].
  - intros keys n snapshot c H.
    destruct (ctor_returns_inline keys n snapshot c H) as (Hn & -> & _). exact Hn.
  - intros m a r it. apply calls_defined.
  - intros m m' Hb Hrs.
    split; [|split; [|split; [|split; [|split; [|split]]]]].
    + intros p dst. now apply GetMultiGetRange_ok.
    + intros this parent first last. now apply Range_sub_ok.
    + intros a it. now apply SkipKey_ok.
    + intros a it. now apply MarkKeyDone_ok.
    + intros a it H.
      assert (exists r, ranges m !! a = Some r) as [r Hr].
      { unfold Range_begin, bind, load_range in H.
        destruct (ranges m !! a) as [r|]; [eauto|discriminate]. }
      destruct (range_ok_bounds m r Hb (Hrs _ _ Hr)) as (c & Hc & Hse & He).
      unfold MAX_KEYS_ON_STACK in He.
      eapply (proj1 (stepped_iterators_ok m a r c it Hr Hc Hse ltac:(lia))), H.
    + intros a it H.
      assert (exists r, ranges m !! a = Some r) as [r Hr].
      { unfold Range_end, bind, load_range in H.
        destruct (ranges m !! a) as [r|]; [eauto|discriminate]. }
      destruct (range_ok_bounds m r Hb (Hrs _ _ Hr)) as (c & Hc & Hse & He).
      unfold MAX_KEYS_ON_STACK in He.
      eapply (proj1 (proj2 (stepped_iterators_ok m a r c it Hr Hc Hse ltac:(lia)))), H.
    + intros it r it' Hr Hi H.
      destruct (range_ok_bounds m r Hb (Hrs _ _ Hr)) as (c & Hc & Hse & He).
      unfold MAX_KEYS_ON_STACK in He.
      eapply (proj2 (proj2 (stepped_iterators_ok m (range_ it) r c it Hr Hc Hse
                              ltac:(lia)))); [reflexivity|exact Hi|exact H].
Qed.


Lemma example_within_stack_bound : within_stack_bound example_memory.
Proof.
  intros p c H. cbn [example_memory contexts] in H.
  apply lookup_singleton_Some in H as [_ <-]. vm_compute. split; discriminate.
Qed.

Lemma example_ranges_ok : ranges_ok example_memory.
Proof.
  intros a r H. cbn [example_memory ranges] in H.
  assert (r = example_range) as ->.
  { rewrite lookup_insert in H. case_decide; [congruence|].
    apply lookup_singleton_Some in H as [_ <-]. reflexivity. }
  exists example_ctx. split; [reflexivity|]. vm_compute. repeat split; discriminate.
Qed.

Lemma shift_amounts_stay_below_width_witness :
  is_returns (Range_empty 10 example_memory) /\
  is_returns (SkipKey 10 example_iterator example_memory) /\
  is_returns (MarkKeyDone 10 example_iterator example_memory) /\
  is_returns (CheckKeyDone 10 example_iterator example_memory) /\
  (forall i, 0 <= i -> is_returns (Iterator_ctor 10 i example_memory)) /\
  is_returns (Range_begin 10 example_memory) /\
  is_returns (Range_end 10 example_memory) /\
  is_returns (Iterator_incr example_iterator example_memory).
Proof.
  apply (proj1 (proj2 (proj2 shift_amounts_stay_below_width))
           example_memory 10%positive example_range example_iterator).
  - exact example_within_stack_bound.
  - exact example_ranges_ok.
  - reflexivity.
  - exists example_range. split; [reflexivity|]. cbn. lia.
Defined.

End MultiGetFacts.

(** ** Properties of the asynchronous read coordinator *)

Module AsyncReaderFacts.
Import AsyncReader.Awaiter.
Import AsyncReader.

Lemma load_some w p a : awaiters w !! p = Some a -> load p w = Returns (a, w).
Proof. intros H. unfold load. now rewrite H. Qed.

Lemma at_index_some {S A} (l : list A) i x (s : S) :
  l !! Z.to_nat i = Some x -> at_index l i s = Returns (x, s).
Proof. intros H. unfold at_index. now rewrite H. Qed.

Lemma world_eta w : mkWorld (awaiters w) (reader w) (trace w) = w.
Proof. now destruct w. Qed.

Lemma collect_loop_unfold fuel waiter io_handles :
  collect_loop fuel waiter io_handles
  = (let* a := load waiter in
     let* io_handles := gather_handles (Z.to_nat (Awaiter.num_reqs_ a)) 0 a io_handles in
     let* rd := this_reader in
     if bool_decide (Some waiter <> tail_ rd) then
       match next_ a with
       | Some n =>
           match fuel with
           | O => out_of_fuel
           | S fuel' => collect_loop fuel' n io_handles
           end
       | None => ret io_handles
       end
     else ret io_handles).
Proof. destruct fuel; reflexivity. Qed.

Lemma resume_loop_unfold fuel :
  resume_loop fuel
  = (let* rd := this_reader in
     match head_ rd with
     | None => undefined BadPointer
     | Some waiter =>
         let* a := load waiter in
         let* _ := set_reader (mkAsyncFileReader (next_ a) (tail_ rd) (num_reqs_ rd)) in
         let* _ := for_loop (Z.to_nat (Awaiter.num_reqs_ a)) 0 (cleanup_request a) in
         let* _ := emit (EvResume waiter (awaiting_coro_ a)) in
         let* rd := this_reader in
         if bool_decide (Some waiter <> tail_ rd) then
           match fuel with
           | O => out_of_fuel
           | S fuel' => resume_loop fuel'
           end
         else ret tt
     end).
Proof. destruct fuel; reflexivity. Qed.

(** *** The two loops of [Wait] *)

Lemma gather_handles_spec aw :
  forall n i acc (w : world),
    0 <= i -> (Z.to_nat i + n <= length (io_handle_ aw))%nat ->
    gather_handles n i aw acc w
    = Returns (acc ++ omap id (take n (drop (Z.to_nat i) (io_handle_ aw))), w).
Proof.
  induction n as [|n IH]; intros i acc w Hi Hlen; cbn [gather_handles].
  - unfold ret. now rewrite take_0, app_nil_r.
  - destruct (lookup_lt_is_Some_2 (io_handle_ aw) (Z.to_nat i)) as [h Hh]; [lia|].
    rewrite (bind_returns _ _ _ _ _ (at_index_some _ _ _ w Hh)).
    rewrite IH by lia.
    replace (Z.to_nat (i + 1)) with (S (Z.to_nat i)) by lia.
    rewrite (drop_S _ _ _ Hh). cbn [take omap]. unfold push_back.
    destruct h as [x|]; cbn; [now rewrite <- app_assoc|reflexivity].
Qed.

Lemma handles_of_gather aw acc (w : world) :
  slots_ok aw ->
  gather_handles (Z.to_nat (Awaiter.num_reqs_ aw)) 0 aw acc w
  = Returns (acc ++ handles_of aw, w).
Proof.
  intros (H0 & Hh & _). rewrite gather_handles_spec by (cbn; lia).
  reflexivity.
Qed.

Lemma collect_loop_spec w t :
  tail_ (reader w) = Some t ->
  forall l fuel a acc,
    linked (awaiters w) (a :: l) t ->
    (forall x, x ∈ a :: l -> exists aw, awaiters w !! x = Some aw /\ slots_ok aw) ->
    (length l <= fuel)%nat ->
    collect_loop fuel a acc w
    = Returns (acc ++ concat (map (handles_at (awaiters w)) (a :: l)), w).
Proof.
  intros Ht. induction l as [|b l IH]; intros fuel a acc Hl Hs Hfuel;
    rewrite collect_loop_unfold.
  - destruct Hl as [-> _].
    destruct (Hs a) as (aw & Haw & Hok); [left|].
    rewrite (bind_returns _ _ _ _ _ (load_some w a aw Haw)).
    rewrite (bind_returns _ _ _ _ _ (handles_of_gather aw acc w Hok)).
    unfold bind, this_reader. rewrite Ht.
    rewrite bool_decide_eq_false_2 by (intros H; now apply H).
    unfold ret. cbn [map concat]. unfold handles_at. rewrite Haw.
    now rewrite app_nil_r.
  - destruct Hl as (Hne & (aw & Haw & Hnext) & Hl).
    destruct (Hs a) as (aw' & Haw' & Hok); [left|].
    rewrite Haw in Haw'. injection Haw' as <-.
    rewrite (bind_returns _ _ _ _ _ (load_some w a aw Haw)).
    rewrite (bind_returns _ _ _ _ _ (handles_of_gather aw acc w Hok)).
    unfold bind at 1. unfold this_reader. rewrite Ht.
    rewrite bool_decide_eq_true_2 by congruence.
    rewrite Hnext. destruct fuel as [|fuel]; [cbn in Hfuel; lia|].
    rewrite IH; [| assumption | | cbn in Hfuel; lia].
    + cbn [map concat].
      replace (handles_at (awaiters w) a) with (handles_of aw)
        by (unfold handles_at; now rewrite Haw).
      now rewrite <- (app_assoc acc).
    + intros x Hx. apply Hs. now right.
Qed.

Lemma cleanup_request_spec aw i (w : world) h d :
  io_handle_ aw !! Z.to_nat i = Some h -> del_fn_ aw !! Z.to_nat i = Some d ->
  cleanup_request aw i w
  = Returns (tt, mkWorld (awaiters w) (reader w)
                   (trace w ++ omap cleanup_event [(h, d)])).
Proof.
  intros Hh Hd. unfold cleanup_request.
  rewrite (bind_returns _ _ _ _ _ (at_index_some _ _ _ w Hh)).
  destruct h as [x|].
  - rewrite (bind_returns _ _ _ _ _ (at_index_some _ _ _ w Hd)).
    destruct d as [f|]; [reflexivity|].
    unfold ret. cbn. now rewrite app_nil_r, world_eta.
  - unfold ret. cbn. now rewrite app_nil_r, world_eta.
Qed.

Lemma cleanup_loop_spec aw :
  forall n i (w : world),
    0 <= i ->
    (Z.to_nat i + n <= length (io_handle_ aw))%nat ->
    (Z.to_nat i + n <= length (del_fn_ aw))%nat ->
    for_loop n i (cleanup_request aw) w
    = Returns (tt, mkWorld (awaiters w) (reader w)
                     (trace w ++
                      omap cleanup_event
                        (zip (take n (drop (Z.to_nat i) (io_handle_ aw)))
                             (take n (drop (Z.to_nat i) (del_fn_ aw)))))).
Proof.
  induction n as [|n IH]; intros i w Hi Hh Hd; cbn [for_loop].
  - unfold ret. rewrite !take_0. cbn. now rewrite app_nil_r, world_eta.
  - destruct (lookup_lt_is_Some_2 (io_handle_ aw) (Z.to_nat i)) as [h Hhx]; [lia|].
    destruct (lookup_lt_is_Some_2 (del_fn_ aw) (Z.to_nat i)) as [d Hdx]; [lia|].
    rewrite (bind_returns _ _ _ _ _ (cleanup_request_spec aw i w h d Hhx Hdx)).
    rewrite IH by (cbn [awaiters reader trace]; lia).
    cbn [awaiters reader trace].
    replace (Z.to_nat (i + 1)) with (S (Z.to_nat i)) by lia.
    rewrite (drop_S _ _ _ Hhx), (drop_S _ _ _ Hdx).
    do 3 f_equal. rewrite <- app_assoc. f_equal.
    cbn. destruct h, d; reflexivity.
Qed.

Lemma cleanup_of_loop aw (w : world) :
  slots_ok aw ->
  for_loop (Z.to_nat (Awaiter.num_reqs_ aw)) 0 (cleanup_request aw) w
  = Returns (tt, mkWorld (awaiters w) (reader w) (trace w ++ cleanup_of aw)).
Proof.
  intros (H0 & Hh & Hd). rewrite cleanup_loop_spec by (cbn; lia). reflexivity.
Qed.

Lemma resume_loop_spec :
  forall l fuel a t (w : world),
    head_ (reader w) = Some a -> tail_ (reader w) = Some t ->
    linked (awaiters w) (a :: l) t ->
    (forall x, x ∈ a :: l -> exists aw, awaiters w !! x = Some aw /\ slots_ok aw) ->
    (length l <= fuel)%nat ->
    exists h',
      resume_loop fuel w
      = Returns (tt, mkWorld (awaiters w)
                       (mkAsyncFileReader h' (Some t) (num_reqs_ (reader w)))
                       (trace w ++ concat (map (resumed_at (awaiters w)) (a :: l)))).
Proof.
  induction l as [|b l IH]; intros fuel a t w Hh Ht Hl Hs Hfuel;
    rewrite resume_loop_unfold.
  - destruct Hl as [-> _].
    destruct (Hs a) as (aw & Haw & Hok); [left|].
    unfold bind at 1. unfold this_reader at 1. rewrite Hh.
    rewrite (bind_returns _ _ _ _ _ (load_some w a aw Haw)).
    unfold bind at 1. unfold set_reader at 1.
    rewrite (bind_returns _ _ _ _ _ (cleanup_of_loop aw _ Hok)).
    cbn [awaiters reader trace]. unfold bind, emit, this_reader.
    cbn [awaiters reader trace tail_]. rewrite Ht.
    rewrite bool_decide_eq_false_2 by (intros H; now apply H).
    exists (next_ aw). unfold ret. cbn [map concat]. unfold resumed_at. rewrite Haw.
    now rewrite app_nil_r, <- app_assoc.
  - destruct Hl as (Hne & (aw & Haw & Hnext) & Hl).
    destruct (Hs a) as (aw' & Haw' & Hok); [left|].
    rewrite Haw in Haw'. injection Haw' as <-.
    unfold bind at 1. unfold this_reader at 1. rewrite Hh.
    rewrite (bind_returns _ _ _ _ _ (load_some w a aw Haw)).
    unfold bind at 1. unfold set_reader at 1.
    rewrite (bind_returns _ _ _ _ _ (cleanup_of_loop aw _ Hok)).
    cbn [awaiters reader trace]. unfold bind at 1. unfold emit at 1.
    cbn [awaiters reader trace]. unfold bind at 1. unfold this_reader at 1.
    cbn [awaiters reader trace tail_]. rewrite Ht.
    rewrite bool_decide_eq_true_2 by congruence.
    destruct fuel as [|fuel]; [cbn in Hfuel; lia|].
    match goal with |- context [resume_loop fuel ?w'] => set (w1 := w') end.
    destruct (IH fuel b t w1) as (h' & Hrun).
    + exact Hnext.
    + reflexivity.
    + exact Hl.
    + intros x Hx. apply Hs. now right.
    + cbn in Hfuel. lia.
    + rewrite Hrun. subst w1. cbn [awaiters reader trace head_ tail_ num_reqs_].
      exists h'. do 3 f_equal. cbn [map concat].
      replace (resumed_at (awaiters w) a)
        with (cleanup_of aw ++ [EvResume a (awaiting_coro_ aw)])
        by (unfold resumed_at; now rewrite Haw).
      now rewrite <- !app_assoc.
Qed.


(** *** [Wait] as a whole *)

Lemma pending_fits_store (ws : gmap addr ReadAwaiter) (l : list addr) :
  NoDup l -> (forall a, a ∈ l -> is_Some (ws !! a)) -> (length l <= size ws)%nat.
Proof.
  intros Hnd Hin.
  rewrite <- (size_list_to_set (C := gset addr) l Hnd), <- size_dom.
  apply subseteq_size. intros a Ha. apply elem_of_list_to_set in Ha.
  apply elem_of_dom. now apply Hin.
Qed.

Lemma Wait_spec w l :
  pending w l ->
  Wait w
  = Returns (tt, match l with
                 | [] => w
                 | _ :: _ =>
                     mkWorld (awaiters w) AsyncFileReader_new
                       (trace w ++ drained (awaiters w) l (num_reqs_ (reader w)))
                 end).
Proof.
  intros (Hends & Hnd & Hs & Hnum). unfold Wait.
  destruct l as [|a l].
  - destruct Hends as [Hh _]. unfold bind, this_reader. now rewrite Hh.
  - destruct Hends as (Hh & t & Ht & Hl).
    unfold bind at 1. unfold this_reader at 1. rewrite Hh.
    unfold bind at 1. unfold get at 1.
    assert (Hfuel : (length l <= size (awaiters w))%nat).
    { pose proof (pending_fits_store (awaiters w) (a :: l) Hnd) as Hfit.
      cbn [length] in Hfit. enough (S (length l) <= size (awaiters w))%nat by lia.
      apply Hfit. intros x Hx. destruct (Hs x Hx) as (aw & -> & _). eauto. }
    rewrite (bind_returns _ _ _ _ _
               (collect_loop_spec w t Ht l _ a [] Hl Hs Hfuel)).
    cbn [app].
    set (hs := concat (map (handles_at (awaiters w)) (a :: l))).
    set (w1 := mkWorld (awaiters w) (reader w) (trace w ++ poll_of hs)).
    assert (Hpoll : (if (0 <? length hs)%nat
                     then emit (EvPoll hs (Z.of_nat (length hs)))
                     else ret tt) w = Returns (tt, w1)).
    { unfold w1, poll_of. destruct (0 <? length hs)%nat; [reflexivity|].
      unfold ret. now rewrite app_nil_r, world_eta. }
    rewrite (bind_returns _ _ _ _ _ Hpoll).
    destruct (resume_loop_spec l (size (awaiters w)) a t w1 Hh Ht Hl Hs Hfuel)
      as (h' & Hrun).
    rewrite (bind_returns _ _ _ _ _ Hrun).
    unfold w1, drained. cbn [awaiters reader trace].
    unfold bind, this_reader, set_reader, emit.
    cbn [awaiters reader trace head_ tail_ num_reqs_].
    unfold AsyncFileReader_new. now rewrite <- !app_assoc.
Qed.


(** *** The vectors of a waiter during [MultiReadAsyncImpl] *)

Section Fill.
Context {A : Type} (x : nat -> option A).

Lemma length_written (l : list (option A)) i y : length (written l i y) = length l.
Proof. unfold written. destruct y; [apply length_insert|reflexivity]. Qed.

Lemma written_lookup_ne (l : list (option A)) i j y :
  i <> j -> written l i y !! j = l !! j.
Proof.
  intros Hne. unfold written. destruct y; [|reflexivity].
  now apply list_lookup_insert_ne.
Qed.

Lemma length_fill n : forall l i, length (fill x l i n) = (length l + n)%nat.
Proof.
  induction n as [|n IH]; intros l i; cbn [fill]; [lia|].
  rewrite IH, length_written, length_app. cbn. lia.
Qed.

Lemma fill_lookup_lt n :
  forall l i j, (j < i)%nat -> (i <= length l)%nat -> fill x l i n !! j = l !! j.
Proof.
  induction n as [|n IH]; intros l i j Hj Hi; cbn [fill]; [reflexivity|].
  rewrite IH; [|lia|rewrite length_written, length_app; cbn; lia].
  rewrite written_lookup_ne by lia. apply lookup_app_l. lia.
Qed.

Lemma from_option_snoc (l : list (option A)) j :
  from_option id None ((l ++ [None]) !! j) = from_option id None (l !! j).
Proof.
  destruct (Nat.lt_trichotomy j (length l)) as [Hlt|[->|Hgt]].
  - now rewrite lookup_app_l.
  - rewrite lookup_app_r, Nat.sub_diag by lia.
    now rewrite (lookup_ge_None_2 l (length l)).
  - rewrite !lookup_ge_None_2; [reflexivity|lia|rewrite length_app; cbn; lia].
Qed.

Lemma fill_lookup_in n :
  forall l i j, (i <= j < i + n)%nat -> (i <= length l)%nat ->
  fill x l i n !! j
  = Some (match x j with
          | Some h => Some h
          | None => from_option id None (l !! j)
          end).
Proof.
  induction n as [|n IH]; intros l i j Hj Hi; cbn [fill]; [lia|].
  destruct (Nat.eq_dec j i) as [->|Hne].
  - rewrite fill_lookup_lt; [|lia|rewrite length_written, length_app; cbn; lia].
    unfold written. destruct (x i) as [h|].
    + apply list_lookup_insert_eq. rewrite length_app. cbn. lia.
    + rewrite <- from_option_snoc.
      destruct (lookup_lt_is_Some_2 (l ++ [None]) i) as [v ->]; [|reflexivity].
      rewrite length_app. cbn. lia.
  - rewrite IH; [|lia|rewrite length_written, length_app; cbn; lia].
    rewrite written_lookup_ne by lia. now rewrite from_option_snoc.
Qed.
End Fill.

Lemma fill_lookup_ge {A} (x : nat -> option A) n :
  forall l i j, (i + n <= j)%nat ->
  fill x l i n !! j = (l ++ replicate n None) !! j.
Proof.
  induction n as [|n IH]; intros l i j Hj; cbn [fill replicate].
  - now rewrite app_nil_r.
  - rewrite IH by lia.
    replace (l ++ None :: replicate n None) with ((l ++ [None]) ++ replicate n None)
      by (now rewrite <- app_assoc).
    destruct (Nat.lt_ge_cases j (length (l ++ [None]))) as [Hlt|Hge].
    + rewrite !lookup_app_l by (rewrite ?length_written; assumption).
      apply written_lookup_ne. lia.
    + rewrite !lookup_app_r by (rewrite ?length_written; assumption).
      now rewrite length_written.
Qed.

Lemma resize_nil {A} n : resize n (@nil (option A)) = replicate (Z.to_nat n) None.
Proof. unfold resize. now rewrite take_nil, Nat.sub_0_r. Qed.

Lemma length_resize {A} n (l : list (option A)) :
  0 <= n -> length (resize n l) = Z.to_nat n.
Proof.
  intros Hn. unfold resize. rewrite length_app, length_take, length_replicate. lia.
Qed.

Lemma write_back_spec {S A} (l : list (option A)) i y (s : S) :
  0 <= i -> (Z.to_nat i < length l)%nat ->
  write_back l i y s = Returns (written l (Z.to_nat i) y, s).
Proof.
  intros Hi Hlt. unfold write_back, written. destruct y as [v|].
  - unfold set_index. destruct (Nat.ltb_spec (Z.to_nat i) (length l)); [reflexivity|lia].
  - destruct (lookup_lt_is_Some_2 l (Z.to_nat i) Hlt) as [v Hv].
    now rewrite (bind_returns _ _ _ _ _ (at_index_some _ _ _ s Hv)).
Qed.

Lemma submit_request_spec p i w aw req :
  awaiters w !! p = Some aw -> 0 <= i ->
  read_reqs_ aw !! Z.to_nat i = Some req ->
  (Z.to_nat i <= length (io_handle_ aw))%nat ->
  (Z.to_nat i <= length (del_fn_ aw))%nat ->
  submit_request p i w
  = Returns (tt, mkWorld
                   (<[p := with_slots aw
                             (written (io_handle_ aw ++ [None]) (Z.to_nat i)
                                (handle_from aw (Z.to_nat i)))
                             (written (del_fn_ aw ++ [None]) (Z.to_nat i)
                                (deleter_from aw (Z.to_nat i)))]> (awaiters w))
                   (reader w) (trace w ++ [EvReadAsync p i req])).
Proof.
  intros Haw Hi Hreq Hh Hd. unfold submit_request.
  rewrite (bind_returns _ _ _ _ _ (load_some w p aw Haw)).
  unfold bind at 1. unfold store at 1.
  unfold bind at 1. unfold load at 1. cbn [awaiters]. rewrite lookup_insert_eq.
  unfold bind at 1. unfold store at 1. cbn [awaiters reader trace].
  unfold bind at 1. unfold load at 1. cbn [awaiters]. rewrite lookup_insert_eq.
  cbn [file_ read_reqs_ io_handle_ del_fn_ awaiting_coro_ next_ Awaiter.num_reqs_].
  rewrite (bind_returns _ _ _ _ _ (at_index_some _ _ _ _ Hreq)).
  unfold bind at 1. unfold emit at 1. cbn [awaiters reader trace].
  unfold push_back.
  assert (Hh' : (Z.to_nat i < length (io_handle_ aw ++ [None]))%nat)
    by (rewrite length_app; cbn; lia).
  assert (Hd' : (Z.to_nat i < length (del_fn_ aw ++ [None]))%nat)
    by (rewrite length_app; cbn; lia).
  rewrite (bind_returns _ _ _ _ _ (write_back_spec _ i _ _ Hi Hh')).
  rewrite (bind_returns _ _ _ _ _ (write_back_spec _ i _ _ Hi Hd')).
  unfold store. cbn [awaiters reader trace].
  rewrite !insert_insert_eq. unfold handle_from, deleter_from. rewrite Hreq.
  reflexivity.
Qed.

Lemma submit_loop_spec p :
  forall n i w aw,
    awaiters w !! p = Some aw -> 0 <= i ->
    (Z.to_nat i + n <= length (read_reqs_ aw))%nat ->
    (Z.to_nat i <= length (io_handle_ aw))%nat ->
    (Z.to_nat i <= length (del_fn_ aw))%nat ->
    for_loop n i (submit_request p) w
    = Returns (tt, mkWorld
                     (<[p := with_slots aw
                               (fill (handle_from aw) (io_handle_ aw) (Z.to_nat i) n)
                               (fill (deleter_from aw) (del_fn_ aw) (Z.to_nat i) n)]>
                        (awaiters w))
                     (reader w) (trace w ++ submissions p aw i n)).
Proof.
  induction n as [|n IH]; intros i w aw Haw Hi Hr Hh Hd; cbn [for_loop fill].
  - unfold ret, submissions. rewrite seqZ_nil by lia. cbn.
    rewrite app_nil_r. f_equal. f_equal.
    replace (with_slots aw (io_handle_ aw) (del_fn_ aw)) with aw by now destruct aw.
    rewrite insert_id by assumption. now rewrite world_eta.
  - destruct (lookup_lt_is_Some_2 (read_reqs_ aw) (Z.to_nat i)) as [req Hreq]; [lia|].
    rewrite (bind_returns _ _ _ _ _ (submit_request_spec p i w aw req Haw Hi Hreq Hh Hd)).
    rewrite (IH (i + 1) _ _ (lookup_insert_eq _ _ _));
      cbn [awaiters reader trace with_slots read_reqs_ io_handle_ del_fn_
             file_ awaiting_coro_ next_ Awaiter.num_reqs_];
      try (rewrite ?length_written, ?length_app; cbn; lia).
    rewrite insert_insert_eq.
    replace (Z.to_nat (i + 1)) with (S (Z.to_nat i)) by lia.
    do 3 f_equal.
    unfold submissions. rewrite (seqZ_cons i) by lia. cbn [omap list_omap].
    cbn [read_reqs_]. rewrite Hreq, <- app_assoc. cbn [app with_slots read_reqs_].
    replace (Z.succ i) with (i + 1) by lia.
    replace (Z.pred (Z.of_nat (S n))) with (Z.of_nat n) by lia.
    reflexivity.
Qed.


Lemma MultiReadAsyncImpl_spec w p aw :
  awaiters w !! p = Some aw ->
  (forall t, tail_ (reader w) = Some t -> t <> p /\ is_Some (awaiters w !! t)) ->
  0 <= Awaiter.num_reqs_ aw ->
  (Z.to_nat (Awaiter.num_reqs_ aw) <= length (read_reqs_ aw))%nat ->
  MultiReadAsyncImpl p w = Returns (true, after_enqueue w p aw).
Proof.
  intros Haw Htail Hk Hreqs. unfold MultiReadAsyncImpl, after_enqueue, relinked.
  unfold bind at 1. unfold this_reader at 1.
  set (ws1 := match tail_ (reader w) with
              | Some t => match awaiters w !! t with
                          | Some ta => <[t := with_next ta (Some p)]> (awaiters w)
                          | None => awaiters w
                          end
              | None => awaiters w
              end).
  assert (Hlink : (match tail_ (reader w) with
                   | Some t =>
                       let* ta := load t in
                       store t (mkReadAwaiter (file_ ta) (read_reqs_ ta)
                                  (Awaiter.num_reqs_ ta) (io_handle_ ta) (del_fn_ ta)
                                  (awaiting_coro_ ta) (Some p))
                   | None => ret tt
                   end) w = Returns (tt, mkWorld ws1 (reader w) (trace w))).
  { subst ws1. destruct (tail_ (reader w)) as [t|] eqn:Ht.
    - destruct (Htail t eq_refl) as [_ [ta Hta]].
      rewrite (bind_returns _ _ _ _ _ (load_some w t ta Hta)). now rewrite Hta.
    - unfold ret. now rewrite world_eta. }
  assert (Hp1 : ws1 !! p = Some aw).
  { subst ws1. destruct (tail_ (reader w)) as [t|] eqn:Ht; [|assumption].
    destruct (Htail t eq_refl) as [Hne [ta Hta]]. rewrite Hta.
    now rewrite lookup_insert_ne. }
  rewrite (bind_returns _ _ _ _ _ Hlink). clearbody ws1.
  unfold bind at 1. unfold set_reader at 1. cbn [awaiters reader trace].
  unfold bind at 1. unfold this_reader at 1. cbn [awaiters reader trace head_ tail_ num_reqs_].
  set (h' := match head_ (reader w) with Some h => Some h | None => Some p end).
  assert (Hhead : (match head_ (reader w) with
                   | None => set_reader (mkAsyncFileReader (Some p) (Some p)
                                           (num_reqs_ (reader w)))
                   | Some _ => ret tt
                   end)
                    (mkWorld ws1 (mkAsyncFileReader (head_ (reader w)) (Some p)
                                    (num_reqs_ (reader w))) (trace w))
                  = Returns (tt, mkWorld ws1 (mkAsyncFileReader h' (Some p)
                                                (num_reqs_ (reader w))) (trace w))).
  { subst h'. destruct (head_ (reader w)); reflexivity. }
  rewrite (bind_returns _ _ _ _ _ Hhead). clearbody h'.
  unfold bind at 1. unfold load at 1. cbn [awaiters]. rewrite Hp1.
  unfold bind at 1. unfold this_reader at 1. cbn [reader].
  unfold bind at 1. unfold set_reader at 1. cbn [awaiters reader trace head_ tail_ num_reqs_].
  unfold bind at 1. unfold store at 1. cbn [awaiters reader trace].
  unfold bind at 1. unfold load at 1. cbn [awaiters]. rewrite lookup_insert_eq.
  unfold bind at 1. unfold store at 1. cbn [awaiters reader trace].
  cbn [file_ read_reqs_ io_handle_ del_fn_ awaiting_coro_ next_ Awaiter.num_reqs_].
  rewrite insert_insert_eq.
  set (aw2 := mkReadAwaiter _ _ _ _ _ _ _).
  match goal with |- bind _ _ ?w' = _ => set (w2 := w') end.
  assert (Hloop : for_loop (Z.to_nat (Awaiter.num_reqs_ aw)) 0 (submit_request p) w2
                  = Returns (tt, mkWorld
                       (<[p := with_slots aw2
                                 (fill (handle_from aw2) (io_handle_ aw2) (Z.to_nat 0)
                                    (Z.to_nat (Awaiter.num_reqs_ aw)))
                                 (fill (deleter_from aw2) (del_fn_ aw2) (Z.to_nat 0)
                                    (Z.to_nat (Awaiter.num_reqs_ aw)))]> (awaiters w2))
                       (reader w2)
                       (trace w2 ++ submissions p aw2 0 (Z.to_nat (Awaiter.num_reqs_ aw))))).
  { apply submit_loop_spec.
    - subst w2. cbn [awaiters]. apply lookup_insert_eq.
    - lia.
    - subst aw2. cbn [read_reqs_]. lia.
    - lia.
    - lia. }
  rewrite (bind_returns _ _ _ _ _ Hloop). subst w2 aw2.
  cbn [awaiters reader trace]. rewrite insert_insert_eq. reflexivity.
Qed.


(** *** Enqueueing keeps the list in the order of arrival *)

Lemma linked_tail ws l t : linked ws l t -> t ∈ l /\ is_Some (ws !! t).
Proof.
  induction l as [|a l IH]; cbn [linked]; [tauto|].
  destruct l as [|b l].
  - intros [-> H]. split; [left|assumption].
  - intros (_ & _ & H). destruct (IH H) as [Hin Hs]. split; [now right|assumption].
Qed.

Lemma linked_snoc ws l t p ta x :
  linked ws l t -> p ∉ l -> ws !! t = Some ta ->
  linked (<[p := x]> (<[t := with_next ta (Some p)]> ws)) (l ++ [p]) p.
Proof.
  intros Hl Hp Hta. induction l as [|a l IH]; [destruct Hl|].
  assert (Hap : a <> p) by (intros ->; apply Hp; left).
  assert (Hpl : p ∉ l) by (intros H; apply Hp; now right).
  cbn [linked] in Hl. destruct l as [|b l].
  - destruct Hl as [-> _]. cbn [app linked]. split; [assumption|]. split.
    + exists (with_next ta (Some p)). split; [|reflexivity].
      rewrite lookup_insert_ne by congruence. apply lookup_insert_eq.
    + split; [reflexivity|]. rewrite lookup_insert_eq. eauto.
  - destruct Hl as (Hne & (aw & Haw & Hnext) & Hl).
    change ((a :: b :: l) ++ [p]) with (a :: (b :: l) ++ [p]).
    cbn [linked app]. split; [assumption|]. split.
    + exists aw. split; [|assumption].
      rewrite !lookup_insert_ne by congruence. assumption.
    + apply IH; assumption.
Qed.

Lemma total_reqs_app ws l1 l2 :
  total_reqs ws (l1 ++ l2) = total_reqs ws l1 + total_reqs ws l2.
Proof.
  unfold total_reqs. induction l1 as [|a l1 IH]; cbn [app foldr]; [lia|].
  rewrite IH. lia.
Qed.

Lemma total_reqs_ext ws ws' l :
  (forall a, a ∈ l -> reqs_at ws' a = reqs_at ws a) ->
  total_reqs ws' l = total_reqs ws l.
Proof.
  unfold total_reqs. induction l as [|a l IH]; intros H; cbn [foldr]; [reflexivity|].
  rewrite H by left. rewrite IH; [reflexivity|]. intros b Hb. apply H. now right.
Qed.

Lemma slots_ok_enqueued aw :
  0 <= Awaiter.num_reqs_ aw -> slots_ok (enqueued aw).
Proof.
  intros Hk. unfold slots_ok, enqueued.
  cbn [Awaiter.num_reqs_ io_handle_ del_fn_].
  rewrite !length_fill, !length_resize by assumption. lia.
Qed.

Lemma enqueue_keeps_pending w l p aw :
  pending w l -> p ∉ l -> awaiters w !! p = Some aw ->
  0 <= Awaiter.num_reqs_ aw ->
  pending (after_enqueue w p aw) (l ++ [p]).
Proof.
  intros (Hends & Hnd & Hs & Hnum) Hp Haw Hk.
  assert (Hother : forall a, a ∈ l ->
            exists aw0 aw1, awaiters w !! a = Some aw0 /\
              awaiters (after_enqueue w p aw) !! a = Some aw1 /\
              Awaiter.num_reqs_ aw1 = Awaiter.num_reqs_ aw0 /\
              io_handle_ aw1 = io_handle_ aw0 /\ del_fn_ aw1 = del_fn_ aw0).
  { intros a Ha. destruct (Hs a Ha) as (aw0 & Haw0 & _). exists aw0.
    assert (a <> p) by (intros ->; contradiction).
    unfold after_enqueue, relinked. cbn [awaiters].
    rewrite lookup_insert_ne by congruence.
    destruct (tail_ (reader w)) as [t|]; [|eauto 10].
    destruct (awaiters w !! t) as [ta|] eqn:Hta; [|eauto 10].
    destruct (decide (t = a)) as [->|Hne].
    - rewrite lookup_insert_eq. rewrite Haw0 in Hta. injection Hta as <-.
      exists (with_next aw0 (Some p)). auto.
    - rewrite lookup_insert_ne by assumption. eauto 10. }
  split; [|split; [|split]].
  - destruct l as [|a l].
    + destruct Hends as [Hh Ht]. cbn [app].
      unfold after_enqueue. cbn [reader head_ tail_ awaiters]. rewrite Hh.
      split; [reflexivity|]. exists p. split; [reflexivity|].
      cbn [linked]. split; [reflexivity|]. rewrite lookup_insert_eq. eauto.
    + destruct Hends as (Hh & t & Ht & Hl).
      change ((a :: l) ++ [p]) with (a :: l ++ [p]).
      unfold after_enqueue, relinked. cbn [reader head_ tail_ awaiters].
      rewrite Hh, Ht. split; [reflexivity|]. exists p. split; [reflexivity|].
      destruct (linked_tail _ _ _ Hl) as [_ [ta Hta]]. rewrite Hta.
      change (a :: l ++ [p]) with ((a :: l) ++ [p]).
      now apply linked_snoc.
  - apply NoDup_app. split; [assumption|]. split.
    + intros x Hx Hxp. apply list_elem_of_singleton in Hxp as ->. contradiction.
    + apply NoDup_singleton.
  - intros a Ha. apply elem_of_app in Ha as [Ha|Ha].
    + destruct (Hother a Ha) as (aw0 & aw1 & H0 & H1 & Hn & Hi & Hd).
      exists aw1. split; [assumption|].
      destruct (Hs a Ha) as (aw0' & H0' & Hok). rewrite H0 in H0'. injection H0' as <-.
      unfold slots_ok. rewrite Hn, Hi, Hd. exact Hok.
    + apply list_elem_of_singleton in Ha as ->. exists (enqueued aw).
      split; [apply lookup_insert_eq|]. now apply slots_ok_enqueued.
  - unfold after_enqueue at 1. cbn [reader num_reqs_].
    rewrite total_reqs_app, Hnum.
    rewrite (total_reqs_ext (awaiters w) (awaiters (after_enqueue w p aw)) l).
    + unfold total_reqs at 3. cbn [foldr]. unfold reqs_at at 1.
      unfold after_enqueue at 1. cbn [awaiters]. rewrite lookup_insert_eq.
      cbn [enqueued Awaiter.num_reqs_]. unfold wrap64.
      rewrite Z.add_0_r. apply Zplus_mod_idemp_l.
    + intros a Ha. destruct (Hother a Ha) as (aw0 & aw1 & H0 & H1 & Hn & _).
      unfold reqs_at. now rewrite H0, H1.
Qed.


(** *** Counting the polls of a trace *)

Lemma poll_count_app tr1 tr2 :
  poll_count (tr1 ++ tr2) = (poll_count tr1 + poll_count tr2)%nat.
Proof. unfold poll_count. now rewrite List.filter_app, length_app. Qed.

Lemma poll_count_cleanup l : poll_count (omap cleanup_event l) = 0%nat.
Proof.
  induction l as [|[[x|] [f|]] l IH]; cbn; try assumption; reflexivity.
Qed.

Lemma poll_count_resumed ws l : poll_count (concat (map (resumed_at ws) l)) = 0%nat.
Proof.
  induction l as [|a l IH]; cbn [map concat]; [reflexivity|].
  rewrite poll_count_app, IH. unfold resumed_at.
  destruct (ws !! a) as [aw|]; [|reflexivity].
  rewrite poll_count_app. unfold cleanup_of. now rewrite poll_count_cleanup.
Qed.

Lemma poll_count_drained ws l total :
  poll_count (drained ws l total)
  = if (0 <? length (concat (map (handles_at ws) l)))%nat then 1%nat else 0%nat.
Proof.
  unfold drained. rewrite !poll_count_app, poll_count_resumed. unfold poll_of.
  destruct (0 <? length (concat (map (handles_at ws) l)))%nat; reflexivity.
Qed.

Lemma pending_tail_fresh w l p :
  pending w l -> p ∉ l ->
  forall t, tail_ (reader w) = Some t -> t <> p /\ is_Some (awaiters w !! t).
Proof.
  intros (Hends & _) Hp t Ht. destruct l as [|a l].
  - destruct Hends as [_ Hnone]. congruence.
  - destruct Hends as (_ & t' & Ht' & Hl). rewrite Ht in Ht'. injection Ht' as <-.
    destruct (linked_tail _ _ _ Hl) as [Hin Hsome]. split; [|assumption].
    intros ->. contradiction.
Qed.

Lemma pending_drained ws tr : pending (mkWorld ws AsyncFileReader_new tr) [].
Proof.
  unfold pending. cbn. repeat split; auto using NoDup_nil_2.
  intros a Ha. now apply elem_of_nil in Ha.
Qed.

(** *** The properties of the specification *)

(** C2, as the specification words it, fails: a pending waiter whose one
    request got no handle from the file is drained without any poll, where
    the specification promises exactly one. *)
Lemma Wait_without_handles_issues_no_poll :
  pending silent_enqueued [1%positive] /\
  exists w', Wait silent_enqueued = Returns (tt, w') /\
             poll_count (trace w') = 0%nat /\ poll_count (trace w') <> 1%nat.
Proof.
  assert (Hp : pending silent_enqueued [1%positive]).
  { assert (H0 : pending silent_start []) by apply pending_drained.
    assert (Hin : 1%positive ∉ @nil addr) by apply not_elem_of_nil.
    pose proof (enqueue_keeps_pending silent_start [] 1%positive _ H0 Hin
                  eq_refl ltac:(cbn; lia)) as H1.
    exact H1. }
  split; [exact Hp|].
  eexists. split; [apply (Wait_spec _ _ Hp)|].
  cbn [trace]. split; [vm_compute; reflexivity|vm_compute; discriminate].
Qed.

(** C2, amended.  Waiters are appended to the pending list in the order in
    which they are enqueued.  With no waiter pending, [Wait] returns at once
    and changes nothing, the counter being zero.  Otherwise it gathers the
    non-null handles of all pending waiters, in list order; polls them in
    one call if there is at least one handle and not at all if there is
    none; then, waiter by waiter in list order, runs the cleanup function of
    each request that has both a handle and a cleanup function and resumes
    the waiter; records the request count; and leaves the coordinator empty
    with its counter at zero. *)
Theorem Wait_drains_pending_in_order :
  (forall w l p aw,
     pending w l -> p ∉ l -> awaiters w !! p = Some aw ->
     0 <= Awaiter.num_reqs_ aw ->
     (Z.to_nat (Awaiter.num_reqs_ aw) <= length (read_reqs_ aw))%nat ->
     exists w', MultiReadAsyncImpl p w = Returns (true, w') /\ pending w' (l ++ [p])) /\
  (forall w, pending w [] -> Wait w = Returns (tt, w) /\ num_reqs_ (reader w) = 0) /\
  (forall w a l,
     pending w (a :: l) ->
     exists w',
       Wait w = Returns (tt, w') /\
       trace w'
       = trace w ++
         poll_of (concat (map (handles_at (awaiters w)) (a :: l))) ++
         concat (map (resumed_at (awaiters w)) (a :: l)) ++
         [EvHistogram MULTIGET_IO_BATCH_SIZE (num_reqs_ (reader w))] /\
       poll_count (trace w')
       = (poll_count (trace w) +
          if (0 <? length (concat (map (handles_at (awaiters w)) (a :: l))))%nat
          then 1 else 0)%nat /\
       awaiters w' = awaiters w /\
       reader w' = AsyncFileReader_new /\
       pending w' []).
Proof.
  split; [|split].
  - intros w l p aw Hp Hfresh Haw Hk Hreqs. exists (after_enqueue w p aw). split.
    + apply MultiReadAsyncImpl_spec; try assumption.
      now apply (pending_tail_fresh w l p).
    + now apply enqueue_keeps_pending.
  - intros w Hp. split; [exact (Wait_spec w [] Hp)|].
    destruct Hp as (_ & _ & _ & ->). reflexivity.
  - intros w a l Hp. eexists. split; [exact (Wait_spec w (a :: l) Hp)|].
    cbn [trace awaiters reader]. split; [reflexivity|]. split.
    + now rewrite poll_count_app, poll_count_drained.
    + split; [reflexivity|]. split; [reflexivity|]. apply pending_drained.
Qed.

Lemma example_enqueued_pending : pending example_enqueued [1%positive; 2%positive].
Proof.
  assert (H0 : pending example_start []) by apply pending_drained.
  assert (Hin1 : 1%positive ∉ @nil addr) by apply not_elem_of_nil.
  pose proof (enqueue_keeps_pending example_start [] 1%positive _ H0 Hin1
                eq_refl ltac:(cbn; lia)) as H1.
  assert (Hin2 : 2%positive ∉ [1%positive]).
  { intros H. apply list_elem_of_singleton in H. discriminate. }
  pose proof (enqueue_keeps_pending _ [1%positive] 2%positive _ H1 Hin2
                eq_refl ltac:(cbn; lia)) as H2.
  exact H2.
Qed.

Lemma Wait_drains_pending_in_order_witness :
  exists w',
    Wait example_enqueued = Returns (tt, w') /\
    trace w'
    = trace example_enqueued ++
      poll_of (concat (map (handles_at (awaiters example_enqueued))
                         [1%positive; 2%positive])) ++
      concat (map (resumed_at (awaiters example_enqueued)) [1%positive; 2%positive]) ++
      [EvHistogram MULTIGET_IO_BATCH_SIZE (num_reqs_ (reader example_enqueued))] /\
    poll_count (trace w')
    = (poll_count (trace example_enqueued) +
       if (0 <? length (concat (map (handles_at (awaiters example_enqueued))
                                  [1%positive; 2%positive])))%nat
       then 1 else 0)%nat /\
    awaiters w' = awaiters example_enqueued /\
    reader w' = AsyncFileReader_new /\
    pending w' [].
Proof.
  apply (proj2 (proj2 Wait_drains_pending_in_order) example_enqueued 1%positive
           [2%positive]).
  exact example_enqueued_pending.
Defined.

(** C9, against the code.  After [MultiReadAsyncImpl] a waiter with [k]
    requests holds [2 * k] handle slots and [2 * k] cleanup slots, not [k]:
    the vectors are resized to [k] and then grow by one entry per request.
    For a waiter that arrives with empty vectors the first [k] entries are
    the ones the file filled in for the [k] requests, in order, and the
    last [k] are null; [Wait] reads the first [k]. *)
Theorem enqueue_leaves_two_slots_per_request w p aw :
  awaiters w !! p = Some aw ->
  (forall t, tail_ (reader w) = Some t -> t <> p /\ is_Some (awaiters w !! t)) ->
  0 <= Awaiter.num_reqs_ aw ->
  (Z.to_nat (Awaiter.num_reqs_ aw) <= length (read_reqs_ aw))%nat ->
  exists w' aw',
    MultiReadAsyncImpl p w = Returns (true, w') /\
    awaiters w' !! p = Some aw' /\
    Awaiter.num_reqs_ aw' = Awaiter.num_reqs_ aw /\
    length (io_handle_ aw') = (2 * Z.to_nat (Awaiter.num_reqs_ aw))%nat /\
    length (del_fn_ aw') = (2 * Z.to_nat (Awaiter.num_reqs_ aw))%nat /\
    (io_handle_ aw = [] -> del_fn_ aw = [] ->
     forall i, (i < 2 * Z.to_nat (Awaiter.num_reqs_ aw))%nat ->
       io_handle_ aw' !! i
       = Some (if (i <? Z.to_nat (Awaiter.num_reqs_ aw))%nat
               then handle_from aw i else None) /\
       del_fn_ aw' !! i
       = Some (if (i <? Z.to_nat (Awaiter.num_reqs_ aw))%nat
               then deleter_from aw i else None)).
Proof.
  intros Haw Htail Hk Hreqs.
  exists (after_enqueue w p aw), (enqueued aw).
  split; [now apply MultiReadAsyncImpl_spec|].
  split; [apply lookup_insert_eq|]. split; [reflexivity|].
  unfold enqueued. cbn [io_handle_ del_fn_].
  rewrite !length_fill, !length_resize by assumption.
  split; [lia|]. split; [lia|].
  intros Hio Hdel i Hi. rewrite Hio, Hdel, !resize_nil.
  destruct (Nat.ltb_spec i (Z.to_nat (Awaiter.num_reqs_ aw))) as [Hlt|Hge].
  - rewrite !fill_lookup_in by (rewrite ?length_replicate; lia).
    rewrite !lookup_replicate_2 by lia. cbn [from_option id].
    split; f_equal.
    + now destruct (handle_from aw i).
    + now destruct (deleter_from aw i).
  - rewrite !fill_lookup_ge by lia.
    rewrite !lookup_app_r by (rewrite length_replicate; lia).
    rewrite !lookup_replicate_2 by (rewrite length_replicate; lia).
    split; reflexivity.
Qed.

Lemma enqueue_leaves_two_slots_per_request_witness :
  exists w' aw',
    MultiReadAsyncImpl 1 example_start = Returns (true, w') /\
    awaiters w' !! 1%positive = Some aw' /\
    Awaiter.num_reqs_ aw' = 2 /\
    length (io_handle_ aw') = 4%nat /\
    length (del_fn_ aw') = 4%nat /\
    (@nil (option io_handle) = [] -> @nil (option deleter) = [] ->
     forall i, (i < 4)%nat ->
       io_handle_ aw' !! i
       = Some (if (i <? 2)%nat
               then handle_from (ReadAwaiter_new example_file
                                   [mkFSReadRequest 10 1; mkFSReadRequest 11 1] 2
                                   100%positive) i
               else None) /\
       del_fn_ aw' !! i
       = Some (if (i <? 2)%nat
               then deleter_from (ReadAwaiter_new example_file
                                    [mkFSReadRequest 10 1; mkFSReadRequest 11 1] 2
                                    100%positive) i
               else None)).
Proof.
  apply (enqueue_leaves_two_slots_per_request example_start 1%positive
           (ReadAwaiter_new example_file
              [mkFSReadRequest 10 1; mkFSReadRequest 11 1] 2 100%positive)).
  - reflexivity.
  - intros t Ht. discriminate.
  - cbn. lia.
  - cbn. lia.
Defined.

End AsyncReaderFacts.

(** ** More properties of the batch context *)

Module MultiGetUseFacts.
Import MultiGet.
Import MultiGetFacts.
Import MultiGetUse.

Lemma filter_nil_iff {A} (P : A -> Prop) `{!forall x, Decision (P x)} (l : list A) :
  filter P l = [] <-> forall x, x ∈ l -> ~ P x.
Proof.
  induction l as [|x l IH].
  - split; [|reflexivity]. intros _ y Hy. now apply elem_of_nil in Hy.
  - destruct (decide (P x)) as [HP|HP].
    + rewrite filter_cons_True by assumption. split; [discriminate|].
      intros Hall. exfalso. apply (Hall x); [left|assumption].
    + rewrite filter_cons_False by assumption. rewrite IH. split.
      * intros Hall y Hy. apply elem_of_cons in Hy as [->|Hy]; auto.
      * intros Hall y Hy. apply Hall. now right.
Qed.

Lemma empty_mask_zero_iff s e vm sm :
  0 <= s < 64 -> 0 <= e < 64 ->
  Z.land (Z.land (Z.land (pred64 (2 ^ e)) (not64 (pred64 (2 ^ s)))) (not64 vm))
         (not64 sm) = 0
  <-> forall i, s <= i < e -> Z.testbit (Z.lor vm sm) i = true.
Proof.
  intros Hs He. split.
  - intros H0 i Hi.
    assert (Hbit := empty_mask_bit s e vm sm i Hs He ltac:(lia)).
    rewrite H0, Z.bits_0 in Hbit.
    destruct (Z.leb_spec s i), (Z.ltb_spec i e); try lia.
    cbn in Hbit. destruct (Z.testbit _ i); [reflexivity|discriminate].
  - intros Hall. apply Z.bits_inj'. intros k Hk.
    rewrite empty_mask_bit, Z.bits_0 by assumption.
    destruct (Z.leb_spec s k), (Z.ltb_spec k e); try reflexivity.
    cbn. rewrite Hall by lia. reflexivity.
Qed.

Lemma Range_empty_blocked m a r c :
  ranges m !! a = Some r -> contexts m !! ctx_ r = Some c ->
  0 <= start_ r < 64 -> 0 <= end_ r < 64 ->
  exists e, Range_empty a m = Returns (e, m) /\
            (e = true <-> forall i, start_ r <= i < end_ r -> blocked c r i = true).
Proof.
  intros Hr Hc Hs He. eexists. split; [now apply (Range_empty_eval m a r c)|].
  rewrite Z.eqb_eq. now apply empty_mask_zero_iff.
Qed.

Lemma Iterator_eq_same m a r x y i j :
  ranges m !! a = Some r ->
  Iterator_eq (mkIterator a x i) (mkIterator a y j) m = Returns (i =? j, m).
Proof.
  intros Hr. unfold Iterator_eq. cbn [range_ index_]. load_steps.
  unfold assert, bind. now rewrite bool_decide_eq_true_2.
Qed.

Lemma stops_at_end_iff blk hi i j :
  stops_at blk hi i j -> i <= hi ->
  (j = hi <-> forall k, i <= k < hi -> blk k = true).
Proof.
  intros (Hle & Hall & Hstop) Hi. split.
  - intros -> k Hk. now apply Hall.
  - intros Hblk. destruct (Z.lt_trichotomy j hi) as [Hlt|[Heq|Hgt]]; [|assumption|].
    + rewrite Hblk in Hstop by lia. specialize (Hstop Hlt). discriminate.
    + destruct (Hall hi); lia.
Qed.

(** X1.  [empty()] and the iterators agree: [empty()] answers what
    [begin() == end()] answers, and it is true exactly when a traversal of
    the range visits nothing. *)
Theorem empty_iff_begin_is_end m a r c :
  ranges m !! a = Some r -> contexts m !! ctx_ r = Some c ->
  0 <= start_ r <= end_ r -> end_ r < 64 ->
  exists e b en l,
    Range_empty a m = Returns (e, m) /\
    Range_begin a m = Returns (b, m) /\
    Range_end a m = Returns (en, m) /\
    Iterator_eq b en m = Returns (e, m) /\
    iterate a no_body m = Returns (l, m) /\
    (e = true <-> l = []).
Proof.
  intros Hr Hc Hse He.
  destruct (Range_empty_blocked m a r c Hr Hc ltac:(lia) ltac:(lia)) as (e & Hempty & Hiff).
  destruct (Range_begin_spec m a r c Hr Hc ltac:(lia) ltac:(lia)) as (j & Hb & Hstop).
  pose proof (Range_end_spec m a r c Hr Hc ltac:(lia)) as Hen.
  pose proof (stops_at_end_iff _ _ _ _ Hstop ltac:(lia)) as Hj.
  exists e, (mkIterator a (ctx_ r) j), (mkIterator a (ctx_ r) (end_ r)).
  eexists. split; [exact Hempty|]. split; [exact Hb|]. split; [exact Hen|].
  split; [|split; [now apply (iterate_no_body m a r c); try lia|]].
  - rewrite (Iterator_eq_same m a r _ _ _ _ Hr). f_equal. f_equal.
    destruct e.
    + apply Z.eqb_eq, Hj, Hiff. reflexivity.
    + apply Z.eqb_neq. intros Heq.
      pose proof (proj2 Hiff (proj1 Hj Heq)). discriminate.
  - rewrite Hiff, filter_nil_iff. split.
    + intros Hall p Hp. apply elem_of_seqZ in Hp. rewrite Hall by lia. discriminate.
    + intros Hall i Hi. specialize (Hall i). rewrite elem_of_seqZ in Hall.
      destruct (blocked c r i); [reflexivity|]. exfalso. apply Hall; [lia|reflexivity].
Qed.

Lemma empty_iff_begin_is_end_witness :
  exists e b en l,
    Range_empty 10 example_memory = Returns (e, example_memory) /\
    Range_begin 10 example_memory = Returns (b, example_memory) /\
    Range_end 10 example_memory = Returns (en, example_memory) /\
    Iterator_eq b en example_memory = Returns (e, example_memory) /\
    iterate 10 no_body example_memory = Returns (l, example_memory) /\
    (e = true <-> l = []).
Proof.
  apply (empty_iff_begin_is_end example_memory 10%positive example_range example_ctx).
  - reflexivity.
  - reflexivity.
  - cbn. lia.
  - cbn. lia.
Defined.


(** *** Dereferencing *)

Lemma Iterator_deref_inside m it r c kc :
  ranges m !! range_ it = Some r -> contexts m !! it_ctx_ it = Some c ->
  start_ r <= index_ it < end_ r ->
  sorted_keys_ c !! Z.to_nat (index_ it) = Some kc ->
  Iterator_deref it m = Returns (kc, m) /\ Iterator_arrow it m = Returns (kc, m).
Proof.
  intros Hr Hc Hi Hk. unfold Iterator_deref, Iterator_arrow. load_steps.
  destruct (Z.ltb_spec (index_ it) (end_ r)), (Z.leb_spec (start_ r) (index_ it));
    try lia.
  unfold bind at 1 3. unfold assert. cbn [andb]. load_steps. rewrite Hk. now split.
Qed.

Lemma Iterator_deref_outside m it r :
  ranges m !! range_ it = Some r ->
  ~ start_ r <= index_ it < end_ r ->
  Iterator_deref it m = AssertFails /\ Iterator_arrow it m = AssertFails.
Proof.
  intros Hr Hi. unfold Iterator_deref, Iterator_arrow. load_steps.
  unfold bind, assert.
  destruct (Z.ltb_spec (index_ it) (end_ r)), (Z.leb_spec (start_ r) (index_ it));
    try lia; now split.
Qed.

Lemma spec_iterate_passive m a r c body :
  ranges m !! a = Some r -> contexts m !! ctx_ r = Some c ->
  forall positions,
    (forall p, p ∈ positions -> blocked c r p = false ->
               body (mkIterator a (ctx_ r) p) m = Returns (tt, m)) ->
    spec_iterate positions a body m = spec_iterate positions a no_body m.
Proof.
  intros Hr Hc. induction positions as [|p ps IH]; intros Hbody; [reflexivity|].
  cbn [spec_iterate]. load_steps.
  assert (IH' : spec_iterate ps a body m = spec_iterate ps a no_body m).
  { apply IH. intros q Hq. apply Hbody. now right. }
  destruct (blocked c r p) eqn:Hb; [exact IH'|].
  rewrite (bind_returns _ _ _ _ _ (Hbody p ltac:(left) Hb)).
  unfold no_body at 1. unfold bind at 3, ret at 2. unfold bind. now rewrite IH'.
Qed.

Lemma keeps_window_read_only a r (body : Iterator -> M memory unit) :
  (forall it, preserves eq (body it)) -> keeps_window a r body.
Proof. intros H it m m' Hw Hrun. now rewrite <- (H it m tt m' Hrun). Qed.

Lemma deref_body_read_only it : preserves eq (deref_body it).
Proof.
  unfold deref_body. apply preserves_discard; try congruence.
  apply preserves_Iterator_deref; congruence.
Qed.

Lemma wrapper_body_read_only {T} (vector : list T) it :
  preserves eq (wrapper_body vector it).
Proof.
  unfold wrapper_body, IteratorWrapper_deref. apply preserves_discard; try congruence.
  destruct (vector !! Z.to_nat (index_ it)).
  - apply preserves_ret. congruence.
  - apply preserves_undefined.
Qed.

Lemma iterate_deref_body m a r c :
  ranges m !! a = Some r -> contexts m !! ctx_ r = Some c ->
  0 <= start_ r <= end_ r -> end_ r <= 64 ->
  (Z.to_nat (end_ r) <= length (sorted_keys_ c))%nat ->
  iterate a deref_body m = iterate a no_body m.
Proof.
  intros Hr Hc Hse He Hlen.
  rewrite (iterate_refines m a r c deref_body Hr Hc Hse He
             (keeps_window_read_only a r _ deref_body_read_only)).
  rewrite (iterate_refines m a r c no_body Hr Hc Hse He (keeps_window_no_body a r)).
  apply (spec_iterate_passive m a r c); try assumption.
  intros p Hp _. apply elem_of_seqZ in Hp.
  destruct (lookup_lt_is_Some_2 (sorted_keys_ c) (Z.to_nat p)) as [kc Hkc]; [lia|].
  destruct (Iterator_deref_inside m (mkIterator a (ctx_ r) p) r c kc Hr Hc
              ltac:(cbn; lia) Hkc) as [Hd _].
  unfold deref_body, discard. now rewrite (bind_returns _ _ _ _ _ Hd).
Qed.

(** X2.  A traversal may look at every iterator it is handed: reading the
    key through [operator*], or an auxiliary vector of at least [end_]
    entries through the wrapper, never trips the bounds assertion nor leaves
    the vector, and the traversal visits what it visits without looking.
    For an iterator inside [start, end) both [operator*] and [operator->]
    give the key at its position; for one outside, [end()] included, they
    fail the assertion. *)
Theorem traversal_may_dereference m a r c :
  ranges m !! a = Some r -> contexts m !! ctx_ r = Some c ->
  0 <= start_ r <= end_ r -> end_ r <= 64 ->
  (Z.to_nat (end_ r) <= length (sorted_keys_ c))%nat ->
  iterate a deref_body m = iterate a no_body m /\
  (forall T (vector : list T),
     (Z.to_nat (end_ r) <= length vector)%nat ->
     iterate a (wrapper_body vector) m = iterate a no_body m) /\
  (forall i, start_ r <= i < end_ r ->
     exists kc, sorted_keys_ c !! Z.to_nat i = Some kc /\
                Iterator_deref (mkIterator a (ctx_ r) i) m = Returns (kc, m) /\
                Iterator_arrow (mkIterator a (ctx_ r) i) m = Returns (kc, m)) /\
  (forall i, ~ start_ r <= i < end_ r ->
     Iterator_deref (mkIterator a (ctx_ r) i) m = AssertFails /\
     Iterator_arrow (mkIterator a (ctx_ r) i) m = AssertFails) /\
  (exists en, Range_end a m = Returns (en, m) /\ Iterator_deref en m = AssertFails).
Proof.
  intros Hr Hc Hse He Hlen.
  assert (Hin : forall i, start_ r <= i < end_ r ->
            exists kc, sorted_keys_ c !! Z.to_nat i = Some kc /\
                       Iterator_deref (mkIterator a (ctx_ r) i) m = Returns (kc, m) /\
                       Iterator_arrow (mkIterator a (ctx_ r) i) m = Returns (kc, m)).
  { intros i Hi.
    destruct (lookup_lt_is_Some_2 (sorted_keys_ c) (Z.to_nat i)) as [kc Hkc]; [lia|].
    exists kc. split; [assumption|].
    now apply (Iterator_deref_inside m (mkIterator a (ctx_ r) i) r c kc). }
  split; [|split; [|split; [exact Hin|split]]].
  - now apply (iterate_deref_body m a r c).
  - intros T vector Hv.
    rewrite (iterate_refines m a r c (wrapper_body vector) Hr Hc Hse He
               (keeps_window_read_only a r _ (wrapper_body_read_only vector))).
    rewrite (iterate_refines m a r c no_body Hr Hc Hse He (keeps_window_no_body a r)).
    apply (spec_iterate_passive m a r c); try assumption.
    intros p Hp _. apply elem_of_seqZ in Hp.
    unfold wrapper_body, discard, IteratorWrapper_deref. cbn [index_].
    destruct (lookup_lt_is_Some_2 vector (Z.to_nat p)) as [x ->]; [lia|]. reflexivity.
  - intros i Hi. now apply (Iterator_deref_outside m (mkIterator a (ctx_ r) i) r).
  - eexists. split; [apply (Range_end_spec m a r c Hr Hc); lia|].
    apply (Iterator_deref_outside m (mkIterator a (ctx_ r) (end_ r)) r Hr). cbn. lia.
Qed.

Lemma traversal_may_dereference_witness :
  iterate 10 deref_body example_memory = iterate 10 no_body example_memory.
Proof.
  exact (proj1 (traversal_may_dereference example_memory 10%positive example_range
                  example_ctx eq_refl eq_refl ltac:(cbn; lia) ltac:(cbn; lia)
                  ltac:(vm_compute; lia))).
Defined.


(** *** Narrowing *)

Lemma filter_window_seqZ (P : Z -> Prop) `{!forall x, Decision (P x)} s e lo hi :
  s <= lo -> lo <= hi -> hi <= e ->
  filter (in_window lo hi) (filter P (seqZ s (e - s))) = filter P (seqZ lo (hi - lo)).
Proof.
  intros Hs Hl Hh.
  replace (e - s) with ((lo - s) + ((hi - lo) + (e - hi))) by lia.
  rewrite seqZ_app by lia. rewrite seqZ_app by lia.
  replace (s + (lo - s)) with lo by lia. replace (lo + (hi - lo)) with hi by lia.
  rewrite !filter_app.
  assert (H1 : filter (in_window lo hi) (filter P (seqZ s (lo - s))) = []).
  { apply filter_nil_iff. intros p Hp [? ?].
    apply list_elem_of_filter in Hp as [_ Hp]. apply elem_of_seqZ in Hp. lia. }
  assert (H3 : filter (in_window lo hi) (filter P (seqZ hi (e - hi))) = []).
  { apply filter_nil_iff. intros p Hp [? ?].
    apply list_elem_of_filter in Hp as [_ Hp]. apply elem_of_seqZ in Hp. lia. }
  assert (H2 : filter (in_window lo hi) (filter P (seqZ lo (hi - lo)))
               = filter P (seqZ lo (hi - lo))).
  { apply filter_all. intros p Hp.
    apply list_elem_of_filter in Hp as [_ Hp]. apply elem_of_seqZ in Hp.
    unfold in_window. lia. }
  rewrite H1, H2, H3. now rewrite app_nil_r.
Qed.

(** X3.  A sub-range sees what its parent sees, cut to its window: the
    traversal of the range built from a parent and two of its positions
    visits exactly the positions of the parent's traversal that lie between
    the two, in the same order. *)
Theorem sub_range_traversal_is_parent_window m this parent p c first last l :
  ranges m !! parent = Some p -> contexts m !! ctx_ p = Some c ->
  0 <= start_ p -> end_ p <= 64 ->
  start_ p <= index_ first -> index_ first <= index_ last -> index_ last <= end_ p ->
  iterate parent no_body m = Returns (l, m) ->
  exists m',
    Range_sub this parent first last m = Returns (tt, m') /\
    iterate this no_body m'
    = Returns (filter (in_window (index_ first) (index_ last)) l, m').
Proof.
  intros Hp Hc Hs He Hf Hfl Hl Hit.
  rewrite (iterate_no_body m parent p c Hp Hc ltac:(lia) He) in Hit.
  injection Hit as <-.
  unfold Range_sub. load_steps. unfold store_range.
  set (r' := mkRange (ctx_ p) (index_ first) (index_ last) (skip_mask_ p)).
  set (m' := mkMemory (contexts m) (<[this := r']> (ranges m))).
  exists m'. split; [reflexivity|].
  assert (Hr' : ranges m' !! this = Some r') by apply lookup_insert_eq.
  rewrite (iterate_no_body m' this r' c Hr' Hc ltac:(cbn; lia) ltac:(cbn; lia)).
  f_equal. f_equal. cbn [start_ end_ r'].
  rewrite filter_window_seqZ by lia. reflexivity.
Qed.

Lemma sub_range_traversal_is_parent_window_witness :
  exists m',
    Range_sub 12 10 (mkIterator 10 1 1) (mkIterator 10 1 3) example_memory
    = Returns (tt, m') /\
    iterate 12 no_body m'
    = Returns (filter (in_window 1 3) [0; 1; 2], m').
Proof.
  apply (sub_range_traversal_is_parent_window example_memory 12%positive 10%positive
           example_range example_ctx (mkIterator 10 1 1) (mkIterator 10 1 3) [0; 1; 2]).
  - reflexivity.
  - reflexivity.
  - cbn. lia.
  - cbn. lia.
  - cbn. lia.
  - cbn. lia.
  - cbn. lia.
  - vm_compute. reflexivity.
Defined.

(** X4.  [SkipKey] takes exactly one position out of the range's own
    traversal: afterwards the range visits what it visited before, except
    the skipped position, and [empty()] of the range counts the position as
    dealt with. *)
Theorem SkipKey_removes_one_position m a r c it l :
  ranges m !! a = Some r -> contexts m !! ctx_ r = Some c ->
  0 <= start_ r <= end_ r -> end_ r <= 64 ->
  0 <= index_ it < 64 ->
  iterate a no_body m = Returns (l, m) ->
  exists m',
    SkipKey a it m = Returns (tt, m') /\
    iterate a no_body m' = Returns (filter (fun p => p <> index_ it) l, m') /\
    (forall r', ranges m' !! a = Some r' -> blocked c r' (index_ it) = true).
Proof.
  intros Hr Hc Hse He Hi Hl.
  rewrite (iterate_no_body m a r c Hr Hc Hse He) in Hl. injection Hl as <-.
  eexists. split; [exact (SkipKey_spec m a r it Hr Hi)|].
  set (r' := mkRange (ctx_ r) (start_ r) (end_ r) (Z.lor (skip_mask_ r) (2 ^ index_ it))).
  set (m' := mkMemory (contexts m) (<[a := r']> (ranges m))).
  assert (Hr' : ranges m' !! a = Some r') by apply lookup_insert_eq.
  split.
  - rewrite (iterate_no_body m' a r' c Hr' Hc Hse He).
    f_equal. f_equal. cbn [start_ end_ r']. rewrite list_filter_filter.
    apply filter_ext_elem. intros p Hp. apply elem_of_seqZ in Hp.
    unfold blocked. cbn [skip_mask_ r'].
    rewrite !Z.lor_spec, Z.pow2_bits_eqb by lia.
    destruct (Z.eqb_spec (index_ it) p) as [->|Hne];
      destruct (Z.testbit (value_mask_ c) p), (Z.testbit (skip_mask_ r) p); cbn;
      intuition congruence.
  - intros r'' Hr''. rewrite Hr' in Hr''. injection Hr'' as <-.
    unfold blocked. cbn [skip_mask_ r'].
    rewrite !Z.lor_spec, Z.pow2_bits_eqb, Z.eqb_refl by lia.
    now rewrite !orb_true_r.
Qed.

Lemma SkipKey_removes_one_position_witness :
  exists m',
    SkipKey 10 example_iterator example_memory = Returns (tt, m') /\
    iterate 10 no_body m' = Returns (filter (fun p => p <> 1) [0; 1; 2], m') /\
    (forall r', ranges m' !! 10%positive = Some r' -> blocked example_ctx r' 1 = true).
Proof.
  apply (SkipKey_removes_one_position example_memory 10%positive example_range
           example_ctx example_iterator [0; 1; 2]).
  - reflexivity.
  - reflexivity.
  - cbn. lia.
  - cbn. lia.
  - cbn. lia.
  - vm_compute. reflexivity.
Defined.

(** X5.  [MarkKeyDone] marks one key of one context: the answer of
    [CheckKeyDone] for every other position, every other context and every
    range of the store are as they were before the call. *)
Theorem MarkKeyDone_marks_one_key m a r c it :
  ranges m !! a = Some r -> contexts m !! ctx_ r = Some c ->
  0 <= index_ it < 64 ->
  exists m',
    MarkKeyDone a it m = Returns (tt, m') /\
    ranges m' = ranges m /\
    (forall q, q <> ctx_ r -> contexts m' !! q = contexts m !! q) /\
    (exists c', contexts m' !! ctx_ r = Some c' /\
                num_keys_ c' = num_keys_ c /\ sorted_keys_ c' = sorted_keys_ c) /\
    (forall b it',
       is_Some (ranges m !! b) -> 0 <= index_ it' < 64 -> index_ it' <> index_ it ->
       value_of (CheckKeyDone b it' m') = value_of (CheckKeyDone b it' m)).
Proof.
  intros Hr Hc Hi.
  eexists. split; [exact (MarkKeyDone_spec m a r c it Hr Hc Hi)|].
  set (c' := set_value_mask c (Z.lor (value_mask_ c) (2 ^ index_ it))).
  set (m' := mkMemory (<[ctx_ r := c']> (contexts m)) (ranges m)).
  split; [reflexivity|]. split; [|split].
  - intros q Hq. cbn [contexts m']. now apply lookup_insert_ne.
  - exists c'. split; [apply lookup_insert_eq|]. now split.
  - intros b it' [rb Hrb] Hi' Hne.
    destruct (decide (ctx_ rb = ctx_ r)) as [Heq|Hneq].
    + assert (Hc' : contexts m' !! ctx_ rb = Some c').
      { rewrite Heq. apply lookup_insert_eq. }
      rewrite <- Heq in Hc.
      rewrite (CheckKeyDone_spec m' b rb c' it' Hrb Hc' Hi').
      rewrite (CheckKeyDone_spec m b rb c it' Hrb Hc Hi').
      cbn [value_of]. f_equal. unfold c'. cbn [value_mask_ set_value_mask].
      rewrite lor_pow2_bit by lia.
      destruct (Z.eqb_spec (index_ it) (index_ it')); [congruence|].
      apply orb_false_r.
    + unfold CheckKeyDone, bind, load_range, load_ctx. subst m'.
      cbn [ranges contexts]. rewrite Hrb. cbn [contexts].
      rewrite lookup_insert_ne by congruence.
      destruct (contexts m !! ctx_ rb); [|reflexivity].
      unfold lift. destruct (shl64 1 (index_ it')); reflexivity.
Qed.

Lemma MarkKeyDone_marks_one_key_witness :
  exists m',
    MarkKeyDone 10 example_iterator example_memory = Returns (tt, m') /\
    ranges m' = ranges example_memory /\
    (forall q, q <> ctx_ example_range ->
               contexts m' !! q = contexts example_memory !! q) /\
    (exists c', contexts m' !! ctx_ example_range = Some c' /\
                num_keys_ c' = num_keys_ example_ctx /\
                sorted_keys_ c' = sorted_keys_ example_ctx) /\
    (forall b it',
       is_Some (ranges example_memory !! b) -> 0 <= index_ it' < 64 ->
       index_ it' <> index_ example_iterator ->
       value_of (CheckKeyDone b it' m') = value_of (CheckKeyDone b it' example_memory)).
Proof.
  apply (MarkKeyDone_marks_one_key example_memory 10%positive example_range
           example_ctx example_iterator).
  - reflexivity.
  - reflexivity.
  - cbn. lia.
Defined.


(** *** From construction to the first traversal *)

Lemma ctor_returns_fresh keys n snapshot c :
  MultiGetContext_ctor keys n snapshot = Returns c ->
  0 <= n <= MAX_KEYS_ON_STACK /\ num_keys_ c = n /\ value_mask_ c = 0 /\
  (Z.to_nat n <= length (sorted_keys_ c))%nat /\
  (forall i, 0 <= i < n ->
     exists kc, keys !! Z.to_nat i = Some kc /\
                sorted_keys_ c !! Z.to_nat i = Some (derived snapshot i kc)).
Proof.
  intros H.
  destruct (ctor_returns_inline keys n snapshot c H) as (Hn & Hnum & _ & _).
  assert (Hlen : (Z.to_nat n <= length keys)%nat).
  { destruct (Nat.le_gt_cases (Z.to_nat n) (length keys)) as [|Hgt]; [assumption|].
    exfalso. revert H. apply ctor_reads_past_array; [lia|assumption]. }
  destruct (ctor_within_capacity keys n snapshot Hn Hlen)
    as (c' & H' & _ & Hvm & _ & Hkeys).
  rewrite H in H'. injection H' as <-.
  do 3 (split; [assumption|]). split; [|exact Hkeys].
  destruct (Z.eq_dec n 0) as [->|Hn0]; [cbn; lia|].
  destruct (Hkeys (n - 1)) as (kc & _ & Hlast); [lia|].
  apply lookup_lt_Some in Hlast. lia.
Qed.

(** X6.  A context as the constructor returns it, once it sits in the
    store: its full range runs over all [n] positions in order, every
    position dereferences to the caller's key with its lookup key in the
    inline slot of the same number, no key is done yet, and [empty()] is
    true only for the batch of no keys. *)
Theorem fresh_batch_offers_every_key keys n snapshot c m p dst :
  MultiGetContext_ctor keys n snapshot = Returns c ->
  contexts m !! p = Some c ->
  exists m',
    GetMultiGetRange p dst m = Returns (tt, m') /\
    iterate dst deref_body m' = Returns (seqZ 0 n, m') /\
    (forall i, 0 <= i < n ->
       exists kc, keys !! Z.to_nat i = Some kc /\
                  Iterator_deref (mkIterator dst p i) m'
                  = Returns (derived snapshot i kc, m')) /\
    Range_empty dst m' = Returns (n =? 0, m') /\
    (forall it, 0 <= index_ it < 64 -> CheckKeyDone dst it m' = Returns (false, m')).
Proof.
  intros Hctor Hc.
  destruct (ctor_returns_fresh keys n snapshot c Hctor)
    as (Hn & Hnum & Hvm & Hlen & Hkeys).
  unfold MAX_KEYS_ON_STACK in Hn.
  unfold GetMultiGetRange, Range_ctor. load_steps. unfold store_range. rewrite Hnum.
  set (r0 := mkRange p 0 n 0).
  set (m' := mkMemory (contexts m) (<[dst := r0]> (ranges m))).
  exists m'. split; [reflexivity|].
  assert (Hr0 : ranges m' !! dst = Some r0) by apply lookup_insert_eq.
  assert (Hc0 : contexts m' !! ctx_ r0 = Some c) by exact Hc.
  split; [|split; [|split]].
  - rewrite (iterate_deref_body m' dst r0 c Hr0 Hc0) by (cbn; lia).
    rewrite (iterate_no_body m' dst r0 c Hr0 Hc0) by (cbn; lia).
    f_equal. f_equal. cbn [start_ end_ r0]. rewrite Z.sub_0_r.
    apply filter_all. intros q _. unfold blocked. cbn [skip_mask_ r0].
    now rewrite Hvm, Z.lor_0_l, Z.bits_0.
  - intros i Hi. destruct (Hkeys i Hi) as (kc & Hk & Hd). exists kc.
    split; [assumption|].
    now apply (Iterator_deref_inside m' (mkIterator dst p i) r0 c).
  - rewrite (Range_empty_eval m' dst r0 c Hr0 Hc0) by (cbn; lia).
    f_equal. f_equal. cbn [start_ end_ skip_mask_ r0]. rewrite Hvm.
    destruct (Z.eqb_spec n 0) as [->|Hn0].
    + apply Z.eqb_eq. apply empty_mask_zero_iff; [lia|lia|intros i Hi; lia].
    + apply Z.eqb_neq. intros H0.
      pose proof (proj1 (empty_mask_zero_iff 0 n 0 0 ltac:(lia) ltac:(lia)) H0 0
                    ltac:(lia)) as Hbit.
      rewrite Z.lor_0_l, Z.bits_0 in Hbit. discriminate.
  - intros it Hi. rewrite (CheckKeyDone_spec m' dst r0 c it Hr0 Hc0 Hi).
    now rewrite Hvm, Z.bits_0.
Qed.

Lemma fresh_batch_offers_every_key_witness :
  exists m',
    GetMultiGetRange 1 13 example_memory = Returns (tt, m') /\
    iterate 13 deref_body m' = Returns (seqZ 0 3, m') /\
    (forall i, 0 <= i < 3 ->
       exists kc, example_keys !! Z.to_nat i = Some kc /\
                  Iterator_deref (mkIterator 13 1 i) m'
                  = Returns (derived 7 i kc, m')) /\
    Range_empty 13 m' = Returns (3 =? 0, m') /\
    (forall it, 0 <= index_ it < 64 -> CheckKeyDone 13 it m' = Returns (false, m')).
Proof.
  exact (fresh_batch_offers_every_key example_keys 3 7 example_ctx example_memory
           1%positive 13%positive eq_refl eq_refl).
Defined.


(** *** Marking while traversing *)

Lemma testbit_mark_all l :
  forall mask q, 0 <= q -> (forall p, p ∈ l -> 0 <= p) ->
  Z.testbit (mark_all mask l) q = Z.testbit mask q || bool_decide (q ∈ l).
Proof.
  unfold mark_all. induction l as [|p l IH]; intros mask q Hq Hl; cbn [foldl].
  - rewrite bool_decide_eq_false_2 by apply not_elem_of_nil. now rewrite orb_false_r.
  - rewrite IH; [|assumption|intros x Hx; apply Hl; now right].
    rewrite lor_pow2_bit by (try assumption; apply Hl; left).
    destruct (Z.eqb_spec p q) as [->|Hne].
    + rewrite (bool_decide_eq_true_2 (q ∈ q :: l)) by left.
      now rewrite !orb_true_r.
    + rewrite orb_false_r. f_equal. apply bool_decide_ext.
      rewrite elem_of_cons. intuition congruence.
Qed.

Lemma keeps_window_mark_body a r : keeps_window a r (mark_body a).
Proof.
  intros it m m' (r' & c' & Hr' & Ectx & Es & Ee & Hc') H.
  unfold mark_body, MarkKeyDone, bind, load_range, load_ctx, lift, store_ctx in H.
  rewrite Hr', Ectx, Hc' in H.
  destruct (shl64 1 (index_ it)) as [bit| | |]; try discriminate.
  injection H as <-. exists r'. eexists. cbn [ranges contexts].
  split; [assumption|]. do 3 (split; [assumption|]). apply lookup_insert_eq.
Qed.

Lemma spec_iterate_mark_body a r :
  forall positions m c,
    ranges m !! a = Some r -> contexts m !! ctx_ r = Some c ->
    NoDup positions -> (forall p, p ∈ positions -> 0 <= p < 64) ->
    exists m' c',
      spec_iterate positions a (mark_body a) m
      = Returns (filter (fun p => blocked c r p = false) positions, m') /\
      ranges m' = ranges m /\
      contexts m' !! ctx_ r = Some c' /\
      value_mask_ c'
      = mark_all (value_mask_ c) (filter (fun p => blocked c r p = false) positions).
Proof.
  induction positions as [|p ps IH]; intros m c Hr Hc Hnd Hpos.
  - exists m, c. cbn [spec_iterate]. repeat split; auto.
  - apply NoDup_cons in Hnd as [Hp Hnd].
    assert (Hps : forall q, q ∈ ps -> 0 <= q < 64) by (intros q Hq; apply Hpos; now right).
    cbn [spec_iterate]. load_steps.
    destruct (blocked c r p) eqn:Hb.
    + rewrite filter_cons_False by (rewrite Hb; discriminate).
      now apply IH.
    + rewrite filter_cons_True by assumption.
      assert (Hp64 : 0 <= p < 64) by (apply Hpos; left).
      pose proof (MarkKeyDone_spec m a r c (mkIterator a (ctx_ r) p) Hr Hc Hp64) as Hm.
      cbn [index_] in Hm. unfold mark_body at 1.
      rewrite (bind_returns _ _ _ _ _ Hm).
      set (c1 := set_value_mask c (Z.lor (value_mask_ c) (2 ^ p))).
      set (m1 := mkMemory (<[ctx_ r := c1]> (contexts m)) (ranges m)).
      destruct (IH m1 c1 Hr (lookup_insert_eq _ _ _) Hnd Hps)
        as (m' & c' & Hrun & Hranges & Hc' & Hmask).
      assert (Hsame : filter (fun q => blocked c1 r q = false) ps
                      = filter (fun q => blocked c r q = false) ps).
      { apply filter_ext_elem. intros q Hq.
        assert (q <> p) by (intros ->; contradiction).
        unfold blocked, c1. cbn [value_mask_ set_value_mask].
        rewrite !Z.lor_spec, Z.pow2_bits_eqb by lia.
        destruct (Z.eqb_spec p q); [congruence|]. now rewrite orb_false_r. }
      rewrite Hsame in Hrun, Hmask.
      exists m', c'. rewrite (bind_returns _ _ _ _ _ Hrun).
      split; [reflexivity|]. split; [exact Hranges|]. split; [exact Hc'|].
      rewrite Hmask. reflexivity.
Qed.

(** X7.  The usual way to finish a stage: a traversal that marks every key
    it is handed done.  It visits what a traversal that only looks would
    have visited, every visited key then counts as done, the range is empty
    afterwards and a further traversal of it visits nothing. *)
Theorem marking_every_visited_key_empties_the_range m a r c :
  ranges m !! a = Some r -> contexts m !! ctx_ r = Some c ->
  0 <= start_ r <= end_ r -> end_ r < 64 ->
  exists l m',
    iterate a (mark_body a) m = Returns (l, m') /\
    iterate a no_body m = Returns (l, m) /\
    Range_empty a m' = Returns (true, m') /\
    iterate a no_body m' = Returns ([], m') /\
    (forall it, index_ it ∈ l -> CheckKeyDone a it m' = Returns (true, m')).
Proof.
  intros Hr Hc Hse He.
  set (positions := seqZ (start_ r) (end_ r - start_ r)).
  assert (Hpos : forall p, p ∈ positions -> 0 <= p < 64).
  { intros p Hp. apply elem_of_seqZ in Hp. lia. }
  destruct (spec_iterate_mark_body a r positions m c Hr Hc (NoDup_seqZ _ _) Hpos)
    as (m' & c' & Hrun & Hranges & Hc' & Hmask).
  set (l := filter (fun p => blocked c r p = false) positions) in *.
  exists l, m'.
  assert (Hr' : ranges m' !! a = Some r) by now rewrite Hranges.
  assert (Hbit : forall q, 0 <= q ->
            Z.testbit (value_mask_ c') q
            = Z.testbit (value_mask_ c) q || bool_decide (q ∈ l)).
  { intros q Hq. rewrite Hmask. apply testbit_mark_all; [assumption|].
    intros p Hp. apply list_elem_of_filter in Hp as [_ Hp]. apply Hpos in Hp. lia. }
  assert (Hall : forall i, start_ r <= i < end_ r -> blocked c' r i = true).
  { intros i Hi. unfold blocked. rewrite Z.lor_spec, Hbit by lia.
    destruct (blocked c r i) eqn:Hb.
    - unfold blocked in Hb. rewrite Z.lor_spec in Hb.
      destruct (Z.testbit (value_mask_ c) i), (Z.testbit (skip_mask_ r) i);
        try discriminate; cbn; now rewrite ?orb_true_r.
    - rewrite (bool_decide_eq_true_2 (i ∈ l)); [now rewrite orb_true_r|].
      apply list_elem_of_filter. split; [assumption|]. apply elem_of_seqZ. lia. }
  split; [|split; [|split; [|split]]].
  - rewrite (iterate_refines m a r c (mark_body a) Hr Hc Hse ltac:(lia)
               (keeps_window_mark_body a r)).
    exact Hrun.
  - apply (iterate_no_body m a r c); try assumption; lia.
  - destruct (Range_empty_blocked m' a r c' Hr' Hc' ltac:(lia) ltac:(lia))
      as (e & Hempty & Hiff).
    rewrite Hempty. f_equal. f_equal. now apply Hiff.
  - rewrite (iterate_no_body m' a r c' Hr' Hc' Hse ltac:(lia)).
    f_equal. f_equal. apply filter_nil_iff. intros p Hp Hb.
    apply elem_of_seqZ in Hp. rewrite Hall in Hb by lia. discriminate.
  - intros it Hit.
    assert (Hi : 0 <= index_ it < 64).
    { apply list_elem_of_filter in Hit as [_ Hit]. now apply Hpos. }
    rewrite (CheckKeyDone_spec m' a r c' it Hr' Hc' Hi). f_equal. f_equal.
    rewrite Hbit by lia. rewrite (bool_decide_eq_true_2 _ Hit). apply orb_true_r.
Qed.

Lemma marking_every_visited_key_empties_the_range_witness :
  exists l m',
    iterate 10 (mark_body 10) example_memory = Returns (l, m') /\
    iterate 10 no_body example_memory = Returns (l, example_memory) /\
    Range_empty 10 m' = Returns (true, m') /\
    iterate 10 no_body m' = Returns ([], m') /\
    (forall it, index_ it ∈ l -> CheckKeyDone 10 it m' = Returns (true, m')).
Proof.
  apply (marking_every_visited_key_empties_the_range example_memory 10%positive
           example_range example_ctx).
  - reflexivity.
  - reflexivity.
  - cbn. lia.
  - cbn. lia.
Defined.

(** *** What a range keeps for life *)

Lemma range_kept_refl a m : range_kept a m m.
Proof. intros r Hr. exists r. auto. Qed.

Lemma range_kept_trans a m1 m2 m3 :
  range_kept a m1 m2 -> range_kept a m2 m3 -> range_kept a m1 m3.
Proof.
  intros H12 H23 r Hr.
  destruct (H12 r Hr) as (r2 & Hr2 & E1 & E2 & E3 & Hb2).
  destruct (H23 r2 Hr2) as (r3 & Hr3 & F1 & F2 & F3 & Hb3).
  exists r3. repeat split; try congruence. auto.
Qed.

Lemma range_kept_store_elsewhere a m p r :
  p <> a -> range_kept a m (mkMemory (contexts m) (<[p := r]> (ranges m))).
Proof.
  intros Hne r0 Hr0. exists r0. cbn [ranges].
  rewrite lookup_insert_ne by assumption. auto.
Qed.

Lemma exec_range_kept a c :
  builds_at a c = false -> preserves (range_kept a) (exec c).
Proof.
  pose proof (range_kept_refl a) as Hrefl.
  pose proof (range_kept_trans a) as Htrans.
  intros Hb. destruct c; cbn [exec builds_at] in *.
  - apply bool_decide_eq_false in Hb.
    intros m u m' H. unfold GetMultiGetRange, Range_ctor, bind, load_ctx, store_range in H.
    destruct (contexts m !! ctx); [|discriminate]. injection H as _ <-.
    now apply range_kept_store_elsewhere.
  - apply bool_decide_eq_false in Hb.
    intros m u m' H. unfold Range_sub, bind, load_range, store_range in H.
    destruct (ranges m !! mget_range); [|discriminate]. injection H as _ <-.
    now apply range_kept_store_elsewhere.
  - now apply preserves_discard, preserves_Range_begin.
  - now apply preserves_discard, preserves_Range_end.
  - now apply preserves_discard, preserves_Range_empty.
  - intros m u m' H. unfold SkipKey, bind, load_range, lift, store_range in H.
    destruct (ranges m !! this) as [r0|] eqn:Hr0; [|discriminate].
    destruct (shl64 1 (index_ iter)) as [bit| | |]; try discriminate.
    injection H as _ <-. intros r Hr. cbn [ranges].
    destruct (decide (this = a)) as [->|Hne].
    + rewrite lookup_insert_eq. eexists. split; [reflexivity|].
      rewrite Hr0 in Hr. injection Hr as <-. cbn [ctx_ start_ end_ skip_mask_].
      do 3 (split; [reflexivity|]). intros j Hj. now rewrite Z.lor_spec, Hj.
    + rewrite lookup_insert_ne by assumption. exists r. auto.
  - intros m u m' H. unfold MarkKeyDone, bind, load_range, load_ctx, lift, store_ctx in H.
    destruct (ranges m !! this) as [r0|]; [|discriminate].
    destruct (contexts m !! ctx_ r0); [|discriminate].
    destruct (shl64 1 (index_ iter)) as [bit| | |]; try discriminate.
    injection H as _ <-. intros r Hr. exists r. auto.
  - now apply preserves_discard, preserves_CheckKeyDone.
  - now apply preserves_discard, preserves_Iterator_ctor.
  - now apply preserves_discard, preserves_Iterator_incr.
  - now apply preserves_discard, preserves_Iterator_eq.
  - now apply preserves_discard, preserves_Iterator_ne.
  - now apply preserves_discard, preserves_Iterator_deref.
Qed.

(** X8.  Whatever is called on the store, as long as no range object is
    built at its address, a range stays over the same context with the same
    bounds, and its skip mask only gains bits. *)
Theorem range_keeps_window_and_skips cs :
  forall a m m',
    Forall (fun c => builds_at a c = false) cs ->
    exec_all cs m = Returns (tt, m') ->
    range_kept a m m'.
Proof.
  induction cs as [|c cs IH]; intros a m m' Hcs H; cbn [exec_all] in H.
  - unfold ret in H. injection H as <-. apply range_kept_refl.
  - apply Forall_cons in Hcs as [Hc Hcs].
    apply bind_inv in H as ([] & m1 & H1 & H2).
    eapply range_kept_trans.
    + exact (exec_range_kept a c Hc m tt m1 H1).
    + now apply (IH a m1 m').
Qed.

Lemma range_keeps_window_and_skips_witness :
  range_kept 10 example_memory
    (mkMemory (contexts example_memory)
       (<[10%positive := mkRange 1 0 3 2]> (ranges example_memory))).
Proof.
  apply (range_keeps_window_and_skips
           [CallSkipKey 10 example_iterator; CallEmpty 11] 10%positive example_memory).
  - repeat constructor.
  - vm_compute. reflexivity.
Defined.

End MultiGetUseFacts.

(** ** More properties of the coordinator *)

Module AsyncUseFacts.
Import AsyncReader.Awaiter.
Import AsyncReader.
Import AsyncReaderFacts.
Import AsyncUse.

Lemma submissions_zip p aw :
  forall n i, 0 <= i -> (Z.to_nat i + n <= length (read_reqs_ aw))%nat ->
  submissions p aw i n
  = zip_with (fun j req => EvReadAsync p j req)
      (seqZ i (Z.of_nat n)) (take n (drop (Z.to_nat i) (read_reqs_ aw))).
Proof.
  unfold submissions. induction n as [|n IH]; intros i Hi Hlen.
  - rewrite seqZ_nil by lia. reflexivity.
  - rewrite seqZ_cons by lia.
    destruct (lookup_lt_is_Some_2 (read_reqs_ aw) (Z.to_nat i)) as [req Hreq]; [lia|].
    rewrite (drop_S _ _ _ Hreq). cbn [take zip_with]. cbn. rewrite Hreq.
    f_equal.
    replace (Z.pred (Z.of_nat (S n))) with (Z.of_nat n) by lia.
    replace (Z.succ i) with (i + 1) by lia.
    rewrite IH by lia. now replace (Z.to_nat (i + 1)) with (S (Z.to_nat i)) by lia.
Qed.

Lemma submissions_submitted p aw :
  0 <= Awaiter.num_reqs_ aw ->
  (Z.to_nat (Awaiter.num_reqs_ aw) <= length (read_reqs_ aw))%nat ->
  submissions p aw 0 (Z.to_nat (Awaiter.num_reqs_ aw)) = submitted p aw.
Proof.
  intros Hk Hlen. rewrite submissions_zip by (cbn; lia).
  unfold submitted, requests_of. now rewrite Z2Nat.id by lia.
Qed.

Lemma take_fill_fresh {A} (x : nat -> option A) k :
  take k (fill x (replicate k None) 0 k) = map x (seq 0 k).
Proof.
  apply list_eq. intros i. destruct (Nat.lt_ge_cases i k) as [Hlt|Hge].
  - rewrite lookup_take_lt by assumption.
    rewrite fill_lookup_in by (rewrite ?length_replicate; lia).
    rewrite lookup_replicate_2 by assumption. cbn [from_option id].
    rewrite list_lookup_fmap, lookup_seq_lt by assumption. cbn.
    now destruct (x i).
  - rewrite lookup_take_ge by assumption.
    symmetry. apply lookup_ge_None. rewrite length_map, length_seq. assumption.
Qed.

Lemma map_lookup_seq {A B} (g : option A -> B) (l : list A) k :
  (k <= length l)%nat ->
  map (fun j => g (l !! j)) (seq 0 k) = map (fun a => g (Some a)) (take k l).
Proof.
  intros Hk. apply list_eq. intros i.
  rewrite !list_lookup_fmap. destruct (Nat.lt_ge_cases i k) as [Hlt|Hge].
  - rewrite lookup_seq_lt, lookup_take_lt by assumption. cbn.
    destruct (lookup_lt_is_Some_2 l i) as [a ->]; [lia|]. reflexivity.
  - rewrite lookup_take_ge by assumption.
    rewrite (proj2 (lookup_ge_None (seq 0 k) i)) by (rewrite length_seq; assumption).
    reflexivity.
Qed.

Lemma omap_id_map {A B} (f : A -> option B) (l : list A) :
  omap id (map f l) = omap f l.
Proof.
  induction l as [|a l IH]; [reflexivity|]. cbn. rewrite IH. reflexivity.
Qed.

Lemma omap_pointwise {A B} (f g : A -> option B) (l : list A) :
  (forall a, f a = g a) -> omap f l = omap g l.
Proof.
  intros Hfg. induction l as [|a l IH]; [reflexivity|]. cbn. now rewrite IH, Hfg.
Qed.

Lemma omap_zip_map {A B C D} (f : A -> B) (g : A -> C) (h : B * C -> option D)
    (l : list A) :
  omap h (zip (map f l) (map g l)) = omap (fun a => h (f a, g a)) l.
Proof.
  induction l as [|a l IH]; [reflexivity|]. cbn. rewrite IH. reflexivity.
Qed.

Lemma enqueued_fresh_slots aw :
  fresh aw ->
  take (Z.to_nat (Awaiter.num_reqs_ aw)) (io_handle_ (enqueued aw))
  = map (fun req => fst (file_ aw req)) (requests_of aw) /\
  take (Z.to_nat (Awaiter.num_reqs_ aw)) (del_fn_ (enqueued aw))
  = map (fun req => snd (file_ aw req)) (requests_of aw).
Proof.
  intros (Hio & Hdel & Hk & Hlen). unfold enqueued. cbn [io_handle_ del_fn_].
  rewrite Hio, Hdel, !resize_nil, !take_fill_fresh. unfold requests_of.
  unfold handle_from, deleter_from. split.
  - exact (map_lookup_seq
             (fun o => match o with Some req => fst (file_ aw req) | None => None end)
             (read_reqs_ aw) _ Hlen).
  - exact (map_lookup_seq
             (fun o => match o with Some req => snd (file_ aw req) | None => None end)
             (read_reqs_ aw) _ Hlen).
Qed.

Lemma handles_of_enqueued_fresh aw : fresh aw -> handles_of (enqueued aw) = issued aw.
Proof.
  intros Hf. unfold handles_of, issued. cbn [enqueued Awaiter.num_reqs_].
  rewrite (proj1 (enqueued_fresh_slots aw Hf)). apply omap_id_map.
Qed.

Lemma cleanup_of_enqueued_fresh aw :
  fresh aw -> cleanup_of (enqueued aw) = issued_cleanups aw.
Proof.
  intros Hf. unfold cleanup_of, issued_cleanups. cbn [enqueued Awaiter.num_reqs_].
  destruct (enqueued_fresh_slots aw Hf) as [-> ->].
  rewrite omap_zip_map. apply omap_pointwise.
  intros req. now destruct (file_ aw req).
Qed.

Lemma same_slots_refl aw : same_slots aw aw.
Proof. unfold same_slots. tauto. Qed.

Lemma same_slots_trans aw1 aw2 aw3 :
  same_slots aw1 aw2 -> same_slots aw2 aw3 -> same_slots aw1 aw3.
Proof. unfold same_slots. intuition congruence. Qed.

Lemma same_slots_events aw aw' :
  same_slots aw aw' ->
  handles_of aw' = handles_of aw /\ cleanup_of aw' = cleanup_of aw /\
  awaiting_coro_ aw' = awaiting_coro_ aw /\
  Awaiter.num_reqs_ aw' = Awaiter.num_reqs_ aw.
Proof.
  intros (Hk & Hio & Hdel & Hco & _). unfold handles_of, cleanup_of.
  rewrite Hk, Hio, Hdel. tauto.
Qed.

Lemma after_enqueue_at w p aw :
  awaiters (after_enqueue w p aw) !! p = Some (enqueued aw).
Proof. unfold after_enqueue. cbn [awaiters]. apply lookup_insert_eq. Qed.

Lemma after_enqueue_other w p aw a aw1 :
  a <> p -> awaiters w !! a = Some aw1 ->
  exists aw2, awaiters (after_enqueue w p aw) !! a = Some aw2 /\ same_slots aw1 aw2.
Proof.
  intros Hne Ha. unfold after_enqueue, relinked. cbn [awaiters].
  rewrite lookup_insert_ne by congruence.
  destruct (tail_ (reader w)) as [t|]; [|eauto using same_slots_refl].
  destruct (awaiters w !! t) as [ta|] eqn:Ht; [|eauto using same_slots_refl].
  destruct (decide (a = t)) as [->|Hat].
  - rewrite lookup_insert_eq. eexists; split; [reflexivity|].
    assert (ta = aw1) as -> by congruence. unfold same_slots, with_next. cbn. tauto.
  - rewrite lookup_insert_ne by congruence. eauto using same_slots_refl.
Qed.

(** Where the flows [l] of the store [ws] stand in [ws0] terms: each one has
    the record its enqueue left, up to the link. *)
Lemma enqueue_all_spec ws0 :
  forall ps w l,
  pending w l -> NoDup (l ++ ps) ->
  (forall p, p ∈ ps ->
     exists aw, ws0 !! p = Some aw /\ awaiters w !! p = Some aw /\ fresh aw) ->
  (forall a, a ∈ l ->
     exists aw0 aw1, ws0 !! a = Some aw0 /\ awaiters w !! a = Some aw1 /\
                     same_slots (enqueued aw0) aw1) ->
  exists w', enqueue_all ps w = Returns (tt, w') /\
    pending w' (l ++ ps) /\
    trace w' = trace w ++ concat (map (fun p => lookup_or ws0 p (submitted p)) ps) /\
    (forall a, a ∈ l ++ ps ->
       exists aw0 aw1, ws0 !! a = Some aw0 /\ awaiters w' !! a = Some aw1 /\
                       same_slots (enqueued aw0) aw1) /\
    (forall a, a ∉ l ++ ps -> awaiters w' !! a = awaiters w !! a \/
       exists aw1 aw2, awaiters w !! a = Some aw1 /\ awaiters w' !! a = Some aw2 /\
                       same_slots aw1 aw2).
Proof.
  induction ps as [|p ps IH]; intros w l Hpend Hnd Hps Hl.
  - exists w. cbn [enqueue_all map concat]. rewrite !app_nil_r.
    split; [reflexivity|]. split; [assumption|]. split; [reflexivity|].
    split; [assumption|]. intros a _. now left.
  - destruct (Hps p) as (aw & Hws0 & Haw & Hfresh); [set_solver|].
    pose proof Hfresh as (Hio & Hdel & Hk & Hlen).
    apply NoDup_app in Hnd as Hnd'. destruct Hnd' as (Hndl & Hdisj & Hndps).
    assert (Hpl : p ∉ l) by (intros Hin; apply (Hdisj p Hin); set_solver).
    apply NoDup_cons in Hndps as [Hpps Hndps].
    pose proof (MultiReadAsyncImpl_spec w p aw Haw
                  (pending_tail_fresh w l p Hpend Hpl) Hk Hlen) as Hrun.
    pose proof (enqueue_keeps_pending w l p aw Hpend Hpl Haw Hk) as Hpend'.
    destruct (IH (after_enqueue w p aw) (l ++ [p])) as (w' & Hrun' & Hp' & Htr & Hin & Hout).
    + assumption.
    + rewrite <- app_assoc. exact Hnd.
    + intros q Hq. destruct (Hps q) as (awq & Hq0 & Hqw & Hqf); [set_solver|].
      exists awq. split; [assumption|]. split; [|assumption].
      unfold after_enqueue, relinked. cbn [awaiters].
      assert (q <> p) by (intros ->; contradiction).
      rewrite lookup_insert_ne by congruence.
      destruct (tail_ (reader w)) as [t|] eqn:Ht; [|assumption].
      destruct (awaiters w !! t) as [ta|] eqn:Hta; [|assumption].
      assert (Hql : q ∉ l) by (intros Hin; apply (Hdisj q Hin); set_solver).
      destruct (pending_tail_fresh w l q Hpend Hql t Ht) as [Hne _].
      rewrite lookup_insert_ne by congruence. assumption.
    + intros a Ha. apply elem_of_app in Ha as [Ha|Ha].
      * destruct (Hl a Ha) as (aw0 & aw1 & H0 & H1 & Hss).
        assert (a <> p) by (intros ->; contradiction).
        destruct (after_enqueue_other w p aw a aw1) as (aw2 & H2 & Hss2); try assumption.
        exists aw0, aw2. split; [assumption|]. split; [assumption|].
        apply (same_slots_trans _ _ _ Hss Hss2).
      * apply list_elem_of_singleton in Ha as ->.
        exists aw, (enqueued aw). split; [assumption|].
        split; [apply after_enqueue_at|apply same_slots_refl].
    + exists w'. cbn [enqueue_all]. rewrite (bind_returns _ _ _ _ _ Hrun).
      rewrite <- app_assoc in Hp', Hin, Hout. cbn [app] in Hp', Hin, Hout.
      split; [exact Hrun'|]. split; [exact Hp'|]. split.
      { rewrite Htr. unfold after_enqueue. cbn [trace map concat].
        unfold lookup_or at 2. rewrite Hws0.
        rewrite submissions_submitted by assumption. now rewrite app_assoc. }
      split; [exact Hin|].
      intros a Ha.
      assert (a <> p) by (intros ->; apply Ha; set_solver).
      destruct (awaiters w !! a) as [aw1|] eqn:Haw1.
      * right. destruct (after_enqueue_other w p aw a aw1) as (aw2 & H2 & Hss2);
          try assumption.
        destruct (Hout a Ha) as [Heq|(b1 & b2 & Hb1 & Hb2 & Hss)].
        -- exists aw1, aw2. rewrite Heq. auto.
        -- exists aw1, b2. rewrite H2 in Hb1. injection Hb1 as <-.
           split; [reflexivity|]. split; [assumption|].
           eapply same_slots_trans; eassumption.
      * left. destruct (Hout a Ha) as [Heq|(b1 & b2 & Hb1 & Hb2 & Hss)].
        -- rewrite Heq. unfold after_enqueue, relinked. cbn [awaiters].
           rewrite lookup_insert_ne by congruence.
           destruct (tail_ (reader w)) as [t|]; [|assumption].
           destruct (awaiters w !! t) as [ta|] eqn:Hta; [|assumption].
           rewrite lookup_insert_ne by congruence. assumption.
        -- exfalso. revert Hb1. unfold after_enqueue, relinked. cbn [awaiters].
           rewrite lookup_insert_ne by congruence.
           destruct (tail_ (reader w)) as [t|]; [|congruence].
           destruct (awaiters w !! t) as [ta|] eqn:Hta; [|congruence].
           rewrite lookup_insert_ne by congruence. congruence.
Qed.

Lemma map_ext_elem {A B} (f g : A -> B) (l : list A) :
  (forall a, a ∈ l -> f a = g a) -> map f l = map g l.
Proof.
  induction l as [|a l IH]; intros H; [reflexivity|]. cbn [map].
  rewrite (H a) by left. rewrite IH; [reflexivity|]. intros b Hb. apply H. now right.
Qed.

Lemma poll_count_submitted p aw : poll_count (submitted p aw) = 0%nat.
Proof.
  unfold submitted. generalize (seqZ 0 (Awaiter.num_reqs_ aw)).
  induction (requests_of aw) as [|req l IH]; intros [|i js]; try reflexivity.
  cbn [zip_with]. apply (IH js).
Qed.

Lemma poll_count_submitted_all ws ps :
  poll_count (concat (map (fun p => lookup_or ws p (submitted p)) ps)) = 0%nat.
Proof.
  induction ps as [|p ps IH]; cbn [map concat]; [reflexivity|].
  rewrite poll_count_app, IH. unfold lookup_or.
  destruct (ws !! p); [rewrite poll_count_submitted|]; reflexivity.
Qed.

Lemma handles_at_fresh (ws0 ws : gmap addr ReadAwaiter) ps :
  (forall a, a ∈ ps ->
     exists aw0 aw1, ws0 !! a = Some aw0 /\ fresh aw0 /\ ws !! a = Some aw1 /\
                     same_slots (enqueued aw0) aw1) ->
  map (handles_at ws) ps
  = map (fun p => match ws0 !! p with
                  | Some aw => issued aw
                  | None => []
                  end) ps.
Proof.
  intros Hin. apply map_ext_elem. intros a Ha.
  destruct (Hin a Ha) as (aw0 & aw1 & H0 & Hf & H1 & Hss).
  unfold handles_at. rewrite H0, H1.
  destruct (same_slots_events _ _ Hss) as (-> & _).
  now apply handles_of_enqueued_fresh.
Qed.

(** What the drain of freshly enqueued flows does, in terms of the flows as
    they were before their enqueue. *)
Lemma drained_fresh ws0 ws ps :
  (forall a, a ∈ ps ->
     exists aw0 aw1, ws0 !! a = Some aw0 /\ fresh aw0 /\ ws !! a = Some aw1 /\
                     same_slots (enqueued aw0) aw1) ->
  ps <> [] ->
  concat (map (fun p => lookup_or ws0 p (submitted p)) ps) ++
  drained ws ps (wrap64 (total_reqs ws ps))
  = round_trip ws0 ps.
Proof.
  intros Hin Hne. unfold round_trip, drained. f_equal.
  destruct ps as [|p0 ps0]; [contradiction|]. set (ps := p0 :: ps0) in *.
  pose proof (handles_at_fresh ws0 ws ps Hin) as Hh.
  assert (Hr : map (resumed_at ws) ps
               = map (fun p => lookup_or ws0 p
                                 (fun aw => issued_cleanups aw ++
                                            [EvResume p (awaiting_coro_ aw)])) ps).
  { apply map_ext_elem. intros a Ha.
    destruct (Hin a Ha) as (aw0 & aw1 & H0 & Hf & H1 & Hss).
    unfold resumed_at, lookup_or. rewrite H0, H1.
    destruct (same_slots_events _ _ Hss) as (_ & -> & -> & _).
    now rewrite cleanup_of_enqueued_fresh. }
  assert (Ht : total_reqs ws ps = total_reqs ws0 ps).
  { apply total_reqs_ext. intros a Ha.
    destruct (Hin a Ha) as (aw0 & aw1 & H0 & Hf & H1 & Hss).
    unfold reqs_at. rewrite H0, H1.
    now destruct (same_slots_events _ _ Hss) as (_ & _ & _ & ->). }
  rewrite Hh, Hr, Ht. reflexivity.
Qed.



(** X10.  Enqueue and wait, end to end.  On a coordinator with an empty
    list, distinct flows that each come with empty handle vectors enqueue
    one after the other and the coordinator then waits: the run returns,
    the trace grows by every flow's submissions in enqueue order, then (if
    there was a flow at all) at most one poll over all handles the file
    issued, then per flow its cleanups and its resumption in enqueue order,
    then one histogram record of the total; the coordinator is back at its
    initial state, and polls exactly once when a handle was issued and not
    at all otherwise. *)
Theorem enqueue_then_Wait_round_trip w ps :
  pending w [] -> NoDup ps ->
  (forall p, p ∈ ps -> exists aw, awaiters w !! p = Some aw /\ fresh aw) ->
  exists w',
    (let* _ := enqueue_all ps in Wait) w = Returns (tt, w') /\
    trace w' = trace w ++ round_trip (awaiters w) ps /\
    reader w' = AsyncFileReader_new /\
    pending w' [] /\
    poll_count (trace w')
    = (poll_count (trace w) +
       if (0 <? length (concat (map (fun p => match awaiters w !! p with
                                              | Some aw => issued aw
                                              | None => []
                                              end) ps)))%nat
       then 1 else 0)%nat.
Proof.
  intros Hpend Hnd Hps.
  destruct (enqueue_all_spec (awaiters w) ps w [] Hpend Hnd)
    as (w1 & Hrun & Hp1 & Htr & Hin & _).
  { intros p Hp. destruct (Hps p Hp) as (aw & Haw & Hf). exists aw. auto. }
  { intros a Ha. now apply elem_of_nil in Ha. }
  cbn [app] in Hp1, Hin.
  assert (Hin' : forall a, a ∈ ps ->
            exists aw0 aw1, awaiters w !! a = Some aw0 /\ fresh aw0 /\
              awaiters w1 !! a = Some aw1 /\ same_slots (enqueued aw0) aw1).
  { intros a Ha. destruct (Hin a Ha) as (aw0 & aw1 & H0 & H1 & Hss).
    destruct (Hps a Ha) as (aw & Haw & Hf). assert (aw = aw0) as -> by congruence.
    exists aw0, aw1. auto. }
  pose proof (Wait_spec w1 ps Hp1) as HW.
  destruct ps as [|p0 ps0].
  - cbn [enqueue_all] in Hrun. injection Hrun as <-.
    exists w. split; [exact HW|].
    split. { unfold round_trip. cbn [map concat app]. now rewrite app_nil_r. }
    split. { destruct Hpend as ((Hh & Ht) & _ & _ & Hn). cbn [total_reqs foldr] in Hn.
             destruct (reader w) as [h t n]. cbn in Hh, Ht, Hn. subst. reflexivity. }
    split; [assumption|]. cbn [map concat length]. cbn. lia.
  - set (ps := p0 :: ps0) in *.
    exists (mkWorld (awaiters w1) AsyncFileReader_new
              (trace w1 ++ drained (awaiters w1) ps (num_reqs_ (reader w1)))).
    assert (Hn : num_reqs_ (reader w1) = wrap64 (total_reqs (awaiters w1) ps))
      by apply Hp1.
    split. { unfold bind. rewrite Hrun. exact HW. }
    split. { cbn [trace]. rewrite Htr, <- app_assoc, Hn. f_equal.
             apply drained_fresh; [assumption|discriminate]. }
    split; [reflexivity|]. split; [apply pending_drained|].
    cbn [trace]. rewrite Htr, !poll_count_app, poll_count_submitted_all.
    rewrite poll_count_drained, (handles_at_fresh (awaiters w) _ ps Hin'). lia.
Qed.

Lemma enqueue_then_Wait_round_trip_witness :
  exists w',
    (let* _ := enqueue_all [1%positive; 2%positive] in Wait) example_start
    = Returns (tt, w') /\
    trace w' = trace example_start ++
               round_trip (awaiters example_start) [1%positive; 2%positive] /\
    reader w' = AsyncFileReader_new /\
    pending w' [] /\
    poll_count (trace w')
    = (poll_count (trace example_start) +
       if (0 <? length (concat (map (fun p => match awaiters example_start !! p with
                                              | Some aw => issued aw
                                              | None => []
                                              end) [1%positive; 2%positive])))%nat
       then 1 else 0)%nat.
Proof.
  apply (enqueue_then_Wait_round_trip example_start [1%positive; 2%positive]).
  - apply pending_drained.
  - apply NoDup_cons. split; [|apply NoDup_singleton].
    intros H. apply list_elem_of_singleton in H. discriminate.
  - intros p Hp. apply elem_of_cons in Hp as [->|Hp].
    + eexists. split; [reflexivity|]. unfold fresh. cbn. repeat split; lia.
    + apply list_elem_of_singleton in Hp as ->.
      eexists. split; [reflexivity|]. unfold fresh. cbn. repeat split; lia.
Defined.

(** X11.  A second [Wait] with nothing enqueued in between does nothing:
    whatever list the coordinator held, after one [Wait] another one
    returns in the same state, with no poll, no resumption and no histogram
    record added. *)
Theorem Wait_twice_is_Wait_once w l :
  pending w l ->
  exists w', Wait w = Returns (tt, w') /\
    (let* _ := Wait in Wait) w = Returns (tt, w') /\
    head_ (reader w') = None /\ tail_ (reader w') = None.
Proof.
  intros Hpend. pose proof (Wait_spec w l Hpend) as HW.
  destruct l as [|a l].
  - exists w. split; [exact HW|]. unfold bind. rewrite HW.
    split; [exact HW|]. apply Hpend.
  - eexists. split; [exact HW|]. unfold bind. rewrite HW.
    split; [|split; reflexivity].
    exact (Wait_spec _ [] (pending_drained _ _)).
Qed.

Lemma Wait_twice_is_Wait_once_witness :
  exists w', Wait example_enqueued = Returns (tt, w') /\
    (let* _ := Wait in Wait) example_enqueued = Returns (tt, w') /\
    head_ (reader w') = None /\ tail_ (reader w') = None.
Proof.
  apply (Wait_twice_is_Wait_once example_enqueued [1%positive; 2%positive]).
  exact example_enqueued_pending.
Defined.


End AsyncUseFacts.

(** ** MultiScanIterator *)

Module MultiScanFacts.
Import MultiScan.
Import MultiScan.Single.
Import String.

Section Scanning.
Context {Status D ScanDesc : Type}.
Context `{!StatusOps Status} `{!IteratorOps Status D} `{!ScanDescOps ScanDesc}.

Lemma then_done {A B} (c : X Status D A) (k : A -> X Status D B) d a d' :
  c d = Done a d' -> then_ c k d = k a d'.
Proof. intros Hc. unfold then_. now rewrite Hc. Qed.

Lemma SingleIterator_ne_end (sc : Scans.Scan) (it : SingleIterator Status) :
  SingleIterator_ne it (Scan_end sc) = valid_ it.
Proof. unfold SingleIterator_ne, Scan_end. cbn. now destruct (valid_ it). Qed.

(** An iterator whose cached validity and pair are those of the database
    iterator. *)
Lemma SingleIterator_new_spec d :
  SingleIterator_new db_iterator d
  = Done (mkSingleIterator db_iterator (Valid d) OK
            (if Valid d then (key d, value d) else no_result)) d.
Proof.
  unfold SingleIterator_new, then_, read, unit_. now destruct (Valid d).
Qed.

Lemma SingleIterator_incr_spec (it : SingleIterator Status) d :
  valid_ it = true -> Single.db_iter_ it = db_iterator ->
  SingleIterator_incr it d
  = if ok (status (Next d)) then
      Done (mkSingleIterator db_iterator (Valid (Next d)) (status (Next d))
              (if Valid (Next d) then (key (Next d), value (Next d)) else result_ it))
           (Next d)
    else Thrown (status (Next d)) (Next d).
Proof.
  intros Hv Hp. unfold SingleIterator_incr. rewrite Hv, Hp. cbn [negb].
  unfold then_, call, read, unit_, throw.
  destruct (ok (status (Next d))); cbn [negb]; [|reflexivity].
  now destruct (Valid (Next d)).
Qed.

Lemma kv_loop_spec (sc : Scans.Scan) n :
  forall fuel d (it : SingleIterator Status) seen,
  (n < fuel)%nat ->
  valid_ it = Valid d ->
  (Valid d = true -> result_ it = (key d, value d)) ->
  Single.db_iter_ it = db_iterator ->
  settles n d = true ->
  kv_loop fuel sc it seen d = Done (seen ++ rows n d) (run_out n d).
Proof.
  induction n as [|n IH]; intros fuel d it seen Hfuel Hv Hr Hp Hs;
    (destruct fuel as [|fuel]; [lia|]); cbn [kv_loop];
    rewrite SingleIterator_ne_end, Hv.
  - cbn [settles rows run_out] in *. destruct (Valid d); [discriminate|].
    now rewrite app_nil_r.
  - cbn [settles rows run_out] in *. destruct (Valid d) eqn:HV;
      [|now rewrite app_nil_r].
    apply andb_prop in Hs as [Hok Hs].
    unfold then_ at 1. unfold SingleIterator_deref. rewrite Hv. cbn [negb].
    unfold unit_ at 1. unfold then_ at 1.
    rewrite (SingleIterator_incr_spec it d Hv Hp), Hok, (Hr eq_refl).
    rewrite (IH fuel (Next d)); try assumption; try reflexivity; try lia.
    + now rewrite <- app_assoc.
    + cbn. intros ->. reflexivity.
Qed.

Lemma for_each_kv_spec n fuel d :
  settles n d = true -> (n < fuel)%nat ->
  for_each_kv fuel (Scan_new db_iterator) d = Done (rows n d) (run_out n d).
Proof.
  intros Hs Hfuel. unfold for_each_kv, Scan_begin. cbn [Scans.db_iter_ Scan_new].
  rewrite (then_done _ _ _ _ _ (SingleIterator_new_spec d)).
  rewrite (kv_loop_spec _ n); try assumption; try reflexivity.
  cbn. intros ->. reflexivity.
Qed.

Lemma settles_run_out n : forall d, settles n d = true -> Valid (run_out n d) = false.
Proof.
  induction n as [|n IH]; intros d; cbn [settles run_out];
    destruct (Valid d) eqn:HV; try discriminate; try (intros _; exact HV).
  intros Hs. apply andb_prop in Hs as [_ Hs]. now apply IH.
Qed.

Lemma length_rows n : forall d, settles n d = true -> (List.length (rows n d) <= n)%nat.
Proof.
  induction n as [|n IH]; intros d; cbn [settles rows];
    destruct (Valid d) eqn:HV; try discriminate; cbn [List.length]; try lia.
  intros Hs. apply andb_prop in Hs as [_ Hs]. specialize (IH _ Hs). lia.
Qed.

(** A longer walk of an iterator that has come to its end sees the same. *)
Lemma rows_settled n : forall m d,
  settles n d = true -> (n <= m)%nat ->
  rows m d = rows n d /\ run_out m d = run_out n d /\ settles m d = true.
Proof.
  induction n as [|n IH]; intros m d; cbn [settles].
  - destruct (Valid d) eqn:HV; [discriminate|]. intros _ _.
    destruct m; cbn [rows run_out settles]; now rewrite HV.
  - destruct (Valid d) eqn:HV.
    + intros Hs Hm. apply andb_prop in Hs as [Hok Hs].
      destruct m as [|m]; [lia|]. cbn [rows run_out settles]. rewrite HV, Hok.
      destruct (IH m (Next d) Hs ltac:(lia)) as (-> & -> & ->). auto.
    + intros _ _. destruct m; cbn [rows run_out settles]; now rewrite HV.
Qed.

Lemma kv_loop_breaks (sc : Scans.Scan) n :
  forall fuel d d' (it : SingleIterator Status) seen,
  (n < fuel)%nat ->
  valid_ it = Valid d ->
  Single.db_iter_ it = db_iterator ->
  breaks n d = Some d' ->
  kv_loop fuel sc it seen d = Thrown (status d') d' /\ ok (status d') = false.
Proof.
  induction n as [|n IH]; intros fuel d d' it seen Hfuel Hv Hp Hb;
    (destruct fuel as [|fuel]; [lia|]); cbn [kv_loop breaks] in *;
    rewrite SingleIterator_ne_end, Hv; destruct (Valid d) eqn:HV; try discriminate.
  unfold then_ at 1. unfold SingleIterator_deref. rewrite Hv. cbn [negb].
  unfold unit_ at 1. unfold then_ at 1.
  rewrite (SingleIterator_incr_spec it d Hv Hp).
  destruct (ok (status (Next d))) eqn:Hok.
  - apply (IH fuel (Next d)); try assumption; try reflexivity; lia.
  - injection Hb as <-. auto.
Qed.

Lemma seek_scan_spec (scans : list ScanDesc) i sd start d :
  scans !! i = Some sd -> range_start sd = Some start ->
  seek_scan scans (Z.of_nat i) db_iterator d
  = Done (status (Seek start d)) (Seek start d).
Proof.
  intros Hsd Hst. unfold seek_scan. rewrite Nat2Z.id, Hsd, Hst. reflexivity.
Qed.

Lemma ScanIterator_ne_inside (scans pre rest : list ScanDesc) sd st sc :
  scans = pre ++ sd :: rest ->
  ScanIterator_ne
    (mkScanIterator scans (Z.of_nat (List.length pre)) db_iterator st sc)
    (end_ scans) = true.
Proof.
  intros ->. unfold ScanIterator_ne, end_, ScanIterator_last. cbn [idx_].
  rewrite length_app. cbn [List.length].
  apply negb_true_iff, Z.eqb_neq. lia.
Qed.

(** One turn of the outer loop on a scan that runs to its end: the pairs of
    the scan have been collected and [operator++] is about to run. *)
Lemma scan_loop_turn n fuel turns (scans pre rest : list ScanDesc) sd st d seen :
  scans = pre ++ sd :: rest ->
  (n < fuel)%nat -> settles n d = true ->
  scan_loop (S turns) fuel scans
    (mkScanIterator scans (Z.of_nat (List.length pre)) db_iterator st
       (Scan_new db_iterator)) seen d
  = then_ (ScanIterator_incr
             (mkScanIterator scans (Z.of_nat (List.length pre)) db_iterator st
                (Scan_new db_iterator)))
      (fun scan' => scan_loop turns fuel scans scan' (seen ++ [rows n d]))
      (run_out n d).
Proof.
  intros Hscans Hfuel Hs. cbn [scan_loop].
  rewrite (ScanIterator_ne_inside scans pre rest sd st _ Hscans).
  unfold ScanIterator_deref. cbn [scan_].
  now rewrite (then_done _ _ _ _ _ (for_each_kv_spec n fuel d Hs Hfuel)).
Qed.

Lemma ScanIterator_incr_inside (scans pre rest : list ScanDesc) sd sd' start st sc d :
  scans = pre ++ sd :: sd' :: rest -> range_start sd' = Some start ->
  ScanIterator_incr
    (mkScanIterator scans (Z.of_nat (List.length pre)) db_iterator st sc) d
  = if ok (status (Seek start d)) then
      Done (mkScanIterator scans (Z.of_nat (List.length (pre ++ [sd]))) db_iterator
              (status (Seek start d)) sc) (Seek start d)
    else Thrown (status (Seek start d)) (Seek start d).
Proof.
  intros Hscans Hst. unfold ScanIterator_incr. cbn [scans_ idx_ db_iter_ scan_].
  assert (Hlen : List.length scans = (List.length pre + S (S (List.length rest)))%nat).
  { rewrite Hscans, length_app. reflexivity. }
  rewrite Hlen.
  destruct (Z.leb_spec (Z.of_nat (List.length pre + S (S (List.length rest))))
              (Z.of_nat (List.length pre))) as [Hle|_]; [lia|].
  destruct (Z.ltb_spec (Z.of_nat (List.length pre) + 1)
              (Z.of_nat (List.length pre + S (S (List.length rest))))) as [_|Hge]; [|lia].
  replace (Z.of_nat (List.length pre) + 1) with (Z.of_nat (S (List.length pre))) by lia.
  assert (Hsd' : scans !! S (List.length pre) = Some sd').
  { rewrite Hscans. rewrite lookup_app_r by lia.
    now replace (S (List.length pre) - List.length pre)%nat with 1%nat by lia. }
  rewrite (then_done _ _ _ _ _ (seek_scan_spec scans _ sd' start d Hsd' Hst)).
  rewrite length_app. cbn [List.length]. rewrite Nat.add_1_r.
  now destruct (ok (status (Seek start d))).
Qed.

Lemma ScanIterator_incr_last (scans pre : list ScanDesc) sd st sc d :
  scans = pre ++ [sd] ->
  ScanIterator_incr
    (mkScanIterator scans (Z.of_nat (List.length pre)) db_iterator st sc) d
  = Done (mkScanIterator scans (Z.of_nat (List.length scans)) db_iterator st sc) d.
Proof.
  intros Hscans. unfold ScanIterator_incr. cbn [scans_ idx_ db_iter_ scan_ status_].
  assert (Hlen : List.length scans = S (List.length pre)).
  { rewrite Hscans, length_app. cbn [List.length]. lia. }
  rewrite Hlen.
  destruct (Z.leb_spec (Z.of_nat (S (List.length pre)))
              (Z.of_nat (List.length pre))) as [Hle|_]; [lia|].
  destruct (Z.ltb_spec (Z.of_nat (List.length pre) + 1)
              (Z.of_nat (S (List.length pre)))) as [Hlt|_]; [lia|].
  unfold unit_. do 2 f_equal. lia.
Qed.

Lemma scan_loop_at_end turns fuel (scans : list ScanDesc) p st sc seen d :
  scan_loop (S turns) fuel scans
    (mkScanIterator scans (Z.of_nat (List.length scans)) p st sc) seen d
  = Done seen d.
Proof.
  cbn [scan_loop]. unfold ScanIterator_ne, end_, ScanIterator_last. cbn [idx_].
  now rewrite Z.eqb_refl.
Qed.

Lemma scan_loop_spec n fuel :
  forall (rest pre : list ScanDesc) sd scans st d turns seen,
  scans = pre ++ sd :: rest ->
  (n < fuel)%nat -> (S (List.length rest) < turns)%nat ->
  settles n d = true -> all_settle n rest (run_out n d) = true ->
  scan_loop turns fuel scans
    (mkScanIterator scans (Z.of_nat (List.length pre)) db_iterator st
       (Scan_new db_iterator)) seen d
  = Done (seen ++ rows n d :: all_rows n rest (run_out n d))
         (all_out n rest (run_out n d)).
Proof.
  induction rest as [|sd' rest IH];
    intros pre sd scans st d turns seen Hscans Hfuel Hturns Hs Hall;
    (destruct turns as [|turns]; [lia|]);
    rewrite (scan_loop_turn n fuel turns scans pre _ sd st d seen Hscans Hfuel Hs).
  - rewrite (then_done _ _ _ _ _ (ScanIterator_incr_last scans pre sd st _ _ Hscans)).
    destruct turns as [|turns]; [cbn in Hturns; lia|].
    now rewrite scan_loop_at_end.
  - cbn [all_settle all_rows all_out] in *.
    destruct (range_start sd') as [start|] eqn:Hst; [|discriminate].
    apply andb_prop in Hall as [Hall Hrest]. apply andb_prop in Hall as [Hok Hs'].
    unfold then_ at 1.
    rewrite (ScanIterator_incr_inside scans pre rest sd sd' start st _ _ Hscans Hst), Hok.
    rewrite (IH (pre ++ [sd]) sd' scans); try assumption.
    + now rewrite <- app_assoc.
    + now rewrite <- app_assoc.
    + cbn [List.length] in Hturns. lia.
Qed.

Lemma scan_loop_throws n fuel :
  forall (mid pre : list ScanDesc) sd bad post start scans st d turns seen,
  scans = pre ++ sd :: mid ++ bad :: post ->
  (n < fuel)%nat -> (List.length mid < turns)%nat ->
  settles n d = true -> all_settle n mid (run_out n d) = true ->
  range_start bad = Some start ->
  ok (status (Seek start (all_out n mid (run_out n d)))) = false ->
  scan_loop turns fuel scans
    (mkScanIterator scans (Z.of_nat (List.length pre)) db_iterator st
       (Scan_new db_iterator)) seen d
  = Thrown (status (Seek start (all_out n mid (run_out n d))))
           (Seek start (all_out n mid (run_out n d))).
Proof.
  induction mid as [|sd' mid IH];
    intros pre sd bad post start scans st d turns seen
      Hscans Hfuel Hturns Hs Hall Hstart Hbad;
    (destruct turns as [|turns]; [lia|]);
    rewrite (scan_loop_turn n fuel turns scans pre _ sd st d seen Hscans Hfuel Hs).
  - cbn [all_out app] in *. unfold then_ at 1.
    now rewrite (ScanIterator_incr_inside scans pre post sd bad start st _ _
                   Hscans Hstart), Hbad.
  - cbn [all_settle all_out] in *.
    destruct (range_start sd') as [start'|] eqn:Hst; [|discriminate].
    apply andb_prop in Hall as [Hall Hrest]. apply andb_prop in Hall as [Hok Hs'].
    unfold then_ at 1.
    rewrite (ScanIterator_incr_inside scans pre (mid ++ bad :: post) sd sd' start' st
               _ _ Hscans Hst), Hok.
    apply (IH (pre ++ [sd]) sd' bad post start scans); try assumption.
    + now rewrite <- app_assoc.
    + cbn [List.length] in Hturns. lia.
Qed.

Lemma length_all_rows n : forall (scans : list ScanDesc) d,
  all_settle n scans d = true -> List.length (all_rows n scans d) = List.length scans.
Proof.
  induction scans as [|sd scans IH]; intros d; cbn [all_settle all_rows];
    [reflexivity|].
  destruct (range_start sd); [|discriminate]. intros Hall.
  apply andb_prop in Hall as [_ Hall]. cbn [List.length]. now rewrite IH.
Qed.

Lemma begin_spec (scans : list ScanDesc) sd start d :
  scans !! 0%nat = Some sd -> range_start sd = Some start ->
  begin scans d
  = if ok (status (Seek start d)) then
      Done (mkScanIterator scans 0 db_iterator (status (Seek start d))
              (Scan_new db_iterator)) (Seek start d)
    else Thrown (status (Seek start d)) (Seek start d).
Proof.
  intros Hsd Hst. unfold begin, ScanIterator_new.
  rewrite (then_done _ _ _ _ _ (seek_scan_spec scans 0 sd start d Hsd Hst)).
  now destruct (ok (status (Seek start d))).
Qed.

(** X12.  One scan, walked by the inner loop of the usage comment.  If the
    database iterator comes to its end within [n] steps with every status
    good, the loop returns (given more than [n] turns of fuel), has
    collected exactly the pairs the iterator showed while it was valid, in
    order, and leaves the iterator invalid: the walk stops only where the
    iterator is no longer valid. *)
Theorem scan_collects_rows_until_invalid n fuel d :
  settles n d = true -> (n < fuel)%nat ->
  for_each_kv fuel (Scan_new db_iterator) d = Done (rows n d) (run_out n d) /\
  Valid (run_out n d) = false /\
  (List.length (rows n d) <= n)%nat /\
  (forall m, (n <= m)%nat -> rows m d = rows n d).
Proof.
  intros Hs Hfuel. split.
  - unfold for_each_kv, Scan_begin. cbn [Scans.db_iter_ Scan_new].
    rewrite (then_done _ _ _ _ _ (SingleIterator_new_spec d)).
    rewrite (kv_loop_spec _ n); try assumption; try reflexivity.
    cbn. intros ->. reflexivity.
  - split; [now apply settles_run_out|].
    split; [now apply length_rows|].
    intros m Hm. now destruct (rows_settled n m d Hs Hm) as [-> _].
Qed.

(** X13.  One scan that meets a bad status: when the status of the
    database iterator is bad after some [Next], the inner loop throws that
    status, with the iterator where the status was read; the pairs seen
    before are not delivered. *)
Theorem scan_throws_first_bad_status n fuel d d' :
  breaks n d = Some d' -> (n < fuel)%nat ->
  for_each_kv fuel (Scan_new db_iterator) d = Thrown (status d') d' /\
  ok (status d') = false.
Proof.
  intros Hb Hfuel. unfold for_each_kv, Scan_begin. cbn [Scans.db_iter_ Scan_new].
  rewrite (then_done _ _ _ _ _ (SingleIterator_new_spec d)).
  apply (kv_loop_breaks _ n fuel d d'); try assumption; reflexivity.
Qed.

(** X14.  The nested loops of the usage comment over a non-empty list of
    scans.  If every scan has a start, the status after each [Seek] is
    good and every walk ends within [n] steps, the loops return one list
    of pairs per scan, in the order of the scans: the scan seeks its start
    on the iterator as the previous scan left it and walks to the end. *)
Theorem nested_loops_collect_every_scan n fuel turns (scans : list ScanDesc) d :
  scans <> [] -> all_settle n scans d = true ->
  (n < fuel)%nat -> (List.length scans < turns)%nat ->
  for_each_scan turns fuel scans d
  = Done (all_rows n scans d) (all_out n scans d) /\
  List.length (all_rows n scans d) = List.length scans.
Proof.
  intros Hne Hall Hfuel Hturns. split; [|now apply length_all_rows].
  destruct scans as [|sd rest]; [contradiction|]. clear Hne.
  cbn [all_settle all_rows all_out] in *.
  destruct (range_start sd) as [start|] eqn:Hst; [|discriminate].
  apply andb_prop in Hall as [Hall Hrest]. apply andb_prop in Hall as [Hok Hs].
  unfold for_each_scan, then_ at 1.
  rewrite (begin_spec (sd :: rest) sd start d eq_refl Hst), Hok.
  apply (scan_loop_spec n fuel rest [] sd (sd :: rest)); try assumption.
  reflexivity.
Qed.

(** X15.  The nested loops on a scan whose [Seek] leaves a bad status:
    when the scans before it run to their ends as in X14, the loops throw
    that status, from [begin()] for the first scan and from [operator++]
    for a later one, and the lists collected so far are not delivered. *)
Theorem nested_loops_throw_bad_seek_status n fuel turns
    (pre post : list ScanDesc) bad start d :
  all_settle n pre d = true ->
  range_start bad = Some start ->
  ok (status (Seek start (all_out n pre d))) = false ->
  (n < fuel)%nat -> (List.length pre <= turns)%nat ->
  for_each_scan turns fuel (pre ++ bad :: post) d
  = Thrown (status (Seek start (all_out n pre d))) (Seek start (all_out n pre d)).
Proof.
  intros Hall Hstart Hbad Hfuel Hturns. unfold for_each_scan, then_ at 1.
  destruct pre as [|sd mid].
  - cbn [all_out app] in *.
    now rewrite (begin_spec (bad :: post) bad start d eq_refl Hstart), Hbad.
  - cbn [all_settle all_out app] in *.
    destruct (range_start sd) as [start0|] eqn:Hst; [|discriminate].
    apply andb_prop in Hall as [Hall Hrest]. apply andb_prop in Hall as [Hok Hs].
    rewrite (begin_spec (sd :: mid ++ bad :: post) sd start0 d eq_refl Hst), Hok.
    apply (scan_loop_throws n fuel mid [] sd bad post start); try assumption;
      try reflexivity.
Qed.

(** X16.  [begin()] needs a first scan.  On an empty list of scans it
    reads [scans_[0]], which is not there.  Whenever it returns, the list
    is not empty, the first scan had a start, the database iterator has
    been sought there and its status is good, and the iterator returned
    differs from [end()], so the loop body runs at least once. *)
Theorem begin_needs_a_first_scan (scans : list ScanDesc) d :
  (scans = [] -> begin scans d = Fault (NoSuchScan 0)) /\
  (forall it d', begin scans d = Done it d' ->
     ScanIterator_ne it (end_ scans) = true /\
     idx_ it = 0 /\ ok (status d') = true /\
     exists sd start, head scans = Some sd /\ range_start sd = Some start /\
                      d' = Seek start d).
Proof.
  split; [now intros ->|].
  intros it d'. destruct scans as [|sd rest]; [intros Hb; discriminate Hb|].
  destruct (range_start sd) as [start|] eqn:Hst.
  - rewrite (begin_spec (sd :: rest) sd start d eq_refl Hst).
    destruct (ok (status (Seek start d))) eqn:Hok; [|intros Hb; discriminate Hb].
    intros [= <- <-]. split; [reflexivity|]. split; [reflexivity|].
    split; [assumption|]. exists sd, start. auto.
  - unfold begin, ScanIterator_new, then_, seek_scan.
    change ((sd :: rest) !! Z.to_nat 0) with (Some sd). cbv beta iota.
    rewrite Hst. intros Hb. discriminate Hb.
Qed.

(** X17.  Iterators at the end only throw.  [operator++] on [end()] of
    the scans, and [operator++], [operator*] and [operator->] on a pair
    iterator that is not valid, throw [InvalidArgument] and leave the
    database iterator alone, although an end iterator holds a null
    pointer; an invalid pair iterator compares equal to [Scan::end()].
    Taking [begin()] of the scan behind [end()] does go through the null
    pointer. *)
Theorem end_iterators_only_throw (scans : list ScanDesc) (sc : Scans.Scan)
    (it : SingleIterator Status) d :
  valid_ it = false ->
  ScanIterator_incr (end_ scans) d
  = Thrown (InvalidArgument "Index out of range"%string) d /\
  SingleIterator_incr it d
  = Thrown (InvalidArgument "Trying to advance invalid iterator"%string) d /\
  SingleIterator_deref it d
  = Thrown (InvalidArgument "Trying to deref invalid iterator"%string) d /\
  SingleIterator_arrow it d
  = Thrown (InvalidArgument "Trying to deref invalid iterator"%string) d /\
  SingleIterator_eq it (Scan_end sc) = true /\
  Scan_begin (ScanIterator_deref (end_ scans)) d = Fault NullIterator.
Proof.
  intros Hv. split.
  { unfold ScanIterator_incr, end_, ScanIterator_last. cbn [scans_ idx_].
    now rewrite Z.leb_refl. }
  unfold SingleIterator_incr, SingleIterator_deref, SingleIterator_arrow,
    SingleIterator_eq. rewrite Hv. cbn [negb]. repeat split.
Qed.

(** X18.  The pair iterators of one scan share the database iterator.
    Two iterators taken from the same scan and advanced once each do not
    both show the second row: the second one shows the third, because the
    first one's [operator++] has already moved the iterator they share. *)
Theorem iterators_of_one_scan_share_the_cursor d :
  Valid d = true ->
  ok (status (Next d)) = true -> Valid (Next d) = true ->
  ok (status (Next (Next d))) = true -> Valid (Next (Next d)) = true ->
  two_walkers (Scan_new db_iterator) d
  = Done ((key (Next d), value (Next d)),
          (key (Next (Next d)), value (Next (Next d))))
         (Next (Next d)).
Proof.
  intros Hv0 Hok1 Hv1 Hok2 Hv2. unfold two_walkers, Scan_begin.
  cbn [Scans.db_iter_ Scan_new].
  rewrite (then_done _ _ _ _ _ (SingleIterator_new_spec d)).
  rewrite (then_done _ _ _ _ _ (SingleIterator_new_spec d)).
  rewrite Hv0. unfold then_ at 1.
  rewrite SingleIterator_incr_spec by reflexivity. rewrite Hok1, Hv1.
  unfold then_ at 1.
  rewrite SingleIterator_incr_spec by reflexivity. rewrite Hok2, Hv2.
  reflexivity.
Qed.

End Scanning.

Lemma scan_collects_rows_until_invalid_witness :
  for_each_kv 4 (Scan_new db_iterator) example_db
  = Done (rows 3 example_db) (run_out 3 example_db) /\
  Valid (run_out 3 example_db) = false /\
  (List.length (rows 3 example_db) <= 3)%nat /\
  (forall m, (3 <= m)%nat -> rows m example_db = rows 3 example_db).
Proof.
  apply (scan_collects_rows_until_invalid 3 4 example_db); [reflexivity|lia].
Defined.

Lemma scan_throws_first_bad_status_witness :
  for_each_kv 4 (Scan_new db_iterator) torn_db
  = Thrown (status (mkCursor example_table (Some 2%nat) 2))
           (mkCursor example_table (Some 2%nat) 2) /\
  ok (status (mkCursor example_table (Some 2%nat) 2)) = false.
Proof.
  apply (scan_throws_first_bad_status 3 4 torn_db); [reflexivity|lia].
Defined.

Lemma nested_loops_collect_every_scan_witness :
  for_each_scan 3 4 example_scans example_db
  = Done (all_rows 3 example_scans example_db) (all_out 3 example_scans example_db) /\
  List.length (all_rows 3 example_scans example_db) = List.length example_scans.
Proof.
  apply (nested_loops_collect_every_scan 3 4 3 example_scans example_db);
    [discriminate|reflexivity|lia|cbn; lia].
Defined.

Lemma nested_loops_throw_bad_seek_status_witness :
  for_each_scan 1 4 ([mkExScan (Some [Byte.x64])] ++ mkExScan (Some [Byte.x63]) :: [])
    torn_db
  = Thrown (status (Seek [Byte.x63]
                      (all_out 3 [mkExScan (Some [Byte.x64])] torn_db)))
           (Seek [Byte.x63] (all_out 3 [mkExScan (Some [Byte.x64])] torn_db)).
Proof.
  apply (nested_loops_throw_bad_seek_status 3 4 1 [mkExScan (Some [Byte.x64])] []
           (mkExScan (Some [Byte.x63])) [Byte.x63] torn_db);
    [reflexivity|reflexivity|reflexivity|lia|cbn; lia].
Defined.

Lemma begin_needs_a_first_scan_witness :
  ScanIterator_ne
    (mkScanIterator example_scans 0 db_iterator StOK (Scan_new db_iterator))
    (end_ example_scans) = true /\
  idx_ (mkScanIterator example_scans 0 db_iterator StOK (Scan_new db_iterator)) = 0 /\
  ok (status example_db) = true /\
  exists sd start, head example_scans = Some sd /\ range_start sd = Some start /\
                   example_db = Seek start example_db.
Proof.
  apply (proj2 (begin_needs_a_first_scan example_scans example_db)
           (mkScanIterator example_scans 0 db_iterator StOK (Scan_new db_iterator))
           example_db).
  reflexivity.
Defined.

Lemma end_iterators_only_throw_witness :
  ScanIterator_incr (end_ example_scans) example_db
  = Thrown (InvalidArgument "Index out of range"%string) example_db /\
  SingleIterator_incr SingleIterator_default example_db
  = Thrown (InvalidArgument "Trying to advance invalid iterator"%string) example_db /\
  SingleIterator_deref SingleIterator_default example_db
  = Thrown (InvalidArgument "Trying to deref invalid iterator"%string) example_db /\
  SingleIterator_arrow SingleIterator_default example_db
  = Thrown (InvalidArgument "Trying to deref invalid iterator"%string) example_db /\
  SingleIterator_eq SingleIterator_default (Scan_end (Scan_new db_iterator)) = true /\
  Scan_begin (ScanIterator_deref (end_ example_scans)) example_db = Fault NullIterator.
Proof.
  apply (end_iterators_only_throw example_scans (Scan_new db_iterator)
           SingleIterator_default example_db).
  reflexivity.
Defined.

Lemma iterators_of_one_scan_share_the_cursor_witness :
  two_walkers (Scan_new db_iterator) example_db
  = Done (([Byte.x62], [Byte.x32]), ([Byte.x63], [Byte.x33]))
         (mkCursor example_table None 2).
Proof.
  exact (iterators_of_one_scan_share_the_cursor example_db
           eq_refl eq_refl eq_refl eq_refl eq_refl).
Defined.

End MultiScanFacts.
